(** * A shallow embedding of the CSP engine of the battleship solver

    The development follows [battle.py] (and its sibling [battle_sol.py],
    whose engine is the same up to the names of the result strings):
    the class [Variable] with its class-wide undo dictionary, the
    constraint classes [TableConstraint] and [NValuesConstraint], the
    container [CSP], the propagation loop [GacEnforce] / [AC3Enforce] and
    the backtracking driver [GAC] / [AC3].

    Python objects are compared by identity, so a variable is a reference
    (an address in a store of variable objects) and a constraint is a
    reference into an immutable table of constraint objects.  Printing and
    the calls of the solution sink are recorded in an event log. *)

From stdpp Require Import gmap strings list.
From Stdlib Require Import ZArith Lia.

Local Open Scope Z_scope.

(** ** Values, references and objects *)

Definition vref := nat.     (* reference to a Variable object *)
Definition cref := nat.     (* reference to a Constraint object *)
Definition Value := Z.      (* a domain value *)

(** The fields of a [Variable] object; [_value = None] is Python's [None]. *)
Record Var := mkVar {
  _name : string;
  _dom : list Value;
  _curdom : list Value;
  _value : option Value
}.

(** [Variable.__init__]: both domains are copies of the passed list. *)
Definition Variable_init (name : string) (domain : list Value) : Var :=
  mkVar name domain domain None.

Inductive Constraint :=
| TableConstraint (name : string) (scope : list vref)
    (satAssignments : list (list Value))
| NValuesConstraint (name : string) (scope : list vref)
    (required : list Value) (lb ub : Z).

Definition scope (c : Constraint) : list vref :=
  match c with
  | TableConstraint _ s _ => s
  | NValuesConstraint _ s _ _ _ => s
  end.

Definition arity (c : Constraint) : nat := length (scope c).

(** What the program prints or hands to the solution sink.  [Select] is a
    ghost event marking [unAssignedVars.pop(0)]: the variable taken, the pool
    it was taken from, and the variables of the CSP that are unassigned at
    that moment. *)
Inductive Event :=
| PrintAssignError (v : vref) (x : Value)
| PrintPruneError (v : vref) (x : Value)
| PrintNotInCSP (v : vref)
| Solution (assignment : list (vref * option Value))
| Select (v : vref) (pool : list vref) (unassigned : list vref).

Inductive exn := IndexError | ValueError | TypeError | AttributeError.

(** The mutable world: the variable objects, the class attribute
    [Variable.undoDict], and the event log (most recent event last). *)
Record State := mkState {
  store : vref → Var;
  undoDict : gmap (vref * Value) (list (vref * Value));
  events : list Event
}.

(** ** Outcomes and the state monad of the embedding *)

Inductive outcome (A : Type) :=
| Ok (a : A)
| Raise (e : exn)
| OutOfFuel.
Arguments Ok {A} a.
Arguments Raise {A} e.
Arguments OutOfFuel {A}.

Definition M (A : Type) : Type := State → outcome (A * State).

Definition ret {A} (a : A) : M A := fun σ => Ok (a, σ).

Definition bind {A B} (m : M A) (k : A → M B) : M B := fun σ =>
  match m σ with
  | Ok (a, σ') => k a σ'
  | Raise e => Raise e
  | OutOfFuel => OutOfFuel
  end.

Definition raise {A} (e : exn) : M A := fun _ => Raise e.

Declare Scope py_scope.
Delimit Scope py_scope with py.
Notation "x <~ m ;; k" := (bind m (fun x => k))
  (at level 100, m at next level, right associativity) : py_scope.
Notation "m ;;; k" := (bind m (fun _ => k))
  (at level 100, right associativity) : py_scope.
Local Open Scope py_scope.

Definition print (e : Event) : M unit := fun σ =>
  Ok (tt, mkState (store σ) (undoDict σ) (events σ ++ [e])).

Definition upd (h : vref → Var) (v : vref) (V : Var) : vref → Var :=
  fun w => if decide (w = v) then V else h w.

Definition set_var (v : vref) (V : Var) (σ : State) : State :=
  mkState (upd (store σ) v V) (undoDict σ) (events σ).

(** ** Python list helpers *)

(** [l.remove(x)]: drops the first occurrence ([ValueError] when absent is
    handled at the call site). *)
Fixpoint remove_first (x : Value) (l : list Value) : list Value :=
  match l with
  | [] => []
  | y :: l' => if decide (y = x) then l' else y :: remove_first x l'
  end.

Fixpoint remove_var (x : vref) (l : list vref) : list vref :=
  match l with
  | [] => []
  | y :: l' => if decide (y = x) then l' else y :: remove_var x l'
  end.

(** [l.index(x)]: position of the first occurrence, [None] for [ValueError]. *)
Fixpoint index (x : vref) (l : list vref) : option nat :=
  match l with
  | [] => None
  | y :: l' => if decide (y = x) then Some 0%nat else S <$> index x l'
  end.

(** ** class Variable *)

Definition domain (V : Var) : list Value := _dom V.
Definition getValue (V : Var) : option Value := _value V.
Definition isAssigned (V : Var) : bool := bool_decide (getValue V ≠ None).

Definition setValue (self : vref) (value : option Value) : M unit := fun σ =>
  let V := store σ self in
  match value with
  | Some x =>
      if bool_decide (x ∉ _dom V) then print (PrintAssignError self x) σ
      else Ok (tt, set_var self (mkVar (_name V) (_dom V) (_curdom V) (Some x)) σ)
  | None => Ok (tt, set_var self (mkVar (_name V) (_dom V) (_curdom V) None) σ)
  end.

Definition unAssign (self : vref) : M unit := setValue self None.

Definition curDomain (V : Var) : list Value :=
  match getValue V with
  | Some x => [x]
  | None => _curdom V
  end.

Definition curDomainSize (V : Var) : nat :=
  match getValue V with
  | Some _ => 1%nat
  | None => length (_curdom V)
  end.

Definition inCurDomain (V : Var) (x : Value) : bool :=
  match getValue V with
  | Some y => bool_decide (x = y)
  | None => bool_decide (x ∈ _curdom V)
  end.

Definition pruneValue (self : vref) (value : Value)
    (reasonVar : vref) (reasonVal : Value) : M unit :=
  (fun σ =>
     let V := store σ self in
     if bool_decide (value ∈ _curdom V)
     then Ok (tt, set_var self
                (mkVar (_name V) (_dom V) (remove_first value (_curdom V)) (_value V)) σ)
     else print (PrintPruneError self value) σ) ;;;
  (fun σ =>
     let dkey := (reasonVar, reasonVal) in
     let d := match undoDict σ !! dkey with
              | Some _ => undoDict σ
              | None => <[dkey := []]> (undoDict σ)
              end in
     let l := default [] (d !! dkey) in
     Ok (tt, mkState (store σ) (<[dkey := l ++ [(self, value)]]> d) (events σ))).

Definition restoreVal (self : vref) (value : Value) (σ : State) : State :=
  let V := store σ self in
  set_var self (mkVar (_name V) (_dom V) (_curdom V ++ [value]) (_value V)) σ.

Definition restoreValues (reasonVar : vref) (reasonVal : Value) : M unit := fun σ =>
  let dkey := (reasonVar, reasonVal) in
  match undoDict σ !! dkey with
  | Some l =>
      let σ' := fold_left (fun s p => restoreVal (fst p) (snd p) s) l σ in
      Ok (tt, mkState (store σ') (delete dkey (undoDict σ')) (events σ'))
  | None => Ok (tt, σ)
  end.

Definition get_var (v : vref) : M Var := fun σ => Ok (store σ v, σ).

(** ** class TableConstraint *)

(** The inner loop of [TableConstraint.hasSupport],
    [for i, v in enumerate(self.scope())]: the value of [found] when the
    loop is left.  [assignment[i]] raises [IndexError] past the end. *)
Fixpoint table_tuple_ok (h : vref → Var) (vindex : nat) (assignment : list Value)
    (i : nat) (scope : list vref) : outcome bool :=
  match scope with
  | [] => Ok true
  | v :: scope' =>
      if bool_decide (i ≠ vindex) then
        match assignment !! i with
        | None => Raise IndexError
        | Some a =>
            if negb (inCurDomain (h v) a) then Ok false
            else table_tuple_ok h vindex assignment (S i) scope'
        end
      else table_tuple_ok h vindex assignment (S i) scope'
  end.

(** The outer loop, [for assignment in self.satAssignments]. *)
Fixpoint table_loop (h : vref → Var) (scope : list vref) (vindex : nat) (val : Value)
    (satAssignments : list (list Value)) : outcome bool :=
  match satAssignments with
  | [] => Ok false
  | assignment :: rest =>
      match assignment !! vindex with
      | None => Raise IndexError
      | Some a =>
          if bool_decide (a ≠ val) then table_loop h scope vindex val rest
          else match table_tuple_ok h vindex assignment 0 scope with
               | Ok true => Ok true
               | Ok false => table_loop h scope vindex val rest
               | Raise e => Raise e
               | OutOfFuel => OutOfFuel
               end
      end
  end.

Definition TableConstraint_hasSupport (h : vref → Var) (scope : list vref)
    (satAssignments : list (list Value)) (var : vref) (val : Value) : outcome bool :=
  if bool_decide (var ∉ scope) then Ok true
  else match index var scope with
       | None => Raise ValueError
       | Some vindex => table_loop h scope vindex val satAssignments
       end.

(** [check]: the values of the scope, or [None] as soon as one is unassigned. *)
Fixpoint assignments_of (h : vref → Var) (scope : list vref) : option (list Value) :=
  match scope with
  | [] => Some []
  | v :: scope' =>
      match getValue (h v) with
      | Some x => cons x <$> assignments_of h scope'
      | None => None
      end
  end.

Definition TableConstraint_check (h : vref → Var) (scope : list vref)
    (satAssignments : list (list Value)) : bool :=
  match assignments_of h scope with
  | None => true
  | Some assignments => bool_decide (assignments ∈ satAssignments)
  end.

(** ** findvals and class NValuesConstraint *)

Definition Assignment := list (vref * Value).

(** [remainingVars.sort(reverse=True, key=...)]: Python's sort is stable, also
    with [reverse=True], so equal keys keep their order. *)
Fixpoint insert_desc (key : vref → nat) (x : vref) (l : list vref) : list vref :=
  match l with
  | [] => [x]
  | y :: l' => if bool_decide (key x ≤ key y)%nat then y :: insert_desc key x l'
               else x :: l
  end.

Definition sort_desc (key : vref → nat) (l : list vref) : list vref :=
  fold_left (fun acc x => insert_desc key x acc) l [].

(** [l.pop()] on a non-empty list: the rest and the last element. *)
Definition pop_last {A} (l : list A) : option (list A * A) :=
  match reverse l with
  | [] => None
  | x :: r => Some (reverse r, x)
  end.

(** The two lists [remainingVars] and [assignment] are mutated in place and
    shared by all recursive calls, so they are threaded through. *)
Definition findvals_result : Type := bool * list vref * Assignment.

Fixpoint findvals_for (rec : list vref → Assignment → outcome findvals_result)
    (partialTestfn : Assignment → bool) (var : vref) (vals : list Value)
    (remainingVars : list vref) (assignment : Assignment) : outcome findvals_result :=
  match vals with
  | [] => Ok (false, remainingVars ++ [var], assignment)
  | val :: vals' =>
      let assignment1 := assignment ++ [(var, val)] in
      if partialTestfn assignment1 then
        match rec remainingVars assignment1 with
        | Ok (true, r, a) => Ok (true, r, a)
        | Ok (false, r, a) =>
            findvals_for rec partialTestfn var vals' r (removelast a)
        | Raise e => Raise e
        | OutOfFuel => OutOfFuel
        end
      else findvals_for rec partialTestfn var vals' remainingVars (removelast assignment1)
  end.

Fixpoint findvals_ (fuel : nat) (h : vref → Var) (remainingVars : list vref)
    (assignment : Assignment) (finalTestfn partialTestfn : Assignment → bool)
    : outcome findvals_result :=
  match fuel with
  | O => OutOfFuel
  | S fuel' =>
      match pop_last remainingVars with
      | None => Ok (finalTestfn assignment, remainingVars, assignment)
      | Some (remainingVars', var) =>
          findvals_for
            (fun r a => findvals_ fuel' h r a finalTestfn partialTestfn)
            partialTestfn var (curDomain (h var)) remainingVars' assignment
      end
  end.

Definition findvals (h : vref → Var) (remainingVars : list vref)
    (assignment : Assignment) (finalTestfn partialTestfn : Assignment → bool)
    : outcome bool :=
  let remainingVars := sort_desc (fun v => curDomainSize (h v)) remainingVars in
  match findvals_ (S (length remainingVars)) h remainingVars assignment
          finalTestfn partialTestfn with
  | Ok (b, _, _) => Ok b
  | Raise e => Raise e
  | OutOfFuel => OutOfFuel
  end.

(** Number of values of [vals] that are in [required]. *)
Fixpoint rv_count (required : list Value) (vals : list Value) : Z :=
  match vals with
  | [] => 0
  | v :: vals' =>
      (if bool_decide (v ∈ required) then 1 else 0) + rv_count required vals'
  end.

(** The local function [valsOK] of [NValuesConstraint.hasSupport]. *)
Definition valsOK (arity : nat) (required : list Value) (lb ub : Z)
    (l : Assignment) : bool :=
  let vals := map snd l in
  let n := rv_count required vals in
  let least := n + Z.of_nat arity - Z.of_nat (length vals) in
  let most := n in
  bool_decide (lb ≤ least) && bool_decide (most ≤ ub).

Definition NValuesConstraint_hasSupport (h : vref → Var) (scope : list vref)
    (required : list Value) (lb ub : Z) (var : vref) (val : Value) : outcome bool :=
  if bool_decide (var ∉ scope) then Ok true
  else
    let ok := valsOK (length scope) required lb ub in
    let varsToAssign := remove_var var scope in
    findvals h varsToAssign [(var, val)] ok ok.

Definition NValuesConstraint_check (h : vref → Var) (scope : list vref)
    (required : list Value) (lb ub : Z) : bool :=
  match assignments_of h scope with
  | None => true
  | Some assignments =>
      let n := rv_count required assignments in
      bool_decide (lb ≤ n) && bool_decide (n ≤ ub)
  end.

(** Dynamic dispatch on the class of the constraint object. *)
Definition hasSupport (h : vref → Var) (c : Constraint) (var : vref) (val : Value)
    : outcome bool :=
  match c with
  | TableConstraint _ scope sat => TableConstraint_hasSupport h scope sat var val
  | NValuesConstraint _ scope req lb ub =>
      NValuesConstraint_hasSupport h scope req lb ub var val
  end.

Definition check (h : vref → Var) (c : Constraint) : bool :=
  match c with
  | TableConstraint _ scope sat => TableConstraint_check h scope sat
  | NValuesConstraint _ scope req lb ub => NValuesConstraint_check h scope req lb ub
  end.

(** ** class CSP *)

Record CSP := mkCSP {
  csp_name : string;
  _variables : list vref;
  _constraints : list cref;
  constraints_of : list (list cref)
}.

Definition variables (csp : CSP) : list vref := _variables csp.
Definition constraints (csp : CSP) : list cref := _constraints csp.

Inductive verdict := OWO | OK.

(** What a loop body hands back: an early [return] of the enclosing function,
    or the work list to go on with. *)
Inductive flow :=
| Return (r : verdict)
| Continue (constraints : list cref).

Section Engine.

(** The constraint objects, by reference; they are never mutated. *)
Variable Γ : cref → Constraint.

(** [CSP.__init__], the part that builds the index [constraints_of]:
    [variables.index(v)] raises [ValueError] for a scope variable that is not
    one of the variables.  The sanity checks before it only print. *)
Definition index_constraint (variables : list vref) (c : cref)
    (acc : outcome (list (list cref))) (v : vref) : outcome (list (list cref)) :=
  match acc with
  | Ok t =>
      match index v variables with
      | None => Raise ValueError
      | Some i => Ok (<[i := default [] (t !! i) ++ [c]]> t)
      end
  | _ => acc
  end.

Definition CSP_init (name : string) (variables : list vref)
    (constraints : list cref) : outcome CSP :=
  match fold_left
          (fun acc c => fold_left (index_constraint variables c) (scope (Γ c)) acc)
          constraints (Ok (replicate (length variables) [])) with
  | Ok t => Ok (mkCSP name variables constraints t)
  | Raise e => Raise e
  | OutOfFuel => OutOfFuel
  end.

(** [constraintsOf]: the bare [except] prints and falls through, so the
    method returns [None]. *)
Definition constraintsOf (csp : CSP) (var : vref) : M (option (list cref)) :=
  match index var (variables csp) with
  | Some i =>
      match constraints_of csp !! i with
      | Some l => ret (Some l)
      | None => print (PrintNotInCSP var) ;;; ret None
      end
  | None => print (PrintNotInCSP var) ;;; ret None
  end.

(** ** GacEnforce (AC3Enforce in battle_sol.py) *)

(** [for recheck in csp.constraintsOf(var)]. *)
Fixpoint enqueue (cons : cref) (rechecks : list cref) (constraints : list cref)
    : list cref :=
  match rechecks with
  | [] => constraints
  | recheck :: rest =>
      if bool_decide (recheck ≠ cons) && bool_decide (recheck ∉ constraints)
      then enqueue cons rest (constraints ++ [recheck])
      else enqueue cons rest constraints
  end.

Definition lift {A} (o : outcome A) : M A := fun σ =>
  match o with
  | Ok a => Ok (a, σ)
  | Raise e => Raise e
  | OutOfFuel => OutOfFuel
  end.

(** [for val in var.curDomain()], over the copy taken when the loop starts. *)
Fixpoint GacEnforce_vals (csp : CSP) (cons : cref) (var : vref) (vals : list Value)
    (constraints : list cref) (assignedvar : vref) (assignedval : Value) : M flow :=
  match vals with
  | [] => ret (Continue constraints)
  | val :: vals' =>
      b <~ (fun σ => lift (hasSupport (store σ) (Γ cons) var val) σ) ;;
      if negb b then
        pruneValue var val assignedvar assignedval ;;;
        V <~ get_var var ;;
        if bool_decide (curDomainSize V = 0%nat) then ret (Return OWO)
        else
          rechecks <~ constraintsOf csp var ;;
          match rechecks with
          | None => raise TypeError
          | Some rechecks =>
              GacEnforce_vals csp cons var vals' (enqueue cons rechecks constraints)
                assignedvar assignedval
          end
      else GacEnforce_vals csp cons var vals' constraints assignedvar assignedval
  end.

(** [for var in cons.scope()]. *)
Fixpoint GacEnforce_scope (csp : CSP) (cons : cref) (scope : list vref)
    (constraints : list cref) (assignedvar : vref) (assignedval : Value) : M flow :=
  match scope with
  | [] => ret (Continue constraints)
  | var :: scope' =>
      V <~ get_var var ;;
      r <~ GacEnforce_vals csp cons var (curDomain V) constraints
             assignedvar assignedval ;;
      match r with
      | Return v => ret (Return v)
      | Continue constraints' =>
          GacEnforce_scope csp cons scope' constraints' assignedvar assignedval
      end
  end.

(** The [while] loop; one unit of fuel per iteration. *)
Fixpoint GacEnforce (fuel : nat) (csp : CSP) (constraints : list cref)
    (assignedvar : vref) (assignedval : Value) : M verdict :=
  match fuel with
  | O => fun _ => OutOfFuel
  | S fuel' =>
      match constraints with
      | [] => ret OK
      | c :: constraints' =>          (* [cons = constraints.pop(0)] *)
          r <~ GacEnforce_scope csp c (scope (Γ c)) constraints'
                 assignedvar assignedval ;;
          match r with
          | Return v => ret v
          | Continue constraints'' =>
              GacEnforce fuel' csp constraints'' assignedvar assignedval
          end
      end
  end.

(** ** GAC (AC3 in battle_sol.py) *)

(** The solution sink ([place_and_check_result] / [shipNumConstCheck]) is an
    external collaborator: it reads the value of every variable of the CSP. *)
Definition sink (csp : CSP) : M unit := fun σ =>
  print (Solution (map (fun v => (v, getValue (store σ v))) (variables csp))) σ.

Definition mark_select (csp : CSP) (var : vref) (pool : list vref) : M unit := fun σ =>
  print (Select var pool
           (filter (fun v => isAssigned (store σ v) = false) (variables csp))) σ.

(** One attempt [(var, val)], the body of [for val in var.curDomain()] in
    [GAC]: assign, propagate, recurse unless propagation reported wipeout,
    restore.  [rec] is the recursive call and the pool [unAssignedVars] is the
    list object it mutates. *)
Definition GAC_attempt (rec : list vref → M (list vref)) (fuel : nat) (csp : CSP)
    (var : vref) (val : Value) (unAssignedVars : list vref) : M (list vref) :=
  setValue var (Some val) ;;;
  cs <~ constraintsOf csp var ;;
  r <~ match cs with
       | None => raise AttributeError      (* [None.pop(0)] *)
       | Some cs => GacEnforce fuel csp cs var val
       end ;;
  pool <~ match r with
          | OWO => ret unAssignedVars
          | OK => rec unAssignedVars
          end ;;
  restoreValues var val ;;;
  ret pool.

Fixpoint GAC_vals (rec : list vref → M (list vref)) (fuel : nat) (csp : CSP)
    (var : vref) (vals : list Value) (unAssignedVars : list vref) : M (list vref) :=
  match vals with
  | [] => ret unAssignedVars
  | val :: vals' =>
      pool <~ GAC_attempt rec fuel csp var val unAssignedVars ;;
      GAC_vals rec fuel csp var vals' pool
  end.

Fixpoint GAC (fuel : nat) (unAssignedVars : list vref) (csp : CSP) : M (list vref) :=
  match fuel with
  | O => fun _ => OutOfFuel
  | S fuel' =>
      match unAssignedVars with
      | [] => sink csp ;;; ret []
      | var :: pool =>
          mark_select csp var unAssignedVars ;;;
          V <~ get_var var ;;
          pool' <~ GAC_vals (fun p => GAC fuel' p csp) fuel' csp var (curDomain V) pool ;;
          setValue var None ;;;
          ret (pool' ++ [var])
      end
  end.

End Engine.

(** The assignments handed to the sink among the events [new]. *)
Definition solutions_in (new : list Event) : list (list (vref * option Value)) :=
  omap (fun e => match e with Solution a => Some a | _ => None end) new.

(** The solutions handed to the sink, in order. *)
Definition solutions (σ : State) : list (list (vref * option Value)) :=
  solutions_in (events σ).


(** ** Further methods of class Variable *)

Definition domainSize (V : Var) : nat := length (domain V).

(** [restoreCurDomain]: the current domain becomes a fresh copy of the
    domain. *)
Definition restoreCurDomain (self : vref) : M unit := fun σ =>
  let V := store σ self in
  Ok (tt, set_var self (mkVar (_name V) (_dom V) (domain V) (_value V)) σ).

Definition reset (self : vref) : M unit :=
  restoreCurDomain self ;;; unAssign self.

(** ** Further methods of class Constraint *)

(** [numUnassigned]: the loop [for var in self._scope] with its counter. *)
Definition numUnassigned (h : vref → Var) (c : Constraint) : nat :=
  fold_left (fun i var => if negb (isAssigned (h var)) then S i else i) (scope c) 0%nat.

Definition unAssignedVars (h : vref → Var) (c : Constraint) : list vref :=
  filter (fun var => isAssigned (h var) = false) (scope c).

(** ** CSP.check *)

(** [Constraint.name()]: the constructors of the subclasses prefix the name
    they are given. *)
Definition Constraint_name (c : Constraint) : string :=
  match c with
  | TableConstraint name _ _ => "TableCnstr_" +:+ name
  | NValuesConstraint name _ _ _ _ => "NValues_" +:+ name
  end.

(** [for (var, val) in s: var.setValue(val)]. *)
Fixpoint setValues (s : list (vref * option Value)) : M unit :=
  match s with
  | [] => ret tt
  | p :: s' => setValue p.1 p.2 ;;; setValues s'
  end.

(** [for c in self.constraints(): if not c.check(): ...; break]: the first
    constraint whose [check] fails, if any. *)
Fixpoint first_failing (Γ : cref → Constraint) (h : vref → Var) (cs : list cref)
    : option cref :=
  match cs with
  | [] => None
  | c :: cs' => if check h (Γ c) then first_failing Γ h cs' else Some c
  end.

(** One round of the loop [for s in solutions] of [CSP.check], with the list
    [errs] it appends to. *)
Definition CSP_check_solution (Γ : cref → Constraint) (csp : CSP)
    (errs : list (list (vref * option Value) * string))
    (s : list (vref * option Value))
    : M (list (list (vref * option Value) * string)) :=
  let s_vars := s.*1 in
  if bool_decide (length s_vars ≠ length (variables csp)) then
    ret (errs ++ [(s, "Solution has incorrect number of variables in it")])
  else if bool_decide (length (remove_dups s_vars) ≠ length (variables csp)) then
    ret (errs ++ [(s, "Solution has duplicate variable assignments")])
  else if bool_decide ((list_to_set s_vars : gset vref) ≠ list_to_set (variables csp)) then
    ret (errs ++ [(s, "Solution has incorrect variable in it")])
  else
    setValues s ;;;
    fun σ =>
      match first_failing Γ (store σ) (constraints csp) with
      | Some c =>
          Ok (errs ++ [(s, "Solution does not satisfy constraint "
                           +:+ Constraint_name (Γ c))], σ)
      | None => Ok (errs, σ)
      end.

Fixpoint CSP_check_loop (Γ : cref → Constraint) (csp : CSP)
    (solutions : list (list (vref * option Value)))
    (errs : list (list (vref * option Value) * string))
    : M (list (list (vref * option Value) * string)) :=
  match solutions with
  | [] => ret errs
  | s :: rest =>
      errs' <~ CSP_check_solution Γ csp errs s ;;
      CSP_check_loop Γ csp rest errs'
  end.

(** [CSP.check(solutions)] as in [battle_sol.py], where the [check] methods of
    the constraints print nothing: the values of the variables are saved,
    every solution is examined, the values are put back. *)
Definition CSP_check (Γ : cref → Constraint) (csp : CSP)
    (solutions : list (list (vref * option Value)))
    : M (list (list (vref * option Value) * string)) :=
  current_values <~
    (fun σ => Ok (map (fun var => (var, getValue (store σ var))) (variables csp), σ)) ;;
  errs <~ CSP_check_loop Γ csp solutions [] ;;
  setValues current_values ;;;
  ret errs.


(** * Specification vocabulary and example inputs *)

(** A tuple extends [var = val] when every other position holds a value of
    the current domain of the variable at that position. *)
Definition tuple_supports (h : vref → Var) (scope : list vref) (vindex : nat)
    (t : list Value) : Prop :=
  ∀ i v, i ≠ vindex → scope !! i = Some v →
    ∃ a, t !! i = Some a ∧ a ∈ curDomain (h v).

(** A call fails when it ends in an exception instead of returning. *)
Definition raises {A} (m : M A) (σ : State) : Prop := ∃ e, m σ = Raise e.

(** Freshly constructed variables [Variable(name, domain)], in the order of
    their references, with an empty undo dictionary and nothing printed. *)
Definition fresh_store (vs : list (string * list Value)) : vref → Var :=
  fun v => match vs !! v with
           | Some (n, d) => Variable_init n d
           | None => Variable_init "" []
           end.

Definition initial (vs : list (string * list Value)) : State :=
  mkState (fresh_store vs) ∅ [].

Module Ex.
Definition A : vref := 0%nat.
Definition B : vref := 1%nat.
Definition C : vref := 2%nat.

(** Two variables with domain {1,2}. *)
Definition AB12 : State := initial [("A", [1; 2]); ("B", [1; 2])].

(** One variable with domain {1,2}. *)
Definition A12 : State := initial [("A", [1; 2])].
End Ex.

(** [vals] gives every variable of [vs], in order, a value of its current
    domain. *)
Definition picks (h : vref → Var) (vs : list vref) (vals : list Value) : Prop :=
  Forall2 (fun w y => y ∈ curDomain (h w)) vs vals.

(** What the depth-first search of [findvals_] looks for when it takes the
    variables in the order [vs]: one value per variable, every partial
    assignment on the way passing [partialTestfn], the full one passing
    [finalTestfn]. *)
Fixpoint search_ok (h : vref → Var) (finalTestfn partialTestfn : Assignment → bool)
    (vs : list vref) (assignment : Assignment) : Prop :=
  match vs with
  | [] => finalTestfn assignment = true
  | v :: vs' =>
      ∃ y, y ∈ curDomain (h v) ∧
           partialTestfn (assignment ++ [(v, y)]) = true ∧
           search_ok h finalTestfn partialTestfn vs' (assignment ++ [(v, y)])
  end.

(** [var = val] extends to the whole scope of an NValues constraint: the other
    scope variables (the scope without the first occurrence of [var]) take
    values [vals] of their current domains so that the number of values in
    [required] lies in [[lb, ub]]. *)
Definition NValues_extends (h : vref → Var) (scope : list vref)
    (required : list Value) (lb ub : Z) (var : vref) (val : Value) : Prop :=
  ∃ vals, picks h (remove_var var scope) vals ∧
          lb ≤ rv_count required (val :: vals) ≤ ub.

(** ** Support under an NValues constraint, as the specification words it *)

(** The values [currentDomain()] answers with, in the words of the
    specification: the assigned value alone for an assigned variable, else
    the values that have not been pruned. *)
Definition current_values (V : Var) : list Value :=
  match _value V with
  | Some x => [x]
  | None => _curdom V
  end.

(** The number of values of [vals] that lie in [required]. *)
Definition required_hits (required vals : list Value) : Z :=
  Z.of_nat (length (filter (fun x => x ∈ required) vals)).

(** [var = val] can be completed over the scope of an NValues constraint:
    there is one value per position of the scope, [val] at the position [i]
    of [var] (its first) and at every other position a current value of the
    variable there, such that the number of these values lying in
    [required] is in [[lb, ub]]. *)
Definition NValues_feasible (h : vref → Var) (scope : list vref)
    (required : list Value) (lb ub : Z) (var : vref) (val : Value) : Prop :=
  ∃ (i : nat) (vals : list Value),
    scope !! i = Some var ∧ (∀ j, (j < i)%nat → scope !! j ≠ Some var) ∧
    length vals = length scope ∧ vals !! i = Some val ∧
    (∀ j w y, j ≠ i → scope !! j = Some w → vals !! j = Some y →
              y ∈ current_values (h w)) ∧
    lb ≤ required_hits required vals ≤ ub.

(** ** The propagation algorithm, as the specification words it *)

(** A list without its repetitions, every element at its first occurrence. *)
Fixpoint first_occurrences (l : list cref) : list cref :=
  match l with
  | [] => []
  | x :: l' => x :: filter (fun y => y ≠ x) (first_occurrences l')
  end.

(** The constraints the CSP has on file for a variable. *)
Definition referencing (csp : CSP) (v : vref) : option (list cref) :=
  match index v (variables csp) with
  | Some i => constraints_of csp !! i
  | None => None
  end.

(** Every constraint referencing the pruned variable, other than [c], that is
    not already in the work list. *)
Definition to_enqueue (c : cref) (worklist refs : list cref) : list cref :=
  first_occurrences (filter (fun c' => c' ≠ c ∧ c' ∉ worklist) refs).

(** The wipeout that ends propagation: the variable is unassigned and none
    of its values is left. *)
Definition wiped_out (V : Var) : Prop := _value V = None ∧ _curdom V = [].

Section Propagation.

Variable Γ : cref → Constraint.
Variable csp : CSP.
Variable reasonVar : vref.
Variable reasonVal : Value.

(** One value [x] of the current domain of [v], under the popped
    constraint [c]: it is kept when it has support; otherwise it is pruned
    under the reason pair, and then either [v] is unassigned and has no value
    left, which ends propagation with wipeout at once, or the constraints
    referencing [v] are enqueued. *)
Inductive visit_value (c : cref) (v : vref) (x : Value)
  : State → list cref → State → flow → Prop :=
| value_supported σ wl :
    hasSupport (store σ) (Γ c) v x = Ok true →
    visit_value c v x σ wl σ (Continue wl)
| value_wipeout σ wl σ' :
    hasSupport (store σ) (Γ c) v x = Ok false →
    pruneValue v x reasonVar reasonVal σ = Ok (tt, σ') →
    wiped_out (store σ' v) →
    visit_value c v x σ wl σ' (Return OWO)
| value_pruned σ wl σ' refs :
    hasSupport (store σ) (Γ c) v x = Ok false →
    pruneValue v x reasonVar reasonVal σ = Ok (tt, σ') →
    ¬ wiped_out (store σ' v) →
    referencing csp v = Some refs →
    visit_value c v x σ wl σ' (Continue (wl ++ to_enqueue c wl refs)).

(** The values of one variable, one after the other. *)
Inductive visit_values (c : cref) (v : vref)
  : list Value → State → list cref → State → flow → Prop :=
| values_done σ wl : visit_values c v [] σ wl σ (Continue wl)
| values_stop x xs σ wl σ' r :
    visit_value c v x σ wl σ' (Return r) →
    visit_values c v (x :: xs) σ wl σ' (Return r)
| values_next x xs σ wl σ1 wl1 σ' f :
    visit_value c v x σ wl σ1 (Continue wl1) →
    visit_values c v xs σ1 wl1 σ' f →
    visit_values c v (x :: xs) σ wl σ' f.

(** The variables of the scope of [c], each with its current values when
    its turn comes. *)
Inductive visit_scope (c : cref)
  : list vref → State → list cref → State → flow → Prop :=
| scope_done σ wl : visit_scope c [] σ wl σ (Continue wl)
| scope_stop v vs σ wl σ' r :
    visit_values c v (current_values (store σ v)) σ wl σ' (Return r) →
    visit_scope c (v :: vs) σ wl σ' (Return r)
| scope_next v vs σ wl σ1 wl1 σ' f :
    visit_values c v (current_values (store σ v)) σ wl σ1 (Continue wl1) →
    visit_scope c vs σ1 wl1 σ' f →
    visit_scope c (v :: vs) σ wl σ' f.

(** The work list: success once it has drained, the wipeout result as soon
    as a visit reports it. *)
Inductive enforce : list cref → State → State → verdict → Prop :=
| enforce_drained σ : enforce [] σ σ OK
| enforce_stop c wl σ σ' r :
    visit_scope c (scope (Γ c)) σ wl σ' (Return r) →
    enforce (c :: wl) σ σ' r
| enforce_next c wl σ σ1 wl1 σ' r :
    visit_scope c (scope (Γ c)) σ wl σ1 (Continue wl1) →
    enforce wl1 σ1 σ' r →
    enforce (c :: wl) σ σ' r.

End Propagation.

(** The CSP object [CSP(name, variables, constraints)] when the constructor
    returns (an empty index stands in when it raises). *)
Definition built (Γ : cref → Constraint) (name : string) (variables : list vref)
    (constraints : list cref) : CSP :=
  match CSP_init Γ name variables constraints with
  | Ok csp => csp
  | _ => mkCSP name variables constraints []
  end.

(** The state after the calls [m] made one after the other from [σ]
    (unchanged when the call does not return). *)
Definition after {A} (m : M A) (σ : State) : State :=
  match m σ with
  | Ok (_, σ') => σ'
  | _ => σ
  end.

Module Ex2.
Import Ex.

(** One table constraint over [A, B] that forbids [A == B]. *)
Definition neq (c : cref) : Constraint :=
  TableConstraint "neq" [A; B] [[1; 2]; [2; 1]].
Definition csp_neq : CSP := built neq "neq" [A; B] [0%nat].

(** One table constraint over [A, B] that only allows [[1, 1]]. *)
Definition both1 (c : cref) : Constraint :=
  TableConstraint "both1" [A; B] [[1; 1]].
Definition csp_both1 : CSP := built both1 "both1" [A; B] [0%nat].

(** [A] has just been assigned 1. *)
Definition AB12_A1 : State := after (setValue A (Some 1)) AB12.

End Ex2.

(** ** Invariants of the search *)

(** The current domain and the assigned value stay within the domain. *)
Definition wf_state (σ : State) : Prop :=
  ∀ w, (∀ y, y ∈ _curdom (store σ w) → y ∈ _dom (store σ w)) ∧
       (∀ y, getValue (store σ w) = Some y → y ∈ _dom (store σ w)).

(** Names, domains and assigned values are the same in both states. *)
Definition same_assignment (σ σ' : State) : Prop :=
  ∀ w, _name (store σ' w) = _name (store σ w) ∧
       _dom (store σ' w) = _dom (store σ w) ∧
       _value (store σ' w) = _value (store σ w).

Definition is_print (e : Event) : Prop :=
  match e with
  | PrintAssignError _ _ | PrintPruneError _ _ | PrintNotInCSP _ => True
  | Solution _ | Select _ _ _ => False
  end.

(** What propagation under the reason key [k] may do to a state: current
    domains only lose values, the undo log grows under [k] only, by values
    that were in current domains, and nothing but messages is emitted. *)
Definition pruned_from (k : vref * Value) (σ σ' : State) : Prop :=
  same_assignment σ σ' ∧
  (∀ w y, y ∈ _curdom (store σ' w) → y ∈ _curdom (store σ w)) ∧
  (∀ k', k' ≠ k → undoDict σ' !! k' = undoDict σ !! k') ∧
  (∃ ext, default [] (undoDict σ' !! k) = default [] (undoDict σ !! k) ++ ext ∧
          (undoDict σ' !! k = None → undoDict σ !! k = None) ∧
          (∀ w y, (w, y) ∈ ext → y ∈ curDomain (store σ w)) ∧
          (∀ w y, y ∈ _curdom (store σ w) →
                  y ∈ _curdom (store σ' w) ∨ (w, y) ∈ ext)) ∧
  (∃ new, events σ' = events σ ++ new ∧ Forall is_print new).

(** The claim of the specification about the order of selection: the variable
    taken at a decision point is the first, in the order of the variables of
    the CSP, of those still unassigned. *)
Definition selects_earliest_unassigned (σ : State) : Prop :=
  ∀ v pool unassigned, Select v pool unassigned ∈ events σ →
    head unassigned = Some v.

(** What the code does instead: the variable taken is the head of the pool
    as it stands, and the pool holds the variables still unassigned: those of
    [pool0], the pool of the call under consideration, that are not assigned
    yet, the variables outside [pool0] keeping the state [σ0] they had when
    the call was made. *)
Definition selects_head_of_pool (csp : CSP) (pool0 : list vref) (σ0 : State)
    (new : list Event) : Prop :=
  ∀ v pool unassigned, Select v pool unassigned ∈ new →
    head pool = Some v ∧
    (∀ w, w ∈ pool → w ∈ pool0) ∧
    (∀ w, w ∈ unassigned ↔
          w ∈ variables csp ∧
          (w ∈ pool ∨ ((w ∉ pool0) ∧ getValue (store σ0 w) = None))).

(** No value has left a current domain. *)
Definition keeps_values (σ σ' : State) : Prop :=
  ∀ w y, y ∈ _curdom (store σ w) → y ∈ _curdom (store σ' w).

(** What a call [GAC(pool, ...)] made in [σ] leaves behind when it returns
    [pool'] in [σ']. *)
Definition GAC_post (csp : CSP) (pool : list vref) (σ : State)
    (pool' : list vref) (σ' : State) : Prop :=
  (wf_state σ' ∧ keeps_values σ σ') ∧ same_assignment σ σ' ∧ undoDict σ' = undoDict σ ∧
  pool' ≡ₚ pool ∧
  ∃ new, events σ' = events σ ++ new ∧ selects_head_of_pool csp pool σ new.

Definition GAC_pre (pool : list vref) (σ : State) : Prop :=
  wf_state σ ∧ NoDup pool ∧
  (∀ w, w ∈ pool → getValue (store σ w) = None) ∧
  (∀ w x, w ∈ pool → undoDict σ !! (w, x) = None).

Module Ex3.
Import Ex.

(** Three variables and no constraint at all. *)
Definition none (c : cref) : Constraint := TableConstraint "" [] [].
Definition csp_free : CSP := built none "free" [A; B; C] [].
Definition ABC : State := initial [("A", [1; 2]); ("B", [1]); ("C", [1])].

End Ex3.

(** Names and domains are the same in both states, and so are the assigned
    values of all variables but [var]. *)
Definition same_but (var : vref) (σ σ' : State) : Prop :=
  ∀ w, _name (store σ' w) = _name (store σ w) ∧
       _dom (store σ' w) = _dom (store σ w) ∧
       (w ≠ var → _value (store σ' w) = _value (store σ w)).

(** The claim of the specification about one attempt: after the restore step
    every current domain (up to the order of its values) and every assigned
    value is what it was before the attempt. *)
Definition attempt_restores_all (σ σ' : State) : Prop :=
  ∀ w, (_curdom (store σ' w) ≡ₚ _curdom (store σ w)) ∧
       _value (store σ' w) = _value (store σ w).

(** An attempt [(var, val)] up to its restore step: assign, propagate,
    recurse unless propagation reported wipeout.  The restore step,
    [restoreValues(var, val)], is what [GAC_attempt] does next. *)
Definition GAC_attempt_search (Γ : cref → Constraint)
    (rec : list vref → M (list vref)) (fuel : nat) (csp : CSP)
    (var : vref) (val : Value) (unAssignedVars : list vref) : M (list vref) :=
  setValue var (Some val) ;;;
  cs <~ constraintsOf csp var ;;
  r <~ match cs with
       | None => raise AttributeError
       | Some cs => GacEnforce Γ fuel csp cs var val
       end ;;
  match r with
  | OWO => ret unAssignedVars
  | OK => rec unAssignedVars
  end.

Module Ex4.
Import Ex.

(** A unary constraint [A == 1] and a binary one that only allows [[1, 1]]. *)
Definition unary_binary (c : cref) : Constraint :=
  match c with
  | O => TableConstraint "A_is_1" [A] [[1]]
  | _ => TableConstraint "both1" [A; B] [[1; 1]]
  end.
Definition csp_ub : CSP := built unary_binary "ub" [A; B] [0%nat; 1%nat].

(** The unary constraint [A == 1] alone, over the single variable A. *)
Definition unary (c : cref) : Constraint := TableConstraint "A_is_1" [A] [[1]].
Definition csp_unary : CSP := built unary "u" [A] [0%nat].

(** The single variable A with domain {2}, assigned 2. *)
Definition A_is_2 : State := after (setValue A (Some 2)) (initial [("A", [2])]).

End Ex4.

(** ** Arc consistency *)

(** The constraint as a predicate on assignments [f] of its scope. *)
Definition sat_fun (c : Constraint) (f : vref → Value) : Prop :=
  match c with
  | TableConstraint _ scope sat => f <$> scope ∈ sat
  | NValuesConstraint _ scope required lb ub =>
      lb ≤ rv_count required (f <$> scope) ≤ ub
  end.

(** [f] supports [v = x]: it satisfies [c], gives [v] the value [x] and
    every other scope variable a value of its current domain. *)
Definition supports (h : vref → Var) (c : Constraint) (v : vref) (x : Value)
    (f : vref → Value) : Prop :=
  sat_fun c f ∧ f v = x ∧
  ∀ w, w ∈ scope c → w ≠ v → f w ∈ curDomain (h w).

(** [f] satisfies [c] within the current domains. *)
Definition valid (h : vref → Var) (c : Constraint) (f : vref → Value) : Prop :=
  sat_fun c f ∧ ∀ w, w ∈ scope c → f w ∈ curDomain (h w).

(** No variable occurs twice in the scope, and the tuples of a table have
    the length of the scope. *)
Definition wf_constraint (c : Constraint) : Prop :=
  NoDup (scope c) ∧
  match c with
  | TableConstraint _ scope sat => Forall (fun t => length t = length scope) sat
  | NValuesConstraint _ _ _ _ _ => True
  end.

(** [c] is arc consistent in [h]: [hasSupport] answers [True] for every value
    of the current domain of every variable of the scope. *)
Definition arc_consistent (h : vref → Var) (c : Constraint) : Prop :=
  ∀ v x, v ∈ scope c → x ∈ curDomain (h v) → hasSupport h c v x = Ok true.

(** Every pair logged under the key [k] concerns a variable that is not
    assigned: propagation under [k] never pruned an assigned variable. *)
Definition unassigned_log (k : vref * Value) (σ : State) : Prop :=
  ∀ w y, (w, y) ∈ default [] (undoDict σ !! k) → getValue (store σ w) = None.

(** No value occurs twice in a current domain. *)
Definition nodup_state (σ : State) : Prop :=
  ∀ w, NoDup (_curdom (store σ w)).

(** Assigned values are the same and the undo log under [k] has only grown. *)
Definition log_grows (k : vref * Value) (σ σ' : State) : Prop :=
  (∀ w, _value (store σ' w) = _value (store σ w)) ∧
  ∃ ext, default [] (undoDict σ' !! k) = default [] (undoDict σ !! k) ++ ext.

(** What the visit of a constraint [c] (with body [C]) has done between two
    of its steps: current domains have only lost values and still have no
    repetition, assignments valid for [C] are still valid, the work list has
    only grown, by constraints of [cs], and holds every constraint on file,
    other than [c], for each variable whose current domain has changed. *)
Definition pass_step (csp : CSP) (cs : list cref) (c : cref) (C : Constraint)
    (σ : State) (wl : list cref) (σ' : State) (wl' : list cref) : Prop :=
  nodup_state σ' ∧
  (∀ f, valid (store σ) C f → valid (store σ') C f) ∧
  (∀ w y, y ∈ curDomain (store σ' w) → y ∈ curDomain (store σ w)) ∧
  (∀ d, d ∈ wl → d ∈ wl') ∧
  (∀ d, d ∈ wl' → d ∈ wl ∨ d ∈ cs) ∧
  (∀ w, curDomain (store σ' w) ≠ curDomain (store σ w) →
        ∃ refs, referencing csp w = Some refs ∧
                ∀ d, d ∈ refs → d ≠ c → d ∈ wl').

(** A run of propagation from [σ] to [σ'] pruned nothing: no pair was logged
    and every current domain is what it was. *)
Definition prunes_nothing (σ σ' : State) : Prop :=
  undoDict σ' = undoDict σ ∧ ∀ w, _curdom (store σ' w) = _curdom (store σ w).

Module Ex5.
Import Ex.

(** A table over the scope [A, A, B], in which A occurs twice. *)
Definition chain (c : cref) : Constraint :=
  TableConstraint "chain" [A; A; B] [[1; 1; 0]; [2; 3; 0]; [3; 4; 0]; [4; 5; 0]].
Definition csp_chain : CSP := built chain "chain" [A; B] [0%nat].

(** A with domain [1; 2; 3; 4], B with domain [0] and just assigned 0. *)
Definition A1234_B0 : State :=
  after (setValue B (Some 0)) (initial [("A", [1; 2; 3; 4]); ("B", [0])]).

End Ex5.

(** ** Invariants of propagation and of the search *)

(** The values logged for [w] in a list of pairs: what [restoreValues]
    appends to the current domain of [w]. *)
Definition logged_for (w : vref) (l : list (vref * Value)) : list Value :=
  (filter (fun p => p.1 = w) l).*2.

(** [g] gives every variable of [S] a value of its current domain. *)
Definition fits (S : list vref) (h : vref → Var) (g : vref → Value) : Prop :=
  ∀ w, w ∈ S → g w ∈ curDomain (h w).

(** The pairs logged under [k] between [σ] and [σ'] are exactly the values
    that have left the current domains. *)
Definition log_accounts (k : vref * Value) (σ σ' : State) : Prop :=
  ∃ ext, default [] (undoDict σ' !! k) = default [] (undoDict σ !! k) ++ ext ∧
         ∀ w, _curdom (store σ w) ≡ₚ _curdom (store σ' w) ++ logged_for w ext.

(** What propagation under the key [k] relies on and maintains from one
    visit to the next: current domains without repetitions; the value of an
    assigned variable still in the list behind its current domain; no
    unassigned variable of [vars] with an empty current domain; every
    constraint of [cs] whose scope is fully assigned satisfied; and no
    assigned variable pruned so far. *)
Definition prop_inv (Γ : cref → Constraint) (cs : list cref) (vars : list vref)
    (k : vref * Value) (σ : State) : Prop :=
  nodup_state σ ∧
  (∀ w y, getValue (store σ w) = Some y → y ∈ _curdom (store σ w)) ∧
  (∀ w, w ∈ vars → getValue (store σ w) = None → _curdom (store σ w) ≠ []) ∧
  (∀ d, d ∈ cs → (∀ w, w ∈ scope (Γ d) → getValue (store σ w) ≠ None) →
        ∃ g, valid (store σ) (Γ d) g) ∧
  unassigned_log k σ.

(** The state after [setValue(None)] on [var]. *)
Definition released (var : vref) (σ : State) : State :=
  let V := store σ var in
  set_var var (mkVar (_name V) (_dom V) (_curdom V) None) σ.

(** The state after [setValue(val)] on [var], for a value of the domain. *)
Definition assigned (var : vref) (val : Value) (σ : State) : State :=
  let V := store σ var in
  set_var var (mkVar (_name V) (_dom V) (_curdom V) (Some val)) σ.

(** What the sink reads when the variables hold the values [f]. *)
Definition assignment_of (vars : list vref) (f : vref → Value)
    : list (vref * option Value) :=
  map (fun v => (v, Some (f v))) vars.

(** [f] satisfies every constraint of [cs]. *)
Definition solution_of (Γ : cref → Constraint) (cs : list cref)
    (f : vref → Value) : Prop :=
  ∀ d, d ∈ cs → sat_fun (Γ d) f.

(** The events [new] hand to the sink, once each, exactly the assignments
    [f] with [P f]. *)
Definition enumerates (vars : list vref) (P : (vref → Value) → Prop)
    (new : list Event) : Prop :=
  NoDup (solutions_in new) ∧
  ∀ a, a ∈ solutions_in new ↔ ∃ f, P f ∧ a = assignment_of vars f.

(** Same names, domains, assigned values and undo log, and the same current
    domains up to the order of their values. *)
Definition similar (σ σ' : State) : Prop :=
  same_assignment σ σ' ∧
  (∀ w, _curdom (store σ' w) ≡ₚ _curdom (store σ w)) ∧
  undoDict σ' = undoDict σ.

(** The invariant of the search at a decision point with pool [pool]: the
    unassigned variables of the CSP are those of the pool, none of them has an
    empty current domain or a reason key in the undo log, no current domain
    has a repetition, an assigned value is still in the list behind its
    current domain, and every constraint with an assigned variable in its
    scope is arc consistent. *)
Definition search_inv (Γ : cref → Constraint) (cs : list cref) (vars : list vref)
    (pool : list vref) (σ : State) : Prop :=
  wf_state σ ∧ nodup_state σ ∧ NoDup pool ∧
  (∀ w, w ∈ pool → w ∈ vars) ∧
  (∀ w, w ∈ vars → (w ∈ pool ↔ getValue (store σ w) = None)) ∧
  (∀ w x, w ∈ pool → undoDict σ !! (w, x) = None) ∧
  (∀ w y, getValue (store σ w) = Some y → y ∈ _curdom (store σ w)) ∧
  (∀ w, w ∈ pool → _curdom (store σ w) ≠ []) ∧
  (∀ d, d ∈ cs → (∃ w, w ∈ scope (Γ d) ∧ getValue (store σ w) ≠ None) →
        arc_consistent (store σ) (Γ d)).

(** [f] is a solution within the current domains of [σ]. *)
Definition solves (Γ : cref → Constraint) (cs : list cref) (vars : list vref)
    (σ : State) (f : vref → Value) : Prop :=
  solution_of Γ cs f ∧ fits vars (store σ) f.

(** The number of values in the current domains of the variables [vars]. *)
Definition total_size (vars : list vref) (σ : State) : nat :=
  sum_list_with (fun w => length (_curdom (store σ w))) vars.

(** The calls [w.pruneValue(x, reasonVar, reasonVal)], one after the other,
    for the pairs [(w, x)] of [l]. *)
Fixpoint pruneValues (l : list (vref * Value)) (reasonVar : vref)
    (reasonVal : Value) : M unit :=
  match l with
  | [] => ret tt
  | p :: l' =>
      pruneValue p.1 p.2 reasonVar reasonVal ;;; pruneValues l' reasonVar reasonVal
  end.

(** The tuples of a table have the length of its scope; nothing is asked of
    an NValues constraint. *)
Definition tuples_fit (c : Constraint) : Prop :=
  match c with
  | TableConstraint _ scope sat => Forall (fun t => length t = length scope) sat
  | NValuesConstraint _ _ _ _ _ => True
  end.

(** Names, domains and current domains are the same in both states, and so
    is the undo dictionary. *)
Definition same_domains (σ σ' : State) : Prop :=
  undoDict σ' = undoDict σ ∧
  ∀ w, _name (store σ' w) = _name (store σ w) ∧
       _dom (store σ' w) = _dom (store σ w) ∧
       _curdom (store σ' w) = _curdom (store σ w).

(** A solution that names every variable of the CSP once, each with a value
    of its domain. *)
Definition proper (csp : CSP) (σ : State) (s : list (vref * option Value)) : Prop :=
  s.*1 ≡ₚ variables csp ∧
  ∀ v x, (v, x) ∈ s → ∃ y, x = Some y ∧ y ∈ _dom (store σ v).

(** The message [CSP.check] files for a solution that fails [c.check()]. *)
Definition unsatisfied (Γ : cref → Constraint) (c : cref) : string :=
  "Solution does not satisfy constraint " +:+ Constraint_name (Γ c).

(** * Properties *)

(** ** Basic facts about the helpers *)

Lemma inCurDomain_spec (V : Var) (x : Value) :
  inCurDomain V x = true ↔ x ∈ curDomain V.
Proof.
  unfold inCurDomain, curDomain. destruct (getValue V) as [y|].
  - rewrite bool_decide_eq_true. rewrite list_elem_of_singleton. done.
  - by rewrite bool_decide_eq_true.
Qed.

Lemma index_Some (x : vref) (l : list vref) (i : nat) :
  index x l = Some i ↔ l !! i = Some x ∧ ∀ j, (j < i)%nat → l !! j ≠ Some x.
Proof.
  revert i. induction l as [|y l IH]; intros i; simpl.
  - split; [done | intros [? _]; done].
  - destruct (decide (y = x)) as [->|Hne].
    + split.
      * intros [= <-]. split; [done | intros j Hj; lia].
      * intros [Hi Hlt]. destruct i as [|i]; [done|].
        exfalso. apply (Hlt 0%nat); [lia | done].
    + destruct i as [|i].
      * split.
        -- destruct (index x l); done.
        -- intros [[= ?] _]. done.
      * destruct (IH i) as [IH1 IH2]. split.
        -- intros H. destruct (index x l) as [k|] eqn:E; [|done].
           injection H as ->. destruct IH1 as [? Hlt]; [done|].
           split; [done|]. intros [|j] Hj; simpl; [congruence|].
           apply Hlt. lia.
        -- intros [Hi Hlt]. rewrite IH2; [done|]. split; [done|].
           intros j Hj. apply (Hlt (S j)). lia.
Qed.

Lemma index_None (x : vref) (l : list vref) : index x l = None ↔ x ∉ l.
Proof.
  induction l as [|y l IH]; simpl.
  - split; [intros _; apply not_elem_of_nil | done].
  - destruct (decide (y = x)) as [->|Hne].
    + split; [done | intros H; exfalso; apply H; left].
    + rewrite not_elem_of_cons. destruct (index x l); simpl.
      * split; [done | intros [_ H]]. by apply IH in H.
      * split; [intros _; split; [congruence | by apply IH] | done].
Qed.

(** ** TableConstraint.hasSupport *)

Lemma table_tuple_ok_spec h vindex t scope i :
  (i + length scope ≤ length t)%nat →
  ∃ b, table_tuple_ok h vindex t i scope = Ok b ∧
       (b = true ↔ ∀ k v, (i + k)%nat ≠ vindex → scope !! k = Some v →
                      ∃ a, t !! (i + k)%nat = Some a ∧ a ∈ curDomain (h v)).
Proof.
  revert i. induction scope as [|v scope IH]; intros i Hlen; simpl in *.
  - exists true. split; [done|]. split; [|done]. intros _ k v _ Hk. done.
  - destruct (IH (S i)) as (b & Hb & Hiff); [lia|].
    case_bool_decide as Hi.
    + destruct (lookup_lt_is_Some_2 t i) as [a Ha]; [lia|]. rewrite Ha.
      destruct (inCurDomain (h v) a) eqn:Hin; simpl.
      * exists b. split; [done|]. rewrite Hiff. split.
        -- intros H [|k] w Hne Hk; simpl in *.
           ++ injection Hk as <-. exists a. rewrite Nat.add_0_r.
              split; [done|]. by apply inCurDomain_spec.
           ++ replace (i + S k)%nat with (S i + k)%nat by lia.
              apply H; [lia | done].
        -- intros H k w Hne Hk.
           replace (S i + k)%nat with (i + S k)%nat by lia.
           apply H; [lia | done].
      * exists false. split; [done|]. split; [done|]. intros H.
        destruct (H 0%nat v) as (a' & Ha' & Hin'); [lia | done |].
        rewrite Nat.add_0_r in Ha'. rewrite Ha in Ha'. injection Ha' as <-.
        apply inCurDomain_spec in Hin'. congruence.
    + exists b. split; [done|]. rewrite Hiff. split.
      * intros H [|k] w Hne Hk; simpl in *.
        -- exfalso. apply Hne. lia.
        -- replace (i + S k)%nat with (S i + k)%nat by lia.
           apply H; [lia | done].
      * intros H k w Hne Hk.
        replace (S i + k)%nat with (i + S k)%nat by lia.
        apply H; [lia | done].
Qed.

Lemma table_loop_spec h scope vindex val sat :
  (vindex < length scope)%nat →
  Forall (fun t => length t = length scope) sat →
  ∃ b, table_loop h scope vindex val sat = Ok b ∧
       (b = true ↔ ∃ t, t ∈ sat ∧ t !! vindex = Some val ∧
                        tuple_supports h scope vindex t).
Proof.
  intros Hv. induction sat as [|t sat IH]; intros Hall; simpl.
  - exists false. split; [done|]. split; [done|].
    intros (t & Ht & _). by apply elem_of_nil in Ht.
  - apply Forall_cons in Hall as [Hlen Hall].
    destruct (IH Hall) as (b & Hb & Hiff).
    destruct (lookup_lt_is_Some_2 t vindex) as [a Ha]; [lia|]. rewrite Ha.
    assert (Hrest : (∃ t0, t0 ∈ sat ∧ t0 !! vindex = Some val ∧
                       tuple_supports h scope vindex t0) →
                    ∃ t0, t0 ∈ t :: sat ∧ t0 !! vindex = Some val ∧
                       tuple_supports h scope vindex t0).
    { intros (t0 & ? & ? & ?). exists t0. split; [by right | done]. }
    case_bool_decide as Hne.
    + exists b. split; [done|]. rewrite Hiff. split; [done|].
      intros (t0 & Ht0 & Hval & Hsup). apply elem_of_cons in Ht0 as [->|Ht0].
      * congruence.
      * by exists t0.
    + subst a.
      destruct (table_tuple_ok_spec h vindex t scope 0) as (b' & Hb' & Hiff');
        [simpl; lia|].
      rewrite Hb'. destruct b'.
      * exists true. split; [done|]. split; [|done]. intros _.
        exists t. split; [left|]. split; [done|].
        intros i v Hi Hs. by apply (proj1 Hiff' eq_refl i v).
      * exists b. split; [done|]. rewrite Hiff. split; [done|].
        intros (t0 & Ht0 & Hval & Hsup). apply elem_of_cons in Ht0 as [->|Ht0].
        -- assert (false = true); [|done]. apply Hiff'.
           intros k v Hk Hs. by apply Hsup.
        -- by exists t0.
Qed.

(** C1.  [TableConstraint.hasSupport(var, val)], for a table whose tuples
    have the length of the scope: it returns [True] when [var] is not in the
    scope; otherwise it returns [True] exactly when some stored tuple has
    [val] at the position of [var] (its first occurrence in the scope) and,
    at every other position, a value of the current domain of the variable
    there ([val] itself need not be in the current domain of [var]); and
    the answer is the same for every order of the stored tuples. *)
Theorem TableConstraint_hasSupport_correct
    (h : vref → Var) (scope : list vref) (sat : list (list Value))
    (var : vref) (val : Value) :
  Forall (fun t => length t = length scope) sat →
  ∃ b, TableConstraint_hasSupport h scope sat var val = Ok b ∧
       (var ∉ scope → b = true) ∧
       (∀ vindex, scope !! vindex = Some var →
          (∀ j, (j < vindex)%nat → scope !! j ≠ Some var) →
          (b = true ↔ ∃ t, t ∈ sat ∧ t !! vindex = Some val ∧
                           tuple_supports h scope vindex t)) ∧
       (∀ sat', sat ≡ₚ sat' →
          TableConstraint_hasSupport h scope sat' var val = Ok b).
Proof.
  intros Hall. unfold TableConstraint_hasSupport.
  case_bool_decide as Hin.
  - exists true. split; [done|]. split; [done|]. split.
    + intros vindex Hv _. exfalso. apply Hin. by eapply list_elem_of_lookup_2.
    + intros sat' _. done.
  - destruct (index var scope) as [vindex|] eqn:Hidx;
      [|by apply index_None in Hidx].
    pose proof (proj1 (index_Some _ _ _) Hidx) as [Hv Hfirst].
    assert (Hlt : (vindex < length scope)%nat) by (by eapply lookup_lt_Some).
    destruct (table_loop_spec h scope vindex val sat Hlt Hall) as (b & Hb & Hiff).
    exists b. split; [done|]. split; [intros; done|]. split.
    + intros vindex' Hv' Hfirst'.
      assert (vindex' = vindex) as ->; [|done].
      destruct (Nat.lt_trichotomy vindex' vindex) as [H|[H|H]]; [|done|].
      * by apply Hfirst in H.
      * by apply Hfirst' in H.
    + intros sat' Hperm.
      assert (Hall' : Forall (fun t => length t = length scope) sat')
        by (by rewrite <- Hperm).
      destruct (table_loop_spec h scope vindex val sat' Hlt Hall')
        as (b' & Hb' & Hiff').
      rewrite Hb'. f_equal. apply eq_true_iff_eq. rewrite Hiff, Hiff'.
      split; intros (t & Ht & ?); exists t; (split; [|done]).
      * by rewrite Hperm.
      * by rewrite <- Hperm.
Qed.

Lemma TableConstraint_hasSupport_correct_witness :
  Forall (fun t => length t = length [Ex.A; Ex.B]) [[1; 2]; [2; 1]] ∧
  ∃ b, TableConstraint_hasSupport (store Ex.AB12) [Ex.A; Ex.B] [[1; 2]; [2; 1]]
         Ex.A 1 = Ok b ∧
       (Ex.A ∉ [Ex.A; Ex.B] → b = true) ∧
       (∀ vindex, [Ex.A; Ex.B] !! vindex = Some Ex.A →
          (∀ j, (j < vindex)%nat → [Ex.A; Ex.B] !! j ≠ Some Ex.A) →
          (b = true ↔ ∃ t, t ∈ [[1; 2]; [2; 1]] ∧ t !! vindex = Some 1 ∧
                           tuple_supports (store Ex.AB12) [Ex.A; Ex.B] vindex t)) ∧
       (∀ sat', [[1; 2]; [2; 1]] ≡ₚ sat' →
          TableConstraint_hasSupport (store Ex.AB12) [Ex.A; Ex.B] sat' Ex.A 1 = Ok b).
Proof.
  assert (H : Forall (fun t => length t = length [Ex.A; Ex.B]) [[1; 2]; [2; 1]]).
  { repeat constructor. }
  split; [exact H|].
  exact (TableConstraint_hasSupport_correct (store Ex.AB12) [Ex.A; Ex.B]
           [[1; 2]; [2; 1]] Ex.A 1 H).
Defined.

(** ** Variable.setValue and Variable.pruneValue *)

Lemma remove_first_Permutation (x : Value) (l : list Value) :
  x ∈ l → l ≡ₚ x :: remove_first x l.
Proof.
  induction l as [|y l IH]; intros Hin; simpl.
  - by apply elem_of_nil in Hin.
  - destruct (decide (y = x)) as [->|Hne]; [done|].
    apply elem_of_cons in Hin as [->|Hin]; [done|].
    rewrite (IH Hin) at 1. apply Permutation_swap.
Qed.

Lemma remove_first_absent (x : Value) (l : list Value) :
  x ∉ l → remove_first x l = l.
Proof.
  induction l as [|y l IH]; intros Hin; simpl; [done|].
  apply not_elem_of_cons in Hin as [Hne Hin].
  destruct (decide (y = x)); [congruence|]. by rewrite IH.
Qed.

(** The undo dictionary after [pruneValue] logged [(self, value)] under
    [dkey]. *)
Lemma pruneValue_unfold σ self value rv rx :
  pruneValue self value rv rx σ =
  Ok (tt, mkState
            (if bool_decide (value ∈ _curdom (store σ self))
             then upd (store σ) self
                    (mkVar (_name (store σ self)) (_dom (store σ self))
                       (remove_first value (_curdom (store σ self)))
                       (_value (store σ self)))
             else store σ)
            (<[(rv, rx) := default [] (undoDict σ !! (rv, rx)) ++ [(self, value)]]>
               (undoDict σ))
            (if bool_decide (value ∈ _curdom (store σ self))
             then events σ else events σ ++ [PrintPruneError self value])).
Proof.
  unfold pruneValue, bind, print, set_var.
  destruct (bool_decide (value ∈ _curdom (store σ self))); simpl;
    destruct (undoDict σ !! (rv, rx)) as [l|] eqn:E; simpl;
    rewrite ?E, ?lookup_insert_eq, ?insert_insert_eq; simpl; done.
Qed.

(** C9 as stated fails: assigning 5 to a variable with domain [1; 2] does not
    fail, the call returns. *)
Lemma setValue_bad_value_returns :
  (5 ∉ _dom (store Ex.A12 Ex.A)) ∧ ¬ raises (setValue Ex.A (Some 5)) Ex.A12.
Proof.
  split.
  - vm_compute. intros H. repeat (apply elem_of_cons in H as [H|H]; [done|]).
    by apply elem_of_nil in H.
  - intros [e He]. vm_compute in He. done.
Qed.

(** C9, amended.  [setValue] never raises.  Given a value that is neither
    [None] nor in the original domain it prints an error message and leaves
    the assigned value (and everything else) as it was; otherwise it sets the
    assigned value and changes nothing else. *)
Theorem setValue_spec (σ : State) (self : vref) (value : option Value) :
  ∃ σ', setValue self value σ = Ok (tt, σ') ∧
        undoDict σ' = undoDict σ ∧
        (∀ w, w ≠ self → store σ' w = store σ w) ∧
        _name (store σ' self) = _name (store σ self) ∧
        _dom (store σ' self) = _dom (store σ self) ∧
        _curdom (store σ' self) = _curdom (store σ self) ∧
        match value with
        | Some x =>
            if bool_decide (x ∈ _dom (store σ self))
            then getValue (store σ' self) = Some x ∧ events σ' = events σ
            else getValue (store σ' self) = getValue (store σ self) ∧
                 events σ' = events σ ++ [PrintAssignError self x]
        | None => getValue (store σ' self) = None ∧ events σ' = events σ
        end.
Proof.
  unfold setValue. destruct value as [x|].
  - destruct (decide (x ∈ _dom (store σ self))) as [Hx|Hx].
    + rewrite (bool_decide_eq_true_2 _ Hx).
      rewrite bool_decide_eq_false_2 by (intros H; by apply H).
      eexists. split; [done|]. simpl. unfold upd.
      repeat split; try done; try (by rewrite decide_True by done).
      intros w Hw. by rewrite decide_False by done.
    + rewrite (bool_decide_eq_false_2 _ Hx).
      rewrite bool_decide_eq_true_2 by done.
      eexists. split; [done|]. simpl. repeat split; done.
  - eexists. split; [done|]. simpl. unfold upd.
    repeat split; try done; try (by rewrite decide_True by done).
    intros w Hw. by rewrite decide_False by done.
Qed.

(** C8 as stated fails: pruning 7 from a current domain [1; 2] does not fail,
    the call returns. *)
Lemma pruneValue_absent_value_returns :
  (7 ∉ _curdom (store Ex.A12 Ex.A)) ∧ ¬ raises (pruneValue Ex.A 7 Ex.A 1) Ex.A12.
Proof.
  split.
  - vm_compute. intros H. repeat (apply elem_of_cons in H as [H|H]; [done|]).
    by apply elem_of_nil in H.
  - intros [e He]. rewrite pruneValue_unfold in He. done.
Qed.

(** C8, amended.  [pruneValue] never raises.  When the value is in the
    current domain, one occurrence of it (the first) is removed and
    [(self, value)] is appended to the undo log under the key
    [(reasonVar, reasonVal)], nothing else changes.  When it is not, the error
    is caught: a message is printed and the current domain stays as it
    was. *)
Theorem pruneValue_spec (σ : State) (self : vref) (value : Value)
    (reasonVar : vref) (reasonVal : Value) :
  ∃ σ', pruneValue self value reasonVar reasonVal σ = Ok (tt, σ') ∧
        (∀ w, w ≠ self → store σ' w = store σ w) ∧
        _name (store σ' self) = _name (store σ self) ∧
        _dom (store σ' self) = _dom (store σ self) ∧
        _value (store σ' self) = _value (store σ self) ∧
        if bool_decide (value ∈ _curdom (store σ self))
        then _curdom (store σ' self) = remove_first value (_curdom (store σ self)) ∧
             _curdom (store σ self) ≡ₚ value :: _curdom (store σ' self) ∧
             undoDict σ' !! (reasonVar, reasonVal) =
               Some (default [] (undoDict σ !! (reasonVar, reasonVal))
                       ++ [(self, value)]) ∧
             (∀ k, k ≠ (reasonVar, reasonVal) → undoDict σ' !! k = undoDict σ !! k) ∧
             events σ' = events σ
        else _curdom (store σ' self) = _curdom (store σ self) ∧
             events σ' = events σ ++ [PrintPruneError self value].
Proof.
  rewrite pruneValue_unfold. eexists. split; [done|]. simpl.
  case_bool_decide as Hin; unfold upd.
  - rewrite !decide_True by done. simpl.
    split; [intros w Hw; by rewrite decide_False by done|].
    repeat split; try done.
    + by apply remove_first_Permutation.
    + by rewrite lookup_insert_eq.
    + intros k Hk. by rewrite lookup_insert_ne.
  - repeat split; done.
Qed.

(** ** findvals and NValuesConstraint.hasSupport *)

Lemma pop_last_nil {A} : pop_last (@nil A) = None.
Proof. done. Qed.

Lemma pop_last_snoc {A} (l : list A) (x : A) : pop_last (l ++ [x]) = Some (l, x).
Proof. unfold pop_last. by rewrite reverse_snoc, reverse_involutive. Qed.

Lemma insert_desc_Permutation key x l : insert_desc key x l ≡ₚ x :: l.
Proof.
  induction l as [|y l IH]; simpl; [done|].
  case_bool_decide; [|done]. rewrite IH. apply Permutation_swap.
Qed.

Lemma sort_desc_Permutation key l : sort_desc key l ≡ₚ l.
Proof.
  unfold sort_desc.
  assert (H : ∀ acc, fold_left (fun acc x => insert_desc key x acc) l acc ≡ₚ acc ++ l).
  { induction l as [|x l IH]; intros acc; simpl.
    - by rewrite app_nil_r.
    - rewrite IH, insert_desc_Permutation.
      rewrite (Permutation_middle acc l x). done. }
  by rewrite H.
Qed.

(** The loop over the values of one variable, given what the recursive call
    does on the remaining variables. *)
Lemma findvals_for_spec rec partialTestfn var remaining (P : Assignment → Prop) :
  (∀ a1, ∃ b r a', rec remaining a1 = Ok (b, r, a') ∧
                   (b = false → r = remaining ∧ a' = a1) ∧ (b = true ↔ P a1)) →
  ∀ vals a,
  ∃ b r a', findvals_for rec partialTestfn var vals remaining a = Ok (b, r, a') ∧
            (b = false → r = remaining ++ [var] ∧ a' = a) ∧
            (b = true ↔ ∃ y, y ∈ vals ∧ partialTestfn (a ++ [(var, y)]) = true ∧
                             P (a ++ [(var, y)])).
Proof.
  intros Hrec vals. induction vals as [|y vals IH]; intros a; simpl.
  - exists false, (remaining ++ [var]), a. split; [done|]. split; [done|].
    split; [done|]. intros (y & Hy & _). by apply elem_of_nil in Hy.
  - destruct (IH a) as (b & r & a' & Hfor & Hrestore & Hiff).
    assert (Hlater : (∃ y0, y0 ∈ vals ∧ partialTestfn (a ++ [(var, y0)]) = true ∧
                         P (a ++ [(var, y0)])) →
                     ∃ y0, y0 ∈ y :: vals ∧ partialTestfn (a ++ [(var, y0)]) = true ∧
                         P (a ++ [(var, y0)])).
    { intros (y0 & ? & ?). exists y0. split; [by right | done]. }
    destruct (partialTestfn (a ++ [(var, y)])) eqn:Hpart.
    + destruct (Hrec (a ++ [(var, y)])) as (b1 & r1 & a1 & Hr & Hrest1 & Hiff1).
      rewrite Hr. destruct b1.
      * exists true, r1, a1. split; [done|]. split; [done|]. split; [|done].
        intros _. exists y. split; [left|]. split; [done|]. by apply Hiff1.
      * destruct (Hrest1 eq_refl) as [-> ->]. rewrite removelast_last.
        exists b, r, a'. split; [done|]. split; [done|]. rewrite Hiff.
        split; [done|]. intros (y0 & Hy0 & Hp0 & HP0).
        apply elem_of_cons in Hy0 as [->|Hy0]; [|by exists y0].
        apply Hiff1 in HP0. done.
    + rewrite removelast_last. exists b, r, a'. split; [done|]. split; [done|].
      rewrite Hiff. split; [done|]. intros (y0 & Hy0 & Hp0 & HP0).
      apply elem_of_cons in Hy0 as [->|Hy0]; [congruence | by exists y0].
Qed.

(** [findvals_] returns as soon as the fuel exceeds the number of remaining
    variables; it answers [True] exactly when the search succeeds, and on
    [False] both shared lists are back to what they were. *)
Lemma findvals__spec h finalTestfn partialTestfn fuel :
  ∀ remaining a, (length remaining < fuel)%nat →
  ∃ b r a', findvals_ fuel h remaining a finalTestfn partialTestfn = Ok (b, r, a') ∧
            (b = false → r = remaining ∧ a' = a) ∧
            (b = true ↔ search_ok h finalTestfn partialTestfn (reverse remaining) a).
Proof.
  induction fuel as [|fuel IH]; intros remaining a Hlen; [lia|]. simpl.
  destruct remaining as [|v remaining _] using rev_ind.
  - rewrite pop_last_nil. exists (finalTestfn a), [], a. simpl.
    split; [done|]. split; [done|]. done.
  - rewrite pop_last_snoc, reverse_snoc. simpl.
    rewrite length_app in Hlen. simpl in Hlen.
    apply (findvals_for_spec _ partialTestfn v remaining
             (search_ok h finalTestfn partialTestfn (reverse remaining))).
    intros a1. apply IH. lia.
Qed.

Lemma rv_count_app required l1 l2 :
  rv_count required (l1 ++ l2) = rv_count required l1 + rv_count required l2.
Proof. induction l1 as [|x l1 IH]; simpl; [done|]. rewrite IH. lia. Qed.

Lemma rv_count_bounds required l :
  0 ≤ rv_count required l ≤ Z.of_nat (length l).
Proof. induction l as [|x l IH]; simpl; [lia|]. case_bool_decide; lia. Qed.

Lemma rv_count_Permutation required l1 l2 :
  l1 ≡ₚ l2 → rv_count required l1 = rv_count required l2.
Proof. induction 1; simpl; lia. Qed.

(** The pruning test is sound: an assignment that fails it has no extension
    that passes it. *)
Lemma valsOK_prefix n required lb ub l e :
  valsOK n required lb ub (l ++ e) = true → valsOK n required lb ub l = true.
Proof.
  unfold valsOK. rewrite map_app, rv_count_app, length_app.
  rewrite !andb_true_iff, !bool_decide_eq_true.
  pose proof (rv_count_bounds required (map snd e)).
  pose proof (rv_count_bounds required (map snd l)). lia.
Qed.

Lemma search_ok_picks h finalTestfn partialTestfn vs :
  (∀ l e, finalTestfn (l ++ e) = true → partialTestfn l = true) →
  ∀ a, search_ok h finalTestfn partialTestfn vs a ↔
       ∃ vals, picks h vs vals ∧ finalTestfn (a ++ zip vs vals) = true.
Proof.
  intros Hmono. induction vs as [|v vs IH]; intros a; simpl.
  - split.
    + intros H. exists []. split; [constructor|]. by rewrite app_nil_r.
    + intros (vals & _ & H). by rewrite app_nil_r in H.
  - split.
    + intros (y & Hy & _ & Hs). apply IH in Hs as (vals & Hvals & Hfin).
      exists (y :: vals). split; [by constructor|].
      simpl. by rewrite <- app_assoc in Hfin.
    + intros (vals & Hvals & Hfin). inversion Hvals as [|? y ? vals' Hy Hvals']; subst.
      simpl in Hfin. exists y. split; [done|].
      rewrite (app_assoc a [(v, y)]) in Hfin || rewrite cons_middle, app_assoc in Hfin.
      split; [by eapply Hmono|]. apply IH. by exists vals'.
Qed.

Lemma picks_Permutation h vs vs' vals :
  vs ≡ₚ vs' → picks h vs vals → ∃ vals', vals ≡ₚ vals' ∧ picks h vs' vals'.
Proof.
  intros Hperm. revert vals. induction Hperm as [|v vs vs' _ IH|v w vs|vs1 vs2 vs3 _ IH1 _ IH2];
    intros vals Hp.
  - inversion Hp; subst. by exists [].
  - inversion Hp as [|? y ? vals0 Hy Hp0]; subst.
    destruct (IH _ Hp0) as (vals' & Hperm' & Hp').
    exists (y :: vals'). split; [by constructor | by constructor].
  - inversion Hp as [|? y ? vals0 Hy Hp0]; subst.
    inversion Hp0 as [|? z ? vals1 Hz Hp1]; subst.
    exists (z :: y :: vals1). split; [apply Permutation_swap|].
    by repeat constructor.
  - destruct (IH1 _ Hp) as (vals2 & Hperm2 & Hp2).
    destruct (IH2 _ Hp2) as (vals3 & Hperm3 & Hp3).
    exists vals3. split; [by etrans | done].
Qed.

Lemma remove_var_length (x : vref) (l : list vref) :
  x ∈ l → S (length (remove_var x l)) = length l.
Proof.
  induction l as [|y l IH]; intros Hin; simpl.
  - by apply elem_of_nil in Hin.
  - destruct (decide (y = x)); [done|]. simpl.
    apply elem_of_cons in Hin as [->|Hin]; [done|]. by rewrite IH.
Qed.

Lemma valsOK_full h scope required lb ub var val vs :
  var ∈ scope → vs ≡ₚ remove_var var scope →
  (∃ vals, picks h vs vals ∧
           valsOK (length scope) required lb ub ([(var, val)] ++ zip vs vals) = true)
  ↔ NValues_extends h scope required lb ub var val.
Proof.
  intros Hin Hperm. unfold NValues_extends.
  assert (Hok : ∀ ws vals, ws ≡ₚ remove_var var scope → picks h ws vals →
            (valsOK (length scope) required lb ub ([(var, val)] ++ zip ws vals) = true
             ↔ lb ≤ rv_count required (val :: vals) ≤ ub)).
  { intros ws vals Hws Hp. unfold valsOK.
    pose proof (Forall2_length _ _ _ Hp) as Hlen.
    pose proof (Permutation_length Hws) as Hlen'.
    pose proof (remove_var_length var scope Hin) as Hscope.
    rewrite map_app, snd_zip by lia. simpl map. simpl length.
    rewrite andb_true_iff, !bool_decide_eq_true. simpl. lia. }
  split.
  - intros (vals & Hp & Hv). apply (Hok _ _ Hperm Hp) in Hv.
    destruct (picks_Permutation h _ _ _ Hperm Hp) as (vals' & Hvp & Hp').
    exists vals'. split; [done|].
    simpl in *. by rewrite <- (rv_count_Permutation required _ _ Hvp).
  - intros (vals & Hp & Hv). symmetry in Hperm.
    destruct (picks_Permutation h _ _ _ Hperm Hp) as (vals' & Hvp & Hp').
    exists vals'. split; [done|]. symmetry in Hperm.
    apply (Hok _ _ Hperm Hp').
    simpl in *. by rewrite <- (rv_count_Permutation required _ _ Hvp).
Qed.

Lemma findvals__NValues h scope required lb ub var val partialTestfn vs fuel :
  (∀ l e, valsOK (length scope) required lb ub (l ++ e) = true →
          partialTestfn l = true) →
  var ∈ scope → vs ≡ₚ remove_var var scope → (length vs < fuel)%nat →
  ∃ b r a, findvals_ fuel h vs [(var, val)]
             (valsOK (length scope) required lb ub) partialTestfn = Ok (b, r, a) ∧
           (b = true ↔ NValues_extends h scope required lb ub var val).
Proof.
  intros Hmono Hin Hperm Hfuel.
  destruct (findvals__spec h (valsOK (length scope) required lb ub) partialTestfn
              fuel vs [(var, val)] Hfuel) as (b & r & a & Hrun & _ & Hiff).
  exists b, r, a. split; [done|]. rewrite Hiff.
  rewrite (search_ok_picks h _ _ _ Hmono).
  apply valsOK_full; [done|]. by rewrite reverse_Permutation.
Qed.

(** The current values of the specification are what [curDomain()] lists. *)
Lemma current_values_curDomain (V : Var) : current_values V = curDomain V.
Proof. unfold current_values, curDomain, getValue. by destruct (_value V). Qed.

(** The counting loop of [valsOK] counts the values lying in [required]. *)
Lemma rv_count_hits (required vals : list Value) :
  rv_count required vals = required_hits required vals.
Proof.
  unfold required_hits. induction vals as [|v vals IH]; simpl; [done|].
  rewrite IH. case_bool_decide.
  - rewrite filter_cons_True by done. simpl. lia.
  - rewrite filter_cons_False by done. lia.
Qed.

Lemma required_hits_Permutation (required vals vals' : list Value) :
  vals ≡ₚ vals' → required_hits required vals = required_hits required vals'.
Proof. unfold required_hits. by intros ->. Qed.

Lemma remove_var_delete (x : vref) (l : list vref) : ∀ i,
  l !! i = Some x → (∀ j, (j < i)%nat → l !! j ≠ Some x) →
  remove_var x l = delete i l.
Proof.
  induction l as [|y l IH]; intros i Hi Hfirst; [done|]. simpl.
  destruct i as [|i]; simpl in *.
  - injection Hi as ->. by rewrite decide_True.
  - rewrite decide_False.
    + f_equal. apply IH; [done|]. intros j Hj. apply (Hfirst (S j)). lia.
    + intros ->. by apply (Hfirst 0%nat); [lia|].
Qed.

Lemma picks_delete (h : vref → Var) (scope : list vref) (vals : list Value) (i : nat) :
  length vals = length scope → (i < length scope)%nat →
  picks h (delete i scope) (delete i vals) ↔
  ∀ j w y, j ≠ i → scope !! j = Some w → vals !! j = Some y →
           y ∈ current_values (h w).
Proof.
  intros Hlen Hi. unfold picks. rewrite Forall2_same_length_lookup. split.
  - intros [_ H] j w y Hne Hw Hy. rewrite current_values_curDomain.
    destruct (decide (j < i)%nat) as [Hlt|Hge].
    + apply (H j); by rewrite list_lookup_delete_lt.
    + destruct j as [|j]; [lia|].
      apply (H j); rewrite list_lookup_delete_ge by lia; done.
  - intros H. split.
    + rewrite !length_delete; [lia| |].
      * apply lookup_lt_is_Some. lia.
      * by apply lookup_lt_is_Some.
    + intros j w y Hw Hy. rewrite <- current_values_curDomain.
      destruct (decide (j < i)%nat) as [Hlt|Hge].
      * rewrite list_lookup_delete_lt in Hw by done.
        rewrite list_lookup_delete_lt in Hy by done. apply (H j); [lia|done..].
      * rewrite list_lookup_delete_ge in Hw by lia.
        rewrite list_lookup_delete_ge in Hy by lia. apply (H (S j)); [lia|done..].
Qed.

Lemma NValues_extends_feasible (h : vref → Var) (scope : list vref)
    (required : list Value) (lb ub : Z) (var : vref) (val : Value) :
  var ∈ scope →
  NValues_extends h scope required lb ub var val ↔
  NValues_feasible h scope required lb ub var val.
Proof.
  intros Hin. unfold NValues_extends, NValues_feasible. split.
  - intros (vals' & Hpicks & Hcount).
    destruct (index var scope) as [i|] eqn:Hidx; [|by apply index_None in Hidx].
    apply index_Some in Hidx as [Hi Hfirst].
    rewrite (remove_var_delete _ _ i Hi Hfirst) in Hpicks.
    assert (Hlt : (i < length scope)%nat) by (by eapply lookup_lt_Some).
    assert (Hlen' : length vals' = (length scope - 1)%nat).
    { rewrite <- (Forall2_length _ _ _ Hpicks), length_delete; [done|by eexists]. }
    set (vals := take i vals' ++ val :: drop i vals').
    assert (Hti : length (take i vals') = i) by (rewrite length_take; lia).
    assert (Hdel : delete i vals = vals').
    { unfold vals. rewrite <- Hti at 1. rewrite delete_middle. apply take_drop. }
    assert (Hvi : vals !! i = Some val).
    { unfold vals. rewrite <- Hti at 1. by rewrite list_lookup_middle. }
    assert (Hlen : length vals = length scope).
    { unfold vals. rewrite length_app, Hti. simpl. rewrite length_drop. lia. }
    exists i, vals. split; [done|]. split; [done|]. split; [done|]. split; [done|].
    split.
    + apply picks_delete; [done | done |]. by rewrite Hdel.
    + rewrite rv_count_hits in Hcount.
      rewrite (required_hits_Permutation _ vals (val :: vals')); [done|].
      rewrite <- Hdel. by apply delete_Permutation.
  - intros (i & vals & Hi & Hfirst & Hlen & Hvi & Hothers & Hcount).
    assert (Hlt : (i < length scope)%nat) by (by eapply lookup_lt_Some).
    exists (delete i vals). split.
    + rewrite (remove_var_delete _ _ i Hi Hfirst). by apply picks_delete.
    + rewrite rv_count_hits.
      rewrite <- (required_hits_Permutation _ vals (val :: delete i vals)); [done|].
      by apply delete_Permutation.
Qed.

(** C6.  [NValuesConstraint.hasSupport(var, val)] always returns; it returns
    [True] when [var] is not in the scope, and otherwise exactly when the
    remaining scope positions can take current values of their variables
    that, together with [val], bring the number of values lying in
    [required] into [[lb, ub]] ([NValues_feasible]).  The partial test
    [valsOK] is the test "r <= ub and r + (n - k) >= lb" on the number [r] of
    required values among the [k] assigned; running the search without it,
    or over the remaining variables in any other order, gives the same
    answer. *)
Theorem NValuesConstraint_hasSupport_correct
    (h : vref → Var) (scope : list vref) (required : list Value) (lb ub : Z)
    (var : vref) (val : Value) :
  ∃ b, NValuesConstraint_hasSupport h scope required lb ub var val = Ok b ∧
       (var ∉ scope → b = true) ∧
       (var ∈ scope →
          (b = true ↔ NValues_feasible h scope required lb ub var val) ∧
          findvals h (remove_var var scope) [(var, val)]
            (valsOK (length scope) required lb ub) (fun _ => true) = Ok b ∧
          (∀ vs, remove_var var scope ≡ₚ vs →
             ∃ r a, findvals_ (S (length vs)) h vs [(var, val)]
                      (valsOK (length scope) required lb ub)
                      (valsOK (length scope) required lb ub) = Ok (b, r, a))) ∧
       (∀ l, valsOK (length scope) required lb ub l = false ↔
             required_hits required (map snd l) > ub ∨
             required_hits required (map snd l)
               + (Z.of_nat (length scope) - Z.of_nat (length l)) < lb).
Proof.
  assert (Htest : ∀ l, valsOK (length scope) required lb ub l = false ↔
             required_hits required (map snd l) > ub ∨
             required_hits required (map snd l)
               + (Z.of_nat (length scope) - Z.of_nat (length l)) < lb).
  { intros l. unfold valsOK. rewrite andb_false_iff, !bool_decide_eq_false.
    rewrite length_map, rv_count_hits. lia. }
  unfold NValuesConstraint_hasSupport. case_bool_decide as Hin.
  - exists true. split; [done|]. split; [done|]. split; [done | exact Htest].
  - assert (Hin' : var ∈ scope) by (destruct (decide (var ∈ scope)); done).
    unfold findvals. cbv zeta.
    set (ok := valsOK (length scope) required lb ub) in *.
    set (sorted := sort_desc (fun v => curDomainSize (h v)) (remove_var var scope)).
    assert (Hsorted : sorted ≡ₚ remove_var var scope) by apply sort_desc_Permutation.
    destruct (findvals__NValues h scope required lb ub var val ok sorted
                (S (length sorted))) as (b & r & a & Hrun & Hiff);
      [apply valsOK_prefix | done | done | lia |].
    fold ok in Hrun. rewrite Hrun. exists b. split; [done|].
    split; [done|]. split; [|exact Htest]. intros _. split; [|split].
    + by rewrite Hiff, NValues_extends_feasible.
    + destruct (findvals__NValues h scope required lb ub var val
                  (fun _ : Assignment => true) sorted (S (length sorted))) as (b' & r' & a' & Hrun' & Hiff');
        [done | done | done | lia |].
      fold ok in Hrun'. rewrite Hrun'. f_equal. apply eq_true_iff_eq.
      by rewrite Hiff, Hiff'.
    + intros vs Hperm. symmetry in Hperm.
      destruct (findvals__NValues h scope required lb ub var val ok vs
                  (S (length vs))) as (b' & r' & a' & Hrun' & Hiff');
        [apply valsOK_prefix | done | done | lia |].
      fold ok in Hrun'. exists r', a'. rewrite Hrun'. do 3 f_equal.
      apply eq_true_iff_eq. by rewrite Hiff, Hiff'.
Qed.

(** Two variables with domain {1, 2} and the constraint "exactly two of A, B
    take the value 1": [A = 1] has support, completed by [B = 1], and
    [A = 2] has none. *)
Lemma NValuesConstraint_hasSupport_correct_witness :
  NValuesConstraint_hasSupport (store Ex.AB12) [Ex.A; Ex.B] [1] 2 2 Ex.A 1 = Ok true ∧
  NValues_feasible (store Ex.AB12) [Ex.A; Ex.B] [1] 2 2 Ex.A 1 ∧
  NValuesConstraint_hasSupport (store Ex.AB12) [Ex.A; Ex.B] [1] 2 2 Ex.A 2 = Ok false ∧
  ¬ NValues_feasible (store Ex.AB12) [Ex.A; Ex.B] [1] 2 2 Ex.A 2.
Proof.
  assert (HA : Ex.A ∈ [Ex.A; Ex.B]) by left.
  split; [vm_compute; reflexivity|]. split.
  - destruct (NValuesConstraint_hasSupport_correct (store Ex.AB12) [Ex.A; Ex.B]
                [1] 2 2 Ex.A 1) as (b & Hrun & _ & Hiff & _).
    vm_compute in Hrun. injection Hrun as <-. by apply (Hiff HA).
  - split; [vm_compute; reflexivity|].
    destruct (NValuesConstraint_hasSupport_correct (store Ex.AB12) [Ex.A; Ex.B]
                [1] 2 2 Ex.A 2) as (b & Hrun & _ & Hiff & _).
    vm_compute in Hrun. injection Hrun as <-.
    intros Hf. by apply (Hiff HA) in Hf.
Defined.

(** ** GacEnforce against the specification of propagation *)

Lemma filter_first_occurrences (P : cref → Prop) `{!∀ x, Decision (P x)} l :
  filter P (first_occurrences l) = first_occurrences (filter P l).
Proof.
  induction l as [|x l IH]; simpl; [done|].
  rewrite !filter_cons. destruct (decide (P x)) as [HP|HP]; simpl.
  - rewrite <- IH, !list_filter_filter. f_equal.
    apply list_filter_iff. intros y. tauto.
  - rewrite <- IH, list_filter_filter. apply list_filter_iff.
    intros y. split; [tauto|]. intros Hy. split; [done|]. intros ->. done.
Qed.

Lemma first_occurrences_elem (x : cref) l : x ∈ first_occurrences l ↔ x ∈ l.
Proof.
  induction l as [|y l IH]; simpl; [done|].
  rewrite !elem_of_cons, list_elem_of_filter, IH.
  destruct (decide (x = y)); tauto.
Qed.

Lemma first_occurrences_NoDup l : NoDup (first_occurrences l).
Proof.
  induction l as [|y l IH]; simpl; [constructor|].
  constructor.
  - rewrite list_elem_of_filter. tauto.
  - by apply NoDup_filter.
Qed.

Lemma enqueue_spec c refs : ∀ wl, enqueue c refs wl = wl ++ to_enqueue c wl refs.
Proof.
  unfold to_enqueue. induction refs as [|r refs IH]; intros wl; simpl.
  - by rewrite app_nil_r.
  - rewrite filter_cons.
    destruct (decide (r ≠ c ∧ r ∉ wl)) as [[H1 H2]|Hno].
    + rewrite !bool_decide_eq_true_2 by done. simpl.
      rewrite IH, <- app_assoc. simpl. do 2 f_equal.
      rewrite filter_first_occurrences, list_filter_filter. f_equal.
      apply list_filter_iff. intros y. rewrite not_elem_of_app, list_elem_of_singleton.
      tauto.
    + rewrite IH.
      destruct (bool_decide (r ≠ c)) eqn:E1; destruct (bool_decide (r ∉ wl)) eqn:E2;
        simpl; try done.
      apply bool_decide_eq_true in E1, E2. tauto.
Qed.

Lemma constraintsOf_referencing csp v σ :
  constraintsOf csp v σ =
  match referencing csp v with
  | Some refs => Ok (Some refs, σ)
  | None => Ok (None, mkState (store σ) (undoDict σ) (events σ ++ [PrintNotInCSP v]))
  end.
Proof.
  unfold constraintsOf, referencing.
  destruct (index v (variables csp)) as [i|]; [|done].
  destruct (constraints_of csp !! i); done.
Qed.

(** Wipeout is what the loop tests with [curDomainSize() == 0]. *)
Lemma wiped_out_curDomainSize (V : Var) :
  wiped_out V ↔ curDomainSize V = 0%nat.
Proof.
  unfold wiped_out, curDomainSize, getValue. destruct (_value V) as [y|].
  - split; [by intros [? _] | done].
  - rewrite length_zero_iff_nil. split; [by intros [_ ?] | done].
Qed.

Section Refinement.

Variable Γ : cref → Constraint.
Variable csp : CSP.
Variable assignedvar : vref.
Variable assignedval : Value.

(** One iteration of the loop over the values, case by case. *)
Lemma GacEnforce_vals_cons c v x xs wl σ :
  GacEnforce_vals Γ csp c v (x :: xs) wl assignedvar assignedval σ =
  match hasSupport (store σ) (Γ c) v x with
  | Ok true => GacEnforce_vals Γ csp c v xs wl assignedvar assignedval σ
  | Ok false =>
      match pruneValue v x assignedvar assignedval σ with
      | Ok (_, σ1) =>
          if bool_decide (curDomainSize (store σ1 v) = 0%nat) then Ok (Return OWO, σ1)
          else match referencing csp v with
               | Some refs =>
                   GacEnforce_vals Γ csp c v xs (wl ++ to_enqueue c wl refs)
                     assignedvar assignedval σ1
               | None => Raise TypeError
               end
      | Raise e => Raise e
      | OutOfFuel => OutOfFuel
      end
  | Raise e => Raise e
  | OutOfFuel => OutOfFuel
  end.
Proof.
  simpl. unfold bind at 1. unfold lift.
  destruct (hasSupport (store σ) (Γ c) v x) as [[|]| |]; simpl; try done.
  unfold bind at 1. rewrite pruneValue_unfold. cbv beta iota.
  unfold bind at 1. unfold get_var at 1. cbv beta iota.
  case_bool_decide; [done|].
  unfold bind. rewrite constraintsOf_referencing.
  destruct (referencing csp v); [|done]. by rewrite enqueue_spec.
Qed.

Lemma GacEnforce_vals_sound c v xs : ∀ wl σ f σ',
  GacEnforce_vals Γ csp c v xs wl assignedvar assignedval σ = Ok (f, σ') →
  visit_values Γ csp assignedvar assignedval c v xs σ wl σ' f.
Proof.
  induction xs as [|x xs IH]; intros wl σ f σ' Hrun.
  - injection Hrun as <- <-. constructor.
  - rewrite GacEnforce_vals_cons in Hrun.
    destruct (hasSupport (store σ) (Γ c) v x) as [[|]| |] eqn:Hsup; try done.
    + eapply values_next; [by apply value_supported | by apply IH].
    + destruct (pruneValue v x assignedvar assignedval σ) as [[[] σ1]| |] eqn:Hp;
        try done.
      case_bool_decide as Hsize.
      * injection Hrun as <- <-. apply values_stop.
        eapply value_wipeout; [done | done |]. by apply wiped_out_curDomainSize.
      * destruct (referencing csp v) as [refs|] eqn:Href; [|done].
        eapply values_next; [|by apply IH].
        eapply value_pruned; [done | done | | done].
        by rewrite wiped_out_curDomainSize.
Qed.

Lemma GacEnforce_vals_complete c v xs σ wl σ' f :
  visit_values Γ csp assignedvar assignedval c v xs σ wl σ' f →
  GacEnforce_vals Γ csp c v xs wl assignedvar assignedval σ = Ok (f, σ').
Proof.
  induction 1 as [σ wl|x xs σ wl σ' r Hv|x xs σ wl σ1 wl1 σ' f Hv _ IH].
  - done.
  - rewrite GacEnforce_vals_cons. inversion Hv as [|? ? ? Hs Hp Hz|]; subst.
    apply wiped_out_curDomainSize in Hz.
    rewrite Hs, Hp. by rewrite bool_decide_eq_true_2.
  - rewrite GacEnforce_vals_cons.
    inversion Hv as [? ? Hs|? ? ? Hs Hp Hz|? ? ? refs Hs Hp Hz Hr]; subst.
    + by rewrite Hs.
    + rewrite wiped_out_curDomainSize in Hz.
      rewrite Hs, Hp. rewrite bool_decide_eq_false_2 by done. by rewrite Hr.
Qed.

Lemma GacEnforce_scope_sound c vs : ∀ wl σ f σ',
  GacEnforce_scope Γ csp c vs wl assignedvar assignedval σ = Ok (f, σ') →
  visit_scope Γ csp assignedvar assignedval c vs σ wl σ' f.
Proof.
  induction vs as [|v vs IH]; intros wl σ f σ' Hrun; simpl in Hrun.
  - injection Hrun as <- <-. constructor.
  - unfold bind, get_var in Hrun.
    destruct (GacEnforce_vals Γ csp c v (curDomain (store σ v)) wl
                assignedvar assignedval σ) as [[[r|wl1] σ1]| |] eqn:Hvals; try done.
    + injection Hrun as <- <-. apply scope_stop.
      rewrite current_values_curDomain. by apply GacEnforce_vals_sound.
    + eapply scope_next; [|by apply IH].
      rewrite current_values_curDomain. by apply GacEnforce_vals_sound.
Qed.

Lemma GacEnforce_scope_complete c vs σ wl σ' f :
  visit_scope Γ csp assignedvar assignedval c vs σ wl σ' f →
  GacEnforce_scope Γ csp c vs wl assignedvar assignedval σ = Ok (f, σ').
Proof.
  induction 1 as [σ wl|v vs σ wl σ' r Hv|v vs σ wl σ1 wl1 σ' f Hv _ IH]; simpl.
  - done.
  - rewrite current_values_curDomain in Hv.
    unfold bind, get_var. by rewrite (GacEnforce_vals_complete _ _ _ _ _ _ _ Hv).
  - rewrite current_values_curDomain in Hv.
    unfold bind, get_var. by rewrite (GacEnforce_vals_complete _ _ _ _ _ _ _ Hv).
Qed.

Lemma GacEnforce_sound fuel : ∀ wl σ r σ',
  GacEnforce Γ fuel csp wl assignedvar assignedval σ = Ok (r, σ') →
  enforce Γ csp assignedvar assignedval wl σ σ' r.
Proof.
  induction fuel as [|fuel IH]; intros wl σ r σ' Hrun; simpl in Hrun; [done|].
  destruct wl as [|c wl].
  - injection Hrun as <- <-. constructor.
  - unfold bind in Hrun.
    destruct (GacEnforce_scope Γ csp c (scope (Γ c)) wl assignedvar assignedval σ)
      as [[[r1|wl1] σ1]| |] eqn:Hscope; try done.
    + injection Hrun as <- <-. apply enforce_stop. by apply GacEnforce_scope_sound.
    + eapply enforce_next; [by apply GacEnforce_scope_sound | by apply IH].
Qed.

Lemma GacEnforce_complete wl σ σ' r :
  enforce Γ csp assignedvar assignedval wl σ σ' r →
  ∃ fuel, GacEnforce Γ fuel csp wl assignedvar assignedval σ = Ok (r, σ').
Proof.
  induction 1 as [σ|c wl σ σ' r Hv|c wl σ σ1 wl1 σ' r Hv _ [fuel IH]].
  - by exists 1%nat.
  - exists 1%nat. simpl. unfold bind.
    by rewrite (GacEnforce_scope_complete _ _ _ _ _ _ Hv).
  - exists (S fuel). simpl. unfold bind.
    by rewrite (GacEnforce_scope_complete _ _ _ _ _ _ Hv).
Qed.

End Refinement.

(** ** The index built by the constructor of CSP *)

Section Index.

Variable Γ : cref → Constraint.

Lemma index_constraint_fold_fail variables c vs (acc : outcome (list (list cref))) :
  (∀ t, acc ≠ Ok t) → fold_left (index_constraint variables c) vs acc = acc.
Proof.
  revert acc. induction vs as [|v vs IH]; intros acc Hacc; simpl; [done|].
  destruct acc as [t| |]; [by destruct (Hacc t) | by apply IH | by apply IH].
Qed.

Lemma index_constraints_fold_fail variables cs (acc : outcome (list (list cref))) :
  (∀ t, acc ≠ Ok t) →
  fold_left (fun acc c => fold_left (index_constraint variables c) (scope (Γ c)) acc)
    cs acc = acc.
Proof.
  revert acc. induction cs as [|c cs IH]; intros acc Hacc; simpl; [done|].
  rewrite index_constraint_fold_fail by done. by apply IH.
Qed.

Lemma index_constraint_fold variables c vs : ∀ t t',
  length t = length variables →
  fold_left (index_constraint variables c) vs (Ok t) = Ok t' →
  length t' = length t ∧
  (∀ v, v ∈ vs → v ∈ variables) ∧
  (∀ i c', c' ∈ default [] (t' !! i) ↔
           c' ∈ default [] (t !! i) ∨
           (c' = c ∧ ∃ v, v ∈ vs ∧ index v variables = Some i)).
Proof.
  induction vs as [|v vs IH]; intros t t' Hlen0 Hrun; simpl in Hrun.
  - injection Hrun as <-. split; [done|]. split.
    + intros v Hv. by apply elem_of_nil in Hv.
    + intros i c'. split; [tauto|]. intros [H|(_ & v & Hv & _)]; [done|].
      by apply elem_of_nil in Hv.
  - destruct (index v variables) as [j|] eqn:Hj.
    + assert (Hlt : (j < length t)%nat).
      { apply index_Some in Hj as [Hj _]. apply lookup_lt_Some in Hj. lia. }
      assert (Hl1 : length (<[j:=default [] (t !! j) ++ [c]]> t) = length variables)
        by (by rewrite length_insert).
      destruct (IH _ _ Hl1 Hrun) as (Hlen & Hin & Hiff).
      rewrite length_insert in Hlen. split; [done|]. split.
      * intros w Hw. apply elem_of_cons in Hw as [->|Hw]; [|by apply Hin].
        apply index_Some in Hj as [Hj _]. by eapply list_elem_of_lookup_2.
      * intros i c'. rewrite Hiff. clear Hiff IH Hrun.
        destruct (decide (i = j)) as [->|Hij].
        -- rewrite list_lookup_insert_eq by done. simpl.
           rewrite elem_of_app, list_elem_of_singleton. split.
           ++ intros [[H|H]|(-> & w & Hw & Hwj)]; [by left | |].
              ** right. split; [done|]. exists v. split; [left | done].
              ** right. split; [done|]. exists w. split; [by right | done].
           ++ intros [H|(-> & w & Hw & Hwj)]; [by left; left|].
              apply elem_of_cons in Hw as [->|Hw]; [by left; right|].
              right. split; [done|]. by exists w.
        -- rewrite list_lookup_insert_ne by done. split.
           ++ intros [H|(-> & w & Hw & Hwj)]; [by left|].
              right. split; [done|]. exists w. split; [by right | done].
           ++ intros [H|(-> & w & Hw & Hwj)]; [by left|].
              apply elem_of_cons in Hw as [->|Hw]; [congruence|].
              right. split; [done|]. by exists w.
    + by rewrite index_constraint_fold_fail in Hrun.
Qed.

Lemma index_constraints_fold variables cs : ∀ t t',
  length t = length variables →
  fold_left (fun acc c => fold_left (index_constraint variables c) (scope (Γ c)) acc)
    cs (Ok t) = Ok t' →
  length t' = length t ∧
  (∀ c v, c ∈ cs → v ∈ scope (Γ c) → v ∈ variables) ∧
  (∀ i c', c' ∈ default [] (t' !! i) ↔
           c' ∈ default [] (t !! i) ∨
           (c' ∈ cs ∧ ∃ v, v ∈ scope (Γ c') ∧ index v variables = Some i)).
Proof.
  induction cs as [|c cs IH]; intros t t' Hlen0 Hrun; simpl in Hrun.
  - injection Hrun as <-. split; [done|]. split.
    + intros c v Hc. by apply elem_of_nil in Hc.
    + intros i c'. split; [tauto|]. intros [H|(Hc & _)]; [done|].
      by apply elem_of_nil in Hc.
  - destruct (fold_left (index_constraint variables c) (scope (Γ c)) (Ok t))
      as [t1| |] eqn:Hc.
    + destruct (index_constraint_fold _ _ _ _ _ Hlen0 Hc) as (Hlen1 & Hin1 & Hiff1).
      assert (Hl1 : length t1 = length variables) by congruence.
      destruct (IH _ _ Hl1 Hrun) as (Hlen & Hin & Hiff).
      split; [congruence|]. split.
      * intros c0 v Hc0 Hv. apply elem_of_cons in Hc0 as [->|Hc0]; [by apply Hin1|].
        by eapply Hin.
      * intros i c'. rewrite Hiff, Hiff1. split.
        -- intros [[H|(-> & H)]|(H1 & H2)]; [by left | |].
           ++ right. split; [left | done].
           ++ right. split; [by right | done].
        -- intros [H|(H1 & H2)]; [by left; left|].
           apply elem_of_cons in H1 as [->|H1]; [left; right; done|].
           right. done.
    + by rewrite index_constraints_fold_fail in Hrun.
    + by rewrite index_constraints_fold_fail in Hrun.
Qed.

(** A CSP that the constructor has built files, for each of its variables,
    exactly the constraints of the CSP that have the variable in their scope;
    and every scope variable is a variable of the CSP. *)
Lemma CSP_init_referencing name variables constraints csp :
  CSP_init Γ name variables constraints = Ok csp →
  _variables csp = variables ∧ _constraints csp = constraints ∧
  (∀ c v, c ∈ constraints → v ∈ scope (Γ c) → v ∈ variables) ∧
  (∀ v, v ∈ variables →
     ∃ refs, referencing csp v = Some refs ∧
             ∀ c, c ∈ refs ↔ c ∈ constraints ∧ v ∈ scope (Γ c)).
Proof.
  unfold CSP_init. intros Hrun.
  destruct (fold_left _ constraints _) as [t| |] eqn:Hfold; try done.
  injection Hrun as <-. simpl.
  assert (Hl0 : length (replicate (length variables) (@nil cref)) = length variables)
    by (by rewrite length_replicate).
  destruct (index_constraints_fold variables constraints _ _ Hl0 Hfold)
    as (Hlen & Hin & Hiff).
  rewrite length_replicate in Hlen.
  split; [done|]. split; [done|]. split; [done|].
  intros v Hv. unfold referencing. simpl.
  destruct (index v variables) as [i|] eqn:Hi; [|by apply index_None in Hi].
  pose proof (proj1 (index_Some _ _ _) Hi) as [Hvi Hfirst].
  destruct (lookup_lt_is_Some_2 t i) as [refs Hrefs].
  { apply lookup_lt_Some in Hvi. lia. }
  exists refs. split; [done|]. intros c.
  specialize (Hiff i c). rewrite Hrefs in Hiff. simpl in Hiff. rewrite Hiff.
  split.
  - intros [H|(Hc & w & Hw & Hwi)].
    + destruct (replicate (length variables) [] !! i) as [l|] eqn:Hl; simpl in H.
      * apply lookup_replicate in Hl as [-> _]. by apply elem_of_nil in H.
      * by apply elem_of_nil in H.
    + split; [done|]. apply index_Some in Hwi as [Hwi _]. congruence.
  - intros [Hc Hvs]. right. split; [done|]. by exists v.
Qed.

End Index.

(** ** C4: what GacEnforce does *)

Section Wipeout.

Variable Γ : cref → Constraint.
Variable csp : CSP.
Variable reasonVar : vref.
Variable reasonVal : Value.

(** The state in which propagation stops with wipeout is the state right
    after a prune that took the last value of an unassigned variable. *)
Definition emptied (σ' : State) : Prop :=
  ∃ v x σ0, pruneValue v x reasonVar reasonVal σ0 = Ok (tt, σ') ∧
            wiped_out (store σ' v).

Lemma visit_value_Return c v x σ wl σ' r :
  visit_value Γ csp reasonVar reasonVal c v x σ wl σ' (Return r) →
  r = OWO ∧ emptied σ'.
Proof. inversion 1; subst. split; [done|]. by exists v, x, σ. Qed.

Lemma visit_values_Return c v xs σ wl σ' f :
  visit_values Γ csp reasonVar reasonVal c v xs σ wl σ' f →
  ∀ r, f = Return r → r = OWO ∧ emptied σ'.
Proof.
  induction 1 as [| ? ? ? ? ? ? Hv |]; intros r0 Hf; [done | | by eauto].
  injection Hf as ->. by eapply visit_value_Return.
Qed.

Lemma visit_scope_Return c vs σ wl σ' f :
  visit_scope Γ csp reasonVar reasonVal c vs σ wl σ' f →
  ∀ r, f = Return r → r = OWO ∧ emptied σ'.
Proof.
  induction 1 as [| ? ? ? ? ? ? Hv |]; intros r0 Hf; [done | | by eauto].
  injection Hf as ->. by eapply visit_values_Return.
Qed.

Lemma enforce_OWO wl σ σ' r :
  enforce Γ csp reasonVar reasonVal wl σ σ' r → r = OWO → emptied σ'.
Proof.
  induction 1 as [| ? ? ? ? ? Hv |]; intros Hr; [done | | by eauto].
  by eapply visit_scope_Return.
Qed.

End Wipeout.

(** C4 as stated fails on "wipeout if and only if the current domain of a
    pruned variable becomes empty".  A has the domain [2] and is assigned 2,
    the state in which [GAC] calls [GacEnforce] for the attempt [(A, 2)]; the
    only constraint is the unary [A == 1].  The value 2 has no support and is
    pruned (nothing is printed, the pair is logged), which leaves no value in
    the current domain of A; but [curDomainSize()] answers 1 for an assigned
    variable, so the loop goes on and the call returns success. *)
Lemma GacEnforce_overlooks_emptied_domain :
  ∃ σ',
    GacEnforce Ex4.unary 10 Ex4.csp_unary [0%nat] Ex.A 2 Ex4.A_is_2 = Ok (OK, σ') ∧
    _value (store Ex4.A_is_2 Ex.A) = Some 2 ∧
    _curdom (store Ex4.A_is_2 Ex.A) = [2] ∧
    _curdom (store σ' Ex.A) = [] ∧
    undoDict σ' !! (Ex.A, 2) = Some [(Ex.A, 2)] ∧
    events σ' = events Ex4.A_is_2.
Proof.
  eexists. split; [vm_compute; reflexivity|].
  split; [reflexivity|]. split; [reflexivity|]. split; [reflexivity|].
  split; reflexivity.
Qed.

(** C4, amended.  [GacEnforce] returns [r] in the state [σ'] exactly when
    the algorithm of the specification does ([enforce]): pop a constraint
    [c]; for each variable of its scope and each of its current values (the
    assigned value alone for an assigned variable, [current_values]) that
    has no support under [c], prune the value under the reason pair; stop at
    once with the wipeout result when the pruned variable is unassigned and
    has no value left ([wiped_out]); otherwise append to the work list each
    constraint the CSP has on file for the pruned variable, other than [c],
    that is not in the work list yet; succeed when the work list has drained.
    The wipeout result is given in the state right after the prune that took
    the last value, and the constraints on file for a variable of a
    constructed CSP are its constraints with that variable in their scope. *)
Theorem GacEnforce_refines_enforce
    (Γ : cref → Constraint) (csp : CSP) (worklist : list cref)
    (assignedvar : vref) (assignedval : Value) (σ σ' : State) (r : verdict) :
  ((∃ fuel, GacEnforce Γ fuel csp worklist assignedvar assignedval σ = Ok (r, σ')) ↔
   enforce Γ csp assignedvar assignedval worklist σ σ' r) ∧
  (enforce Γ csp assignedvar assignedval worklist σ σ' r → r = OWO →
   emptied assignedvar assignedval σ') ∧
  (∀ c wl refs,
     NoDup (to_enqueue c wl refs) ∧
     ∀ c', c' ∈ to_enqueue c wl refs ↔ c' ∈ refs ∧ c' ≠ c ∧ c' ∉ wl) ∧
  (∀ name variables constraints,
     CSP_init Γ name variables constraints = Ok csp →
     ∀ v, v ∈ variables →
       ∃ refs, referencing csp v = Some refs ∧
               ∀ c, c ∈ refs ↔ c ∈ constraints ∧ v ∈ scope (Γ c)).
Proof.
  split; [|split; [|split]].
  - split.
    + intros [fuel Hrun]. by eapply GacEnforce_sound.
    + apply GacEnforce_complete.
  - apply enforce_OWO.
  - intros c wl refs. unfold to_enqueue. split; [apply first_occurrences_NoDup|].
    intros c'. rewrite first_occurrences_elem, list_elem_of_filter. tauto.
  - intros name variables constraints Hinit.
    by destruct (CSP_init_referencing Γ _ _ _ _ Hinit) as (_ & _ & _ & H).
Qed.

Lemma GacEnforce_refines_enforce_witness :
  (∃ σ', enforce Ex2.neq Ex2.csp_neq Ex.A 1 [0%nat] Ex2.AB12_A1 σ' OK ∧
         curDomain (store σ' Ex.B) = [2]) ∧
  (∃ σ', enforce Ex2.both1 Ex2.csp_both1 Ex.A 2 [0%nat]
           (after (setValue Ex.A (Some 2)) Ex.AB12) σ' OWO ∧
         _curdom (store σ' Ex.A) = [1] ∧ wiped_out (store σ' Ex.B)).
Proof.
  split.
  - eexists. split.
    + apply (proj1 (proj1 (GacEnforce_refines_enforce Ex2.neq Ex2.csp_neq [0%nat]
                             Ex.A 1 Ex2.AB12_A1 _ OK))).
      exists 2%nat. vm_compute. reflexivity.
    + vm_compute. reflexivity.
  - eexists. split.
    + apply (proj1 (proj1 (GacEnforce_refines_enforce Ex2.both1 Ex2.csp_both1
                             [0%nat] Ex.A 2
                             (after (setValue Ex.A (Some 2)) Ex.AB12) _ OWO))).
      exists 2%nat. vm_compute. reflexivity.
    + split; [reflexivity | split; reflexivity].
Defined.

(** ** What propagation leaves untouched *)

Lemma remove_first_subset (x y : Value) (l : list Value) :
  y ∈ remove_first x l → y ∈ l.
Proof.
  induction l as [|z l IH]; simpl; [done|].
  destruct (decide (z = x)); [by right|].
  rewrite !elem_of_cons. intros [->|H]; [by left | right; by apply IH].
Qed.

Lemma remove_first_or (x y : Value) (l : list Value) :
  y ∈ l → y ∈ remove_first x l ∨ y = x.
Proof.
  induction l as [|z l IH]; simpl; [by left|].
  destruct (decide (z = x)) as [->|Hne]; rewrite !elem_of_cons.
  - intros [->|H]; [by right | by left].
  - intros [->|H]; [by left; left|]. destruct (IH H); [left; by right | by right].
Qed.

Lemma same_assignment_curDomain σ σ' w :
  same_assignment σ σ' →
  (∀ y, y ∈ _curdom (store σ' w) → y ∈ _curdom (store σ w)) →
  ∀ y, y ∈ curDomain (store σ' w) → y ∈ curDomain (store σ w).
Proof.
  intros Hs Hc y. destruct (Hs w) as (_ & _ & Hv).
  unfold curDomain, getValue. rewrite Hv.
  destruct (_value (store σ w)); [done | apply Hc].
Qed.

Section Frame.

Variable Γ : cref → Constraint.
Variable csp : CSP.
Variable rv : vref.
Variable rx : Value.

Lemma pruned_from_refl σ : pruned_from (rv, rx) σ σ.
Proof.
  split; [done|]. split; [done|]. split; [done|]. split.
  - exists []. rewrite app_nil_r. split; [done|]. split; [done|]. split.
    + intros w y H. by apply elem_of_nil in H.
    + intros w y H. by left.
  - exists []. rewrite app_nil_r. split; [done | constructor].
Qed.

Lemma pruned_from_curDomain σ σ' w y :
  pruned_from (rv, rx) σ σ' →
  y ∈ curDomain (store σ' w) → y ∈ curDomain (store σ w).
Proof.
  intros (Hs & Hc & _). apply same_assignment_curDomain; [done|]. apply Hc.
Qed.

Lemma pruned_from_step σ σ1 σ2 v x :
  pruned_from (rv, rx) σ σ1 → x ∈ curDomain (store σ v) →
  pruneValue v x rv rx σ1 = Ok (tt, σ2) →
  pruned_from (rv, rx) σ σ2.
Proof.
  intros (Hs & Hc & Hk & (ext & Hext & Hnone & Hin & Hkeep) & (new & Hnew & Hprint))
    Hx Hp.
  rewrite pruneValue_unfold in Hp. injection Hp as <-.
  unfold pruned_from, same_assignment. simpl.
  split; [|split; [|split; [|split]]].
  - intros w. destruct (Hs w) as (H1 & H2 & H3).
    case_bool_decide; [|done]. unfold upd. destruct (decide (w = v)) as [->|]; done.
  - intros w y. case_bool_decide as Hb; [|apply Hc]. unfold upd.
    destruct (decide (w = v)) as [->|]; [|apply Hc]. simpl.
    intros Hy. apply Hc. by eapply remove_first_subset.
  - intros k' Hk'. rewrite lookup_insert_ne by done. by apply Hk.
  - exists (ext ++ [(v, x)]). rewrite lookup_insert_eq. simpl.
    rewrite Hext, app_assoc. split; [done|]. split; [done|]. split.
    + intros w y. rewrite elem_of_app, list_elem_of_singleton.
      intros [Hy|[= -> ->]]; [by apply Hin | done].
    + intros w y Hy. rewrite elem_of_app, list_elem_of_singleton.
      destruct (Hkeep w y Hy) as [H1|H1]; [|by right; left].
      case_bool_decide as Hb; [|by left]. unfold upd.
      destruct (decide (w = v)) as [->|Hne]; [|by left]. simpl.
      destruct (remove_first_or x y _ H1) as [H2| ->]; [by left | by right; right].
  - case_bool_decide as Hb.
    + exists new. done.
    + exists (new ++ [PrintPruneError v x]). rewrite Hnew, app_assoc.
      split; [done|]. apply Forall_app. split; [done|]. by repeat constructor.
Qed.

Lemma visit_value_pruned c v x σ wl σ' f :
  visit_value Γ csp rv rx c v x σ wl σ' f →
  ∀ σ0, pruned_from (rv, rx) σ0 σ → x ∈ curDomain (store σ0 v) →
        pruned_from (rv, rx) σ0 σ'.
Proof.
  intros Hv σ0 Hfrom Hx.
  inversion Hv; subst; [done | |]; by eapply pruned_from_step.
Qed.

Lemma visit_values_pruned c v xs σ wl σ' f :
  visit_values Γ csp rv rx c v xs σ wl σ' f →
  ∀ σ0, pruned_from (rv, rx) σ0 σ →
        (∀ x, x ∈ xs → x ∈ curDomain (store σ0 v)) →
        pruned_from (rv, rx) σ0 σ'.
Proof.
  induction 1 as [|x xs σ wl σ' r Hv|x xs σ wl σ1 wl1 σ' f Hv _ IH];
    intros σ0 H0 Hxs; [done | |].
  - eapply visit_value_pruned; [done | done |]. apply Hxs. left.
  - apply IH.
    + eapply visit_value_pruned; [done | done |]. apply Hxs. left.
    + intros y Hy. apply Hxs. by right.
Qed.

Lemma visit_scope_pruned c vs σ wl σ' f :
  visit_scope Γ csp rv rx c vs σ wl σ' f →
  ∀ σ0, pruned_from (rv, rx) σ0 σ → pruned_from (rv, rx) σ0 σ'.
Proof.
  induction 1 as [|v vs σ wl σ' r Hv|v vs σ wl σ1 wl1 σ' f Hv _ IH];
    intros σ0 H0; [done | |].
  - eapply visit_values_pruned; [done | done |].
    intros x. by apply pruned_from_curDomain.
  - apply IH. eapply visit_values_pruned; [done | done |].
    intros x. by apply pruned_from_curDomain.
Qed.

Lemma enforce_pruned wl σ σ' r :
  enforce Γ csp rv rx wl σ σ' r →
  ∀ σ0, pruned_from (rv, rx) σ0 σ → pruned_from (rv, rx) σ0 σ'.
Proof.
  induction 1 as [|c wl σ σ' r Hv|c wl σ σ1 wl1 σ' r Hv _ IH]; intros σ0 H0; [done | |].
  - by eapply visit_scope_pruned.
  - apply IH. by eapply visit_scope_pruned.
Qed.

Lemma GacEnforce_pruned fuel wl σ σ' r :
  GacEnforce Γ fuel csp wl rv rx σ = Ok (r, σ') → pruned_from (rv, rx) σ σ'.
Proof.
  intros Hrun. eapply enforce_pruned; [|apply pruned_from_refl].
  by eapply GacEnforce_sound.
Qed.

Lemma pruned_from_wf σ σ' :
  pruned_from (rv, rx) σ σ' → wf_state σ → wf_state σ'.
Proof.
  intros (Hs & Hc & _) Hwf w. destruct (Hs w) as (_ & Hd & Hv).
  destruct (Hwf w) as [H1 H2]. rewrite Hd. unfold getValue in *. rewrite Hv.
  split; [|done]. intros y Hy. apply H1. by apply Hc.
Qed.

End Frame.

(** ** Variable.restoreValues *)

Lemma restoreVal_fold l : ∀ σ,
  let σ' := fold_left (fun s p => restoreVal (fst p) (snd p) s) l σ in
  same_assignment σ σ' ∧ undoDict σ' = undoDict σ ∧ events σ' = events σ ∧
  ∀ w y, y ∈ _curdom (store σ' w) ↔ y ∈ _curdom (store σ w) ∨ (w, y) ∈ l.
Proof.
  induction l as [|[v x] l IH]; intros σ; simpl.
  - split; [done|]. split; [done|]. split; [done|]. intros w y.
    split; [by left|]. intros [H|H]; [done | by apply elem_of_nil in H].
  - destruct (IH (restoreVal v x σ)) as (Hs & Hu & He & Hc).
    split; [|split; [done|split; [done|]]].
    + intros w. destruct (Hs w) as (H1 & H2 & H3). rewrite H1, H2, H3.
      unfold restoreVal, set_var, upd. simpl.
      destruct (decide (w = v)) as [->|]; done.
    + intros w y. rewrite Hc, elem_of_cons.
      unfold restoreVal, set_var, upd. simpl.
      destruct (decide (w = v)) as [->|Hne]; simpl.
      * rewrite elem_of_app, list_elem_of_singleton. split.
        -- intros [[H| ->]|H]; [by left | right; by left | right; by right].
        -- intros [H|[[= ->]|H]]; [by left; left | by left; right | by right].
      * split; [intros [H|H]; [by left | right; by right]|].
        intros [H|[[= -> ->]|H]]; [by left | done | by right].
Qed.

Lemma restoreValues_spec rv rx σ :
  ∃ σ', restoreValues rv rx σ = Ok (tt, σ') ∧
        same_assignment σ σ' ∧
        undoDict σ' = delete (rv, rx) (undoDict σ) ∧
        events σ' = events σ ∧
        ∀ w y, y ∈ _curdom (store σ' w) ↔
               y ∈ _curdom (store σ w) ∨ (w, y) ∈ default [] (undoDict σ !! (rv, rx)).
Proof.
  unfold restoreValues. destruct (undoDict σ !! (rv, rx)) as [l|] eqn:Hl.
  - destruct (restoreVal_fold l σ) as (Hs & Hu & He & Hc).
    eexists. split; [done|]. simpl. rewrite Hu. done.
  - exists σ. split; [done|]. split; [done|]. split; [by rewrite delete_id|].
    split; [done|]. intros w y. simpl. split; [by left|].
    intros [H|H]; [done | by apply elem_of_nil in H].
Qed.

Lemma setValue_Some_ok self x σ :
  x ∈ _dom (store σ self) →
  setValue self (Some x) σ =
  Ok (tt, set_var self (mkVar (_name (store σ self)) (_dom (store σ self))
                          (_curdom (store σ self)) (Some x)) σ).
Proof.
  intros Hx. unfold setValue.
  by rewrite bool_decide_eq_false_2 by (intros H; by apply H).
Qed.

(** ** The backtracking search *)

Lemma wf_curDomain σ w y : wf_state σ → y ∈ curDomain (store σ w) → y ∈ _dom (store σ w).
Proof.
  intros Hwf. destruct (Hwf w) as [H1 H2]. unfold curDomain.
  destruct (getValue (store σ w)) as [x|] eqn:E; [|apply H1].
  rewrite list_elem_of_singleton. intros ->. by apply H2.
Qed.

Lemma GAC_post_refl csp pool σ : wf_state σ → GAC_post csp pool σ pool σ.
Proof.
  intros Hwf. split; [split; [done | by intros w y Hy]|]. split; [done|]. split; [done|]. split; [done|].
  exists []. rewrite app_nil_r. split; [done|].
  intros v p u H. by apply elem_of_nil in H.
Qed.

Lemma Forall_is_print_no_Select new v p u :
  Forall is_print new → Select v p u ∉ new.
Proof.
  intros Hall Hin. rewrite Forall_forall in Hall. apply (Hall _ Hin).
Qed.

Section Search.

Variable Γ : cref → Constraint.
Variable csp : CSP.

(** What an attempt [(var, val)] leaves behind, whether propagation
    succeeded or reported wipeout: the undo log is what it was, and so are
    names, domains and the assigned values of the other variables; [var]
    holds [val]. *)
Lemma GAC_attempt_inv rec fuel var val pool σ pool1 σ4 :
  (∀ p s p' s', rec p s = Ok (p', s') → GAC_pre p s → GAC_post csp p s p' s') →
  GAC_attempt Γ rec fuel csp var val pool σ = Ok (pool1, σ4) →
  wf_state σ → NoDup pool → var ∉ pool →
  (∀ w, w ∈ pool → getValue (store σ w) = None) →
  (∀ w x, w ∈ var :: pool → undoDict σ !! (w, x) = None) →
  val ∈ _dom (store σ var) →
  (wf_state σ4 ∧ keeps_values σ σ4) ∧
  same_but var σ σ4 ∧ getValue (store σ4 var) = Some val ∧
  undoDict σ4 = undoDict σ ∧ pool1 ≡ₚ pool ∧
  (∃ new, events σ4 = events σ ++ new ∧
          selects_head_of_pool csp (var :: pool) σ new) ∧
  (∃ σ3, restoreValues var val σ3 = Ok (tt, σ4) ∧
         ∀ w y, (w, y) ∈ default [] (undoDict σ3 !! (var, val)) →
                y ∈ _curdom (store σ4 w)).
Proof.
  intros Hrec Hrun Hwf Hnd Hvar Hun Hkeys Hval.
  unfold GAC_attempt in Hrun. unfold bind at 1 in Hrun.
  rewrite (setValue_Some_ok _ _ _ Hval) in Hrun.
  set (σ1 := set_var var _ σ) in Hrun.
  assert (Hσ1 : ∀ w, _name (store σ1 w) = _name (store σ w) ∧
                     _dom (store σ1 w) = _dom (store σ w) ∧
                     _curdom (store σ1 w) = _curdom (store σ w) ∧
                     (w ≠ var → _value (store σ1 w) = _value (store σ w))).
  { intros w. unfold σ1, set_var, upd. simpl.
    destruct (decide (w = var)) as [->|]; done. }
  assert (Hσ1v : getValue (store σ1 var) = Some val).
  { unfold σ1, set_var, upd. simpl. by rewrite decide_True. }
  assert (Hwf1 : wf_state σ1).
  { intros w. destruct (Hσ1 w) as (_ & Hd & Hc & Hv). destruct (Hwf w) as [H1 H2].
    rewrite Hd, Hc. split; [done|]. intros y Hy.
    destruct (decide (w = var)) as [->|Hne].
    - rewrite Hσ1v in Hy. by injection Hy as <-.
    - apply H2. unfold getValue in *. by rewrite <- Hv. }
  unfold bind at 1 in Hrun. rewrite constraintsOf_referencing in Hrun.
  destruct (referencing csp var) as [cs|]; [|done].
  unfold bind at 1 in Hrun.
  destruct (GacEnforce Γ fuel csp cs var val σ1) as [[r σ2]| |] eqn:Hgac; try done.
  pose proof (GacEnforce_pruned _ _ _ _ _ _ _ _ _ Hgac) as Hpr.
  pose proof (pruned_from_wf _ _ _ _ Hpr Hwf1) as Hwf2.
  destruct Hpr as (Hs12 & _ & Hk12 & (ext & Hext & _ & Hextin & Hkeep12) &
                   (prints & He12 & Hprints)).
  assert (Hkey1 : undoDict σ1 !! (var, val) = None) by (apply Hkeys; left).
  rewrite Hkey1 in Hext. simpl in Hext.
  assert (Hpre2 : GAC_pre pool σ2).
  { split; [done|]. split; [done|]. split.
    - intros w Hw. destruct (Hs12 w) as (_ & _ & Hv2). destruct (Hσ1 w) as (_ & _ & _ & Hv1).
      unfold getValue. rewrite Hv2, Hv1; [by apply Hun|]. intros ->. done.
    - intros w x Hw. rewrite Hk12; [apply Hkeys; by right|].
      intros [= -> _]. done. }
  unfold bind at 1 in Hrun.
  assert (Hpost3 : ∃ p3 σ3, GAC_post csp pool σ2 p3 σ3 ∧
             match restoreValues var val σ3 with
             | Ok (_, s) => ret p3 s
             | Raise e => Raise e
             | OutOfFuel => OutOfFuel
             end = Ok (pool1, σ4)).
  { destruct r.
    - exists pool, σ2. split; [by apply GAC_post_refl | exact Hrun].
    - destruct (rec pool σ2) as [[p3 σ3]| |] eqn:Hrec3; try done.
      exists p3, σ3. split; [by apply Hrec | exact Hrun]. }
  clear Hrun. destruct Hpost3 as (p3 & σ3 & Hpost3 & Hrun).
  destruct Hpost3 as ((Hwf3 & Hkeep23) & Hs23 & Hu23 & Hperm & (new3 & He23 & Hsel3)).
  destruct (restoreValues_spec var val σ3) as (σ4' & Hres & Hs34 & Hu34 & He34 & Hc34).
  rewrite Hres in Hrun. injection Hrun as <- <-.
  assert (Hsame : same_but var σ σ4').
  { intros w. destruct (Hσ1 w) as (A1 & A2 & _ & A3). destruct (Hs12 w) as (B1 & B2 & B3).
    destruct (Hs23 w) as (C1 & C2 & C3). destruct (Hs34 w) as (D1 & D2 & D3).
    split; [congruence|]. split; [congruence|]. intros Hne. rewrite D3, C3, B3.
    by apply A3. }
  assert (Hv4 : getValue (store σ4' var) = Some val).
  { unfold getValue in *. destruct (Hs12 var) as (_ & _ & B3).
    destruct (Hs23 var) as (_ & _ & C3). destruct (Hs34 var) as (_ & _ & D3).
    by rewrite D3, C3, B3. }
  split; [split|split; [done|split; [done|split; [|split; [done|split]]]]].
  - (* the state stays well-formed *)
    intros w. destruct (Hs12 w) as (_ & B2 & B3). destruct (Hs23 w) as (_ & C2 & C3).
    destruct (Hs34 w) as (_ & D2 & D3). destruct (Hwf3 w) as [W1 W2].
    split.
    + intros y Hy. apply Hc34 in Hy as [Hy|Hy].
      * rewrite D2. by apply W1.
      * rewrite Hu23, Hext in Hy. simpl in Hy. apply Hextin in Hy.
        rewrite D2, C2, B2. by apply wf_curDomain.
    + intros y Hy. rewrite D2. apply W2. unfold getValue in *. by rewrite <- D3.
  - (* no value is lost *)
    intros w y Hy. destruct (Hσ1 w) as (_ & _ & Hc1 & _). rewrite <- Hc1 in Hy.
    apply Hc34. destruct (Hkeep12 w y Hy) as [H2|H2].
    + left. by apply Hkeep23.
    + right. by rewrite Hu23, Hext.
  - (* the undo log is what it was *)
    rewrite Hu34, Hu23. apply map_eq. intros k.
    destruct (decide (k = (var, val))) as [->|Hk].
    + rewrite lookup_delete_eq. symmetry. apply Hkeys. left.
    + rewrite lookup_delete_ne by done. by rewrite Hk12.
  - (* the events of the attempt *)
    exists (prints ++ new3). split.
    { rewrite He34, He23, He12. by rewrite app_assoc. }
    intros v p u Hin. apply elem_of_app in Hin as [Hin|Hin].
    { by apply Forall_is_print_no_Select in Hin. }
    destruct (Hsel3 v p u Hin) as (Hhd & Hsub & Hu).
    split; [done|]. split; [intros w Hw; right; by apply Hsub|].
    intros w. rewrite Hu. split.
    + intros [Hw [Hp|[Hnp Hnone]]]; (split; [done|]); [by left|].
      right. assert (Hwv : w ≠ var).
      { intros ->. destruct (Hs12 var) as (_ & _ & B3). unfold getValue in *.
        rewrite B3 in Hnone. congruence. }
      split; [by rewrite not_elem_of_cons|].
      destruct (Hs12 w) as (_ & _ & B3). destruct (Hσ1 w) as (_ & _ & _ & A3).
      unfold getValue in *. rewrite <- A3, <- B3; done.
    + intros [Hw [Hp|[Hnp Hnone]]]; (split; [done|]); [by left|].
      right. apply not_elem_of_cons in Hnp as [Hwv Hnp]. split; [done|].
      destruct (Hs12 w) as (_ & _ & B3). destruct (Hσ1 w) as (_ & _ & _ & A3).
      unfold getValue in *. rewrite B3, A3; done.
  - (* the restore step puts every logged pair back *)
    exists σ3. split; [done|]. intros w y Hy. apply Hc34. by right.
Qed.

Lemma GAC_vals_inv rec fuel var vals : ∀ pool σ pool' σ',
  (∀ p s p' s', rec p s = Ok (p', s') → GAC_pre p s → GAC_post csp p s p' s') →
  GAC_vals Γ rec fuel csp var vals pool σ = Ok (pool', σ') →
  wf_state σ → NoDup pool → var ∉ pool →
  (∀ w, w ∈ pool → getValue (store σ w) = None) →
  (∀ w x, w ∈ var :: pool → undoDict σ !! (w, x) = None) →
  (∀ x, x ∈ vals → x ∈ _dom (store σ var)) →
  (wf_state σ' ∧ keeps_values σ σ') ∧
  same_but var σ σ' ∧ undoDict σ' = undoDict σ ∧ pool' ≡ₚ pool ∧
  ∃ new, events σ' = events σ ++ new ∧
         selects_head_of_pool csp (var :: pool) σ new.
Proof.
  induction vals as [|val vals IH];
    intros pool σ pool' σ' Hrec Hrun Hwf Hnd Hvar Hun Hkeys Hvals.
  - injection Hrun as <- <-. split; [split; [done | by intros w y Hy]|]. split; [done|]. split; [done|].
    split; [done|]. exists []. rewrite app_nil_r. split; [done|].
    intros v p u H. by apply elem_of_nil in H.
  - simpl in Hrun. unfold bind in Hrun.
    destruct (GAC_attempt Γ rec fuel csp var val pool σ) as [[pool1 σ4]| |] eqn:Hatt;
      try done.
    assert (Hval : val ∈ _dom (store σ var)) by (apply Hvals; left).
    destruct (GAC_attempt_inv _ _ _ _ _ _ _ _ Hrec Hatt Hwf Hnd Hvar Hun Hkeys Hval)
      as ((Hwf4 & Hk4) & Hs4 & Hv4 & Hu4 & Hperm4 & (new4 & He4 & Hsel4) & _).
    assert (Hmem : ∀ w, w ∈ pool1 ↔ w ∈ pool) by (intros w; by rewrite Hperm4).
    destruct (IH pool1 σ4 pool' σ' Hrec Hrun Hwf4)
      as ((Hwf' & Hk') & Hs' & Hu' & Hperm' & (new' & He' & Hsel')).
    + by rewrite Hperm4.
    + by rewrite Hmem.
    + intros w Hw. apply Hmem in Hw. destruct (Hs4 w) as (_ & _ & Hv).
      unfold getValue. rewrite Hv; [by apply Hun|]. intros ->. done.
    + intros w x Hw. rewrite Hu4. apply Hkeys.
      apply elem_of_cons in Hw as [->|Hw]; [left | right; by apply Hmem].
    + intros x Hx. destruct (Hs4 var) as (_ & Hd & _). rewrite Hd.
      apply Hvals. by right.
    + split; [split; [done | intros w y Hy; apply Hk'; by apply Hk4]|]. split.
      { intros w. destruct (Hs4 w) as (A1 & A2 & A3). destruct (Hs' w) as (B1 & B2 & B3).
        split; [congruence|]. split; [congruence|]. intros Hne.
        rewrite B3, A3; done. }
      split; [congruence|]. split; [by etrans|].
      exists (new4 ++ new'). split; [by rewrite He', He4, app_assoc|].
      intros v p u Hin. apply elem_of_app in Hin as [Hin|Hin]; [by apply Hsel4|].
      destruct (Hsel' v p u Hin) as (Hhd & Hsub & Hiff).
      split; [done|]. split.
      { intros w Hw. apply Hsub in Hw. apply elem_of_cons in Hw as [->|Hw];
          [left | right; by apply Hmem]. }
      intros w. rewrite Hiff.
      assert (Hout : (w ∉ var :: pool1) ∧ getValue (store σ4 w) = None ↔
                     (w ∉ var :: pool) ∧ getValue (store σ w) = None).
      { rewrite !not_elem_of_cons, Hmem. destruct (Hs4 w) as (_ & _ & A3).
        unfold getValue. split; intros [[Hne Hnp] Hnone].
        - rewrite <- A3; done.
        - rewrite A3; done. }
      tauto.
Qed.

Lemma filter_unassigned σ w :
  w ∈ filter (fun v => isAssigned (store σ v) = false) (variables csp) ↔
  w ∈ variables csp ∧ getValue (store σ w) = None.
Proof.
  rewrite list_elem_of_filter. unfold isAssigned.
  rewrite bool_decide_eq_false. split.
  - intros [H Hw]. split; [done|]. by apply dec_stable.
  - intros [Hw H]. split; [|done]. intros Hn. by apply Hn.
Qed.

(** Every call of [GAC] that returns leaves the assignment and the undo log
    as they were, hands the pool back as a permutation of itself, and at each
    of its decision points has taken the head of the pool. *)
Lemma GAC_inv fuel : ∀ pool σ pool' σ',
  GAC Γ fuel pool csp σ = Ok (pool', σ') →
  GAC_pre pool σ → GAC_post csp pool σ pool' σ'.
Proof.
  induction fuel as [|fuel IH]; intros pool σ pool' σ' Hrun Hpre; [done|].
  simpl in Hrun. destruct pool as [|var pool].
  - unfold bind, sink, print, ret in Hrun. injection Hrun as <- <-.
    destruct Hpre as (Hwf & _). split; [split; [done | by intros w y Hy]|]. split; [done|]. split; [done|].
    split; [done|]. eexists. split; [done|]. intros v p u Hin.
    apply list_elem_of_singleton in Hin. done.
  - destruct Hpre as (Hwf & Hnd & Hun & Hkeys).
    apply NoDup_cons in Hnd as [Hvar Hnd].
    unfold bind at 1 in Hrun. unfold mark_select, print in Hrun.
    set (σ1 := mkState (store σ) (undoDict σ) _) in Hrun.
    unfold bind at 1 in Hrun. unfold get_var in Hrun.
    unfold bind at 1 in Hrun.
    destruct (GAC_vals Γ (fun p => GAC Γ fuel p csp) fuel csp var
                (curDomain (store σ1 var)) pool σ1) as [[pool2 σ2]| |] eqn:Hvals;
      try done.
    unfold bind, setValue, ret in Hrun. injection Hrun as <- <-.
    assert (Hvnone : getValue (store σ var) = None) by (apply Hun; left).
    destruct (GAC_vals_inv _ _ _ _ _ _ _ _ IH Hvals)
      as ((Hwf2 & Hk2) & Hs2 & Hu2 & Hperm2 & (new2 & He2 & Hsel2)).
    + done.
    + done.
    + done.
    + intros w Hw. apply Hun. by right.
    + done.
    + intros x Hx. unfold σ1 in Hx. simpl in Hx. by apply wf_curDomain.
    + split; [split|split; [|split; [done|split]]].
      * intros w. unfold set_var, upd. simpl.
        destruct (decide (w = var)) as [->|Hne]; [|apply Hwf2]. simpl.
        split; [apply Hwf2 | done].
      * intros w y Hy. unfold set_var, upd. simpl.
        destruct (decide (w = var)) as [->|Hne]; simpl; by apply Hk2.
      * intros w. destruct (Hs2 w) as (A1 & A2 & A3). unfold set_var, upd. simpl.
        destruct (decide (w = var)) as [->|Hne]; simpl; [|by auto].
        split; [done|]. split; [done|]. unfold getValue in Hvnone. by rewrite Hvnone.
      * rewrite Hperm2. symmetry. apply Permutation_cons_append.
      * simpl. rewrite He2. unfold σ1 at 1. simpl. rewrite <- app_assoc.
        eexists. split; [done|]. intros v p u Hin.
        apply elem_of_cons in Hin as [Heq|Hin]; [|by apply Hsel2].
        injection Heq as -> -> ->. split; [done|]. split; [done|].
        intros w. rewrite filter_unassigned. split.
        -- intros [Hw Hnone]. split; [done|].
           destruct (decide (w ∈ var :: pool)); [by left | by right].
        -- intros [Hw [Hp|[_ Hnone]]]; (split; [done|]); [by apply Hun | done].
Qed.

End Search.

(** ** C10: the order in which variables are selected *)

Lemma initial_wf vs : wf_state (initial vs).
Proof.
  intros w. unfold initial, fresh_store. simpl.
  destruct (vs !! w) as [[n d]|]; simpl; done.
Qed.

Lemma initial_unassigned vs w : getValue (store (initial vs) w) = None.
Proof.
  unfold initial, fresh_store. simpl. destruct (vs !! w) as [[n d]|]; done.
Qed.

(** C10 as stated fails: with three variables A, B, C (A with two values) and
    no constraint, the second pass takes C from the pool [C, B] although B is
    unassigned and comes first in the order of the variables. *)
Lemma GAC_rotates_pool :
  ¬ selects_earliest_unassigned
      (after (GAC Ex3.none 10 (variables Ex3.csp_free) Ex3.csp_free) Ex3.ABC).
Proof.
  intros H.
  specialize (H Ex.C [Ex.C; Ex.B] [Ex.B; Ex.C]).
  assert (Hev : events (after (GAC Ex3.none 10 (variables Ex3.csp_free) Ex3.csp_free)
                          Ex3.ABC) =
                [Select Ex.A [Ex.A; Ex.B; Ex.C] [Ex.A; Ex.B; Ex.C];
                 Select Ex.B [Ex.B; Ex.C] [Ex.B; Ex.C];
                 Select Ex.C [Ex.C] [Ex.C];
                 Solution [(Ex.A, Some 1); (Ex.B, Some 1); (Ex.C, Some 1)];
                 Select Ex.C [Ex.C; Ex.B] [Ex.B; Ex.C];
                 Select Ex.B [Ex.B] [Ex.B];
                 Solution [(Ex.A, Some 2); (Ex.B, Some 1); (Ex.C, Some 1)]]).
  { vm_compute. reflexivity. }
  rewrite Hev in H. discriminate H. do 4 right. left.
Qed.

(** C10, amended.  At every decision point of a call of [GAC] the variable
    taken is the head of the pool as it stands, and the pool holds exactly the
    variables that are still unassigned (for the top-level call, whose pool
    is the list of all variables: the unassigned variables are those of the
    pool); the pool is not kept in the order it was supplied in: a variable
    whose values are exhausted is unassigned again and appended at the end of
    the pool, so the call hands the pool back as a permutation of what it
    received, with all its variables unassigned. *)
Theorem GAC_selects_head_of_pool
    (Γ : cref → Constraint) (csp : CSP) (fuel : nat)
    (pool : list vref) (σ : State) (pool' : list vref) (σ' : State) :
  GAC Γ fuel pool csp σ = Ok (pool', σ') →
  wf_state σ → NoDup pool →
  (∀ w, w ∈ pool → getValue (store σ w) = None) →
  (∀ w x, w ∈ pool → undoDict σ !! (w, x) = None) →
  (pool' ≡ₚ pool) ∧
  (∀ w, w ∈ pool' → getValue (store σ' w) = None) ∧
  ∃ new, events σ' = events σ ++ new ∧
         selects_head_of_pool csp pool σ new ∧
         ((∀ w, w ∈ pool ↔ w ∈ variables csp) →
          ∀ v p u, Select v p u ∈ new →
            head p = Some v ∧ ∀ w, w ∈ u ↔ w ∈ p).
Proof.
  intros Hrun Hwf Hnd Hun Hkeys.
  destruct (GAC_inv Γ csp fuel pool σ pool' σ' Hrun) as (_ & Hs & _ & Hperm & (new & He & Hsel)).
  { done. }
  split; [done|]. split.
  - intros w Hw. rewrite Hperm in Hw. destruct (Hs w) as (_ & _ & Hv).
    unfold getValue. rewrite Hv. by apply Hun.
  - exists new. split; [done|]. split; [done|].
    intros Hall v p u Hin. destruct (Hsel v p u Hin) as (Hhd & Hsub & Hiff).
    split; [done|]. intros w. rewrite Hiff. split.
    + intros [Hw [Hp|[Hnp _]]]; [done|]. exfalso. apply Hnp. by apply Hall.
    + intros Hp. split; [apply Hall; by apply Hsub | by left].
Qed.

Lemma GAC_selects_head_of_pool_witness :
  ∃ σ', GAC Ex3.none 10 [Ex.A; Ex.B; Ex.C] Ex3.csp_free Ex3.ABC
          = Ok ([Ex.B; Ex.C; Ex.A], σ') ∧
        ([Ex.B; Ex.C; Ex.A] ≡ₚ [Ex.A; Ex.B; Ex.C]) ∧
        (∀ w, w ∈ [Ex.B; Ex.C; Ex.A] → getValue (store σ' w) = None) ∧
        ∃ new, events σ' = events Ex3.ABC ++ new ∧
               selects_head_of_pool Ex3.csp_free [Ex.A; Ex.B; Ex.C] Ex3.ABC new ∧
               ((∀ w, w ∈ [Ex.A; Ex.B; Ex.C] ↔ w ∈ variables Ex3.csp_free) →
                ∀ v p u, Select v p u ∈ new →
                  head p = Some v ∧ ∀ w, w ∈ u ↔ w ∈ p).
Proof.
  eexists. split; [vm_compute; reflexivity|].
  apply (GAC_selects_head_of_pool Ex3.none Ex3.csp_free 10 [Ex.A; Ex.B; Ex.C] Ex3.ABC).
  - vm_compute. reflexivity.
  - apply initial_wf.
  - apply (bool_decide_unpack _). vm_compute. exact I.
  - intros w _. apply initial_unassigned.
  - intros w x _. apply lookup_empty.
Defined.

(** ** The top-level search on concrete CSPs *)

(** What holds of every top-level call that returns: the undo log is empty
    again, every variable is unassigned, and every current domain holds the
    values of the original domain and no others; how often a value occurs in
    it is another matter, see below. *)
Lemma GAC_top_level Γ csp fuel σ pool' σ' :
  GAC Γ fuel (variables csp) csp σ = Ok (pool', σ') →
  NoDup (variables csp) →
  (∀ w, _curdom (store σ w) = _dom (store σ w)) →
  (∀ w, getValue (store σ w) = None) →
  undoDict σ = ∅ →
  undoDict σ' = ∅ ∧
  (∀ w, getValue (store σ' w) = None) ∧
  (∀ w y, y ∈ _curdom (store σ' w) ↔ y ∈ _dom (store σ' w)).
Proof.
  intros Hrun Hnd Hdom Hun Hlog.
  destruct (GAC_inv Γ csp fuel _ σ pool' σ' Hrun)
    as ((Hwf & Hkeep) & Hs & Hu & _).
  { split; [|split; [done|split; [done|]]].
    - intros w. rewrite Hdom. split; [done|]. intros y Hy. by rewrite Hun in Hy.
    - intros w x _. rewrite Hlog. apply lookup_empty. }
  split; [congruence|]. split.
  - intros w. destruct (Hs w) as (_ & _ & Hv). unfold getValue in *.
    rewrite Hv. apply Hun.
  - intros w y. split; [apply Hwf|]. intros Hy.
    destruct (Hs w) as (_ & Hd & _). rewrite Hd, <- Hdom in Hy. by apply Hkeep.
Qed.

(** C2 as stated fails on the CSP with the unary constraint [A == 1] and
    the binary constraint allowing only [[1, 1]], both variables with domain
    [1; 2].  The search returns with an empty undo log and both variables
    unassigned, but the current domain of A is [1; 2; 2]: the value 2 was
    pruned twice under the key (A, 2) (the second prune printed the error
    message) and restored twice. *)
Lemma GAC_leaves_duplicate :
  ∃ pool' σ',
    GAC Ex4.unary_binary 10 (variables Ex4.csp_ub) Ex4.csp_ub Ex.AB12 = Ok (pool', σ') ∧
    undoDict σ' = ∅ ∧
    getValue (store σ' Ex.A) = None ∧ getValue (store σ' Ex.B) = None ∧
    _dom (store σ' Ex.A) = [1; 2] ∧
    _curdom (store σ' Ex.A) = [1; 2; 2] ∧
    ¬ (_curdom (store σ' Ex.A) ≡ₚ _dom (store σ' Ex.A)) ∧
    PrintPruneError Ex.A 2 ∈ events σ'.
Proof.
  eexists _, _. split; [vm_compute; reflexivity|].
  split; [vm_compute; reflexivity|].
  split; [reflexivity|]. split; [reflexivity|]. split; [reflexivity|].
  split; [reflexivity|]. split.
  - intros Hperm. apply Permutation_length in Hperm. discriminate Hperm.
  - cbn. do 3 right. left.
Qed.

(** The two examples of the specification: two solutions for the table
    [[1, 2], [2, 1]], one for the table [[1, 1]]. *)
Lemma GAC_examples :
  solutions (after (GAC Ex2.neq 10 (variables Ex2.csp_neq) Ex2.csp_neq) Ex.AB12)
    = [[(Ex.A, Some 1); (Ex.B, Some 2)]; [(Ex.A, Some 2); (Ex.B, Some 1)]] ∧
  solutions (after (GAC Ex2.both1 10 (variables Ex2.csp_both1) Ex2.csp_both1) Ex.AB12)
    = [[(Ex.A, Some 1); (Ex.B, Some 1)]].
Proof.
  split; vm_compute; reflexivity.
Qed.

(** C3 as stated fails on the CSP with one variable A, of domain [1; 2],
    and the unary constraint [A == 1]: the sink is called twice, the second
    time with [A = 2], which the constraint rejects ([check] is false). *)
Lemma GAC_reports_violating_assignment :
  ∃ pool' σ',
    GAC Ex4.unary 10 (variables Ex4.csp_unary) Ex4.csp_unary Ex.A12 = Ok (pool', σ') ∧
    solutions σ' = [[(Ex.A, Some 1)]; [(Ex.A, Some 2)]] ∧
    check (store (after (setValue Ex.A (Some 2)) Ex.A12)) (Ex4.unary 0%nat) = false.
Proof.
  eexists _, _. split; [vm_compute; reflexivity|].
  split; vm_compute; reflexivity.
Qed.

(** ** hasSupport as the existence of a supporting assignment *)

Lemma fun_of_list (ks : list vref) : ∀ vs : list Value,
  NoDup ks → length ks = length vs → ∃ f : vref → Value, f <$> ks = vs.
Proof.
  induction ks as [|k ks IH]; intros [|y vs] Hnd Hlen; simpl in Hlen; try done.
  - by exists (fun _ => 0).
  - apply NoDup_cons in Hnd as [Hk Hnd].
    destruct (IH vs Hnd) as [f Hf]; [lia|].
    exists (fun w => if decide (w = k) then y else f w). simpl.
    rewrite decide_True by done. f_equal. rewrite <- Hf.
    apply list_fmap_ext. intros i w Hw. rewrite decide_False; [done|].
    intros ->. apply Hk. by eapply list_elem_of_lookup_2.
Qed.

Lemma picks_fmap h (f : vref → Value) ks :
  picks h ks (f <$> ks) ↔ ∀ w, w ∈ ks → f w ∈ curDomain (h w).
Proof.
  unfold picks. induction ks as [|k ks IH]; simpl.
  - split; [intros _ w Hw; by apply elem_of_nil in Hw | constructor].
  - split.
    + intros H. inversion H as [|? ? ? ? Hk Hks]; subst.
      intros w Hw. apply elem_of_cons in Hw as [->|Hw]; [done|]. by apply IH.
    + intros H. constructor; [apply H; left|]. apply IH. intros w Hw. apply H. by right.
Qed.

Lemma remove_var_Permutation (x : vref) (l : list vref) :
  x ∈ l → l ≡ₚ x :: remove_var x l.
Proof.
  induction l as [|y l IH]; intros Hin; simpl.
  - by apply elem_of_nil in Hin.
  - destruct (decide (y = x)) as [->|Hne]; [done|].
    apply elem_of_cons in Hin as [->|Hin]; [done|].
    rewrite (IH Hin) at 1. apply Permutation_swap.
Qed.

Lemma TableConstraint_hasSupport_sem h name scope sat v x :
  wf_constraint (TableConstraint name scope sat) → v ∈ scope →
  ∃ b, TableConstraint_hasSupport h scope sat v x = Ok b ∧
       (b = true ↔ ∃ f, supports h (TableConstraint name scope sat) v x f).
Proof.
  intros [Hnd Hall] Hin. simpl in *. unfold TableConstraint_hasSupport.
  rewrite bool_decide_eq_false_2 by (intros H; by apply H).
  destruct (index v scope) as [i|] eqn:Hidx; [|by apply index_None in Hidx].
  apply index_Some in Hidx as [Hi _].
  assert (Hlt : (i < length scope)%nat) by (by eapply lookup_lt_Some).
  destruct (table_loop_spec h scope i x sat Hlt Hall) as (b & Hb & Hiff).
  exists b. split; [done|]. rewrite Hiff. unfold supports. simpl. split.
  - intros (t & Ht & Hx & Hsup).
    rewrite Forall_forall in Hall.
    destruct (fun_of_list scope t Hnd) as [f Hf]; [symmetry; by apply Hall|].
    exists f. split; [by rewrite Hf|]. split.
    + assert (H : (f <$> scope) !! i = Some (f v)) by (by rewrite list_lookup_fmap, Hi).
      rewrite Hf, Hx in H. by injection H.
    + intros w Hw Hne. apply list_elem_of_lookup_1 in Hw as [j Hj].
      destruct (Hsup j w) as (a & Ha & Hdom); [|done|].
      * intros ->. congruence.
      * assert (H : (f <$> scope) !! j = Some (f w)) by (by rewrite list_lookup_fmap, Hj).
        rewrite Hf, Ha in H. by injection H as <-.
  - intros (f & Hsat & Hx & Hothers). exists (f <$> scope). split; [done|]. split.
    + by rewrite list_lookup_fmap, Hi, <- Hx.
    + intros j w Hj Hw. exists (f w). split; [by rewrite list_lookup_fmap, Hw|].
      apply Hothers; [by eapply list_elem_of_lookup_2|].
      intros ->. apply Hj. by eapply NoDup_lookup.
Qed.

Lemma NValuesConstraint_hasSupport_extends h scope required lb ub var val :
  var ∈ scope →
  ∃ b, NValuesConstraint_hasSupport h scope required lb ub var val = Ok b ∧
       (b = true ↔ NValues_extends h scope required lb ub var val).
Proof.
  intros Hin. unfold NValuesConstraint_hasSupport.
  rewrite bool_decide_eq_false_2 by (intros H; by apply H).
  unfold findvals. cbv zeta.
  set (sorted := sort_desc (fun v => curDomainSize (h v)) (remove_var var scope)).
  destruct (findvals__NValues h scope required lb ub var val
              (valsOK (length scope) required lb ub) sorted (S (length sorted)))
    as (b & r & a & Hrun & Hiff);
    [apply valsOK_prefix | done | apply sort_desc_Permutation | lia |].
  rewrite Hrun. by exists b.
Qed.

Lemma NValuesConstraint_hasSupport_sem h name scope required lb ub v x :
  wf_constraint (NValuesConstraint name scope required lb ub) → v ∈ scope →
  ∃ b, NValuesConstraint_hasSupport h scope required lb ub v x = Ok b ∧
       (b = true ↔
        ∃ f, supports h (NValuesConstraint name scope required lb ub) v x f).
Proof.
  intros [Hnd _] Hin. simpl in Hnd.
  destruct (NValuesConstraint_hasSupport_extends h scope required lb ub v x Hin)
    as (b & Hb & Hiff).
  exists b. split; [done|]. rewrite Hiff. unfold NValues_extends, supports. simpl.
  pose proof (remove_var_Permutation v scope Hin) as Hperm.
  assert (Hnd' : NoDup (v :: remove_var v scope)) by (by rewrite <- Hperm).
  apply NoDup_cons in Hnd' as [Hv Hnd'].
  assert (Hmem : ∀ w, w ∈ remove_var v scope ↔ w ∈ scope ∧ w ≠ v).
  { intros w. rewrite Hperm at 2. rewrite elem_of_cons. split.
    - intros Hw. split; [by right|]. intros ->. done.
    - intros [[->|Hw] Hne]; done. }
  split.
  - intros (vals & Hp & Hbounds).
    destruct (fun_of_list (remove_var v scope) vals Hnd') as [f' Hf'].
    { by eapply Forall2_length. }
    set (f := fun w => if decide (w = v) then x else f' w).
    assert (Hf : f <$> remove_var v scope = vals).
    { rewrite <- Hf'. apply list_fmap_ext. intros i w Hw. unfold f.
      rewrite decide_False; [done|]. intros ->. apply Hv.
      by eapply list_elem_of_lookup_2. }
    assert (Hfv : f v = x) by (unfold f; by rewrite decide_True).
    exists f. split; [|split; [done|]].
    + rewrite (rv_count_Permutation required (f <$> scope) (x :: vals)); [done|].
      rewrite Hperm at 1. by rewrite fmap_cons, Hfv, Hf.
    + intros w Hw Hne. rewrite <- Hf in Hp. apply (proj1 (picks_fmap h f _) Hp).
      by apply Hmem.
  - intros (f & Hbounds & Hfv & Hothers).
    exists (f <$> remove_var v scope). split.
    + apply picks_fmap. intros w Hw. apply Hmem in Hw as [Hw Hne]. by apply Hothers.
    + change (lb ≤ rv_count required (x :: (f <$> remove_var v scope)) ≤ ub).
      rewrite (rv_count_Permutation required _ (f <$> scope)); [done|].
      rewrite Hperm at 2. by rewrite fmap_cons, Hfv.
Qed.

Lemma hasSupport_sem h c v x :
  wf_constraint c → v ∈ scope c →
  ∃ b, hasSupport h c v x = Ok b ∧ (b = true ↔ ∃ f, supports h c v x f).
Proof.
  destruct c as [name sc sat|name sc req lb ub]; simpl.
  - apply TableConstraint_hasSupport_sem.
  - apply NValuesConstraint_hasSupport_sem.
Qed.

(** ** One pass over a constraint makes it arc consistent *)

Lemma remove_first_NoDup (x : Value) (l : list Value) :
  NoDup l → NoDup (remove_first x l) ∧ x ∉ remove_first x l.
Proof.
  induction l as [|z l IH]; intros Hnd; simpl.
  - split; [constructor | apply not_elem_of_nil].
  - apply NoDup_cons in Hnd as [Hz Hnd]. destruct (IH Hnd) as [H1 H2].
    destruct (decide (z = x)) as [->|Hne]; [done|]. split.
    + apply NoDup_cons. split; [|done]. intros H. apply Hz.
      by eapply remove_first_subset.
    + apply not_elem_of_cons. split; [congruence | done].
Qed.

Section LogGrows.

Variable Γ : cref → Constraint.
Variable csp : CSP.
Variable rv : vref.
Variable rx : Value.

Lemma log_grows_refl σ : log_grows (rv, rx) σ σ.
Proof. split; [done|]. exists []. by rewrite app_nil_r. Qed.

Lemma log_grows_trans σ1 σ2 σ3 :
  log_grows (rv, rx) σ1 σ2 → log_grows (rv, rx) σ2 σ3 → log_grows (rv, rx) σ1 σ3.
Proof.
  intros [Hv1 [e1 He1]] [Hv2 [e2 He2]]. split.
  - intros w. by rewrite Hv2, Hv1.
  - exists (e1 ++ e2). by rewrite He2, He1, app_assoc.
Qed.

Lemma pruneValue_log_grows v x σ σ1 :
  pruneValue v x rv rx σ = Ok (tt, σ1) →
  log_grows (rv, rx) σ σ1 ∧ (v, x) ∈ default [] (undoDict σ1 !! (rv, rx)).
Proof.
  rewrite pruneValue_unfold. intros [= <-]. unfold log_grows. simpl.
  rewrite lookup_insert_eq. simpl. split; [split|].
  - intros w. case_bool_decide as Hb; [|done]. unfold upd.
    destruct (decide (w = v)) as [->|]; done.
  - by exists [(v, x)].
  - apply elem_of_app. right. left.
Qed.

Lemma visit_value_log_grows c v x σ wl σ' f :
  visit_value Γ csp rv rx c v x σ wl σ' f → log_grows (rv, rx) σ σ'.
Proof.
  inversion 1; subst; [apply log_grows_refl | |];
    by eapply pruneValue_log_grows.
Qed.

Lemma visit_values_log_grows c v xs σ wl σ' f :
  visit_values Γ csp rv rx c v xs σ wl σ' f → log_grows (rv, rx) σ σ'.
Proof.
  induction 1 as [|? ? ? ? ? ? Hv|? ? ? ? ? ? ? ? Hv _ IH].
  - apply log_grows_refl.
  - by eapply visit_value_log_grows.
  - eapply log_grows_trans; [by eapply visit_value_log_grows | done].
Qed.

Lemma visit_scope_log_grows c vs σ wl σ' f :
  visit_scope Γ csp rv rx c vs σ wl σ' f → log_grows (rv, rx) σ σ'.
Proof.
  induction 1 as [|? ? ? ? ? ? Hv|? ? ? ? ? ? ? ? Hv _ IH].
  - apply log_grows_refl.
  - by eapply visit_values_log_grows.
  - eapply log_grows_trans; [by eapply visit_values_log_grows | done].
Qed.

Lemma enforce_log_grows wl σ σ' r :
  enforce Γ csp rv rx wl σ σ' r → log_grows (rv, rx) σ σ'.
Proof.
  induction 1 as [|? ? ? ? ? Hv|? ? ? ? ? ? ? Hv _ IH].
  - apply log_grows_refl.
  - by eapply visit_scope_log_grows.
  - eapply log_grows_trans; [by eapply visit_scope_log_grows | done].
Qed.

Lemma unassigned_log_mono σ σ' :
  log_grows (rv, rx) σ σ' → unassigned_log (rv, rx) σ' → unassigned_log (rv, rx) σ.
Proof.
  intros [Hv [ext Hext]] Hlog w y Hin. unfold getValue. rewrite <- Hv.
  apply (Hlog w y). rewrite Hext. apply elem_of_app. by left.
Qed.

End LogGrows.

Lemma pruneValue_effect v x rv rx σ σ1 :
  pruneValue v x rv rx σ = Ok (tt, σ1) →
  (∀ w, w ≠ v → store σ1 w = store σ w) ∧
  _value (store σ1 v) = _value (store σ v) ∧
  _curdom (store σ1 v) = remove_first x (_curdom (store σ v)).
Proof.
  rewrite pruneValue_unfold. intros [= <-]. simpl.
  case_bool_decide as Hb; unfold upd.
  - split; [intros w Hw; by rewrite decide_False|]. by rewrite decide_True.
  - split; [done|]. split; [done|]. by rewrite remove_first_absent.
Qed.

Section Pass.

Variable Γ : cref → Constraint.
Variable csp : CSP.
Variable cs : list cref.
Variable rv : vref.
Variable rx : Value.

Hypothesis refs_in_cs :
  ∀ w refs d, referencing csp w = Some refs → d ∈ refs → d ∈ cs.

Lemma pass_step_refl c σ wl :
  nodup_state σ → pass_step csp cs c (Γ c) σ wl σ wl.
Proof.
  intros Hnd. split; [done|]. split; [done|]. split; [done|]. split; [done|].
  split; [by left|]. intros w Hw. done.
Qed.

Lemma pass_step_trans c σ wl σ1 wl1 σ2 wl2 :
  pass_step csp cs c (Γ c) σ wl σ1 wl1 →
  pass_step csp cs c (Γ c) σ1 wl1 σ2 wl2 →
  pass_step csp cs c (Γ c) σ wl σ2 wl2.
Proof.
  intros (_ & Hv1 & Hs1 & Hw1 & Hc1 & Hr1) (Hn2 & Hv2 & Hs2 & Hw2 & Hc2 & Hr2).
  split; [done|]. split; [by auto|]. split; [by auto|]. split; [by auto|]. split.
  - intros d Hd. destruct (Hc2 d Hd) as [H|H]; [by apply Hc1 | by right].
  - intros w Hw.
    destruct (decide (curDomain (store σ1 w) = curDomain (store σ w))) as [Heq|Hne].
    + apply Hr2. by rewrite Heq.
    + destruct (Hr1 w Hne) as (refs & Hrefs & Hin). exists refs. split; [done|].
      intros d Hd Hdc. apply Hw2. by apply Hin.
Qed.

Lemma visit_value_pass c v x σ wl σ1 wl1 :
  visit_value Γ csp rv rx c v x σ wl σ1 (Continue wl1) →
  wf_constraint (Γ c) → v ∈ scope (Γ c) →
  nodup_state σ → unassigned_log (rv, rx) σ1 →
  pass_step csp cs c (Γ c) σ wl σ1 wl1 ∧
  (x ∈ curDomain (store σ1 v) → ∃ f, valid (store σ1) (Γ c) f ∧ f v = x).
Proof.
  intros Hvisit Hwf Hv Hnd Hlog.
  destruct (hasSupport_sem (store σ) (Γ c) v x Hwf Hv) as (b & Hb & Hiff).
  inversion Hvisit as [? ? Hsup|?|? ? ? refs Hsup Hp Hsize Hrefs]; subst.
  - (* the value has support *)
    split; [by apply pass_step_refl|]. intros Hx.
    rewrite Hsup in Hb. injection Hb as <-.
    destruct (proj1 Hiff eq_refl) as (f & Hsat & Hfv & Hothers).
    exists f. split; [|done]. split; [done|]. intros w Hw.
    destruct (decide (w = v)) as [->|Hne]; [by rewrite Hfv | by apply Hothers].
  - (* the value is pruned *)
    rewrite Hsup in Hb. injection Hb as <-.
    destruct (pruneValue_effect _ _ _ _ _ _ Hp) as (Hother & Hval & Hcur).
    destruct (pruneValue_log_grows _ _ _ _ _ _ Hp) as [_ Hlogged].
    assert (Hun : getValue (store σ1 v) = None) by (by eapply Hlog).
    assert (Hun0 : getValue (store σ v) = None) by (unfold getValue in *; congruence).
    assert (Hcd1 : curDomain (store σ1 v) = remove_first x (_curdom (store σ v))).
    { unfold curDomain. by rewrite Hun. }
    assert (Hcd0 : curDomain (store σ v) = _curdom (store σ v)).
    { unfold curDomain. by rewrite Hun0. }
    destruct (remove_first_NoDup x _ (Hnd v)) as [Hnd1 Hnotin].
    split; [|intros Hx; rewrite Hcd1 in Hx; done].
    split; [|split; [|split; [|split; [|split]]]].
    + intros w. destruct (decide (w = v)) as [->|Hne];
        [by rewrite Hcur | rewrite Hother by done; apply Hnd].
    + intros f [Hsat Hdom]. split; [done|]. intros w Hw.
      destruct (decide (w = v)) as [->|Hne]; [|rewrite Hother by done; by apply Hdom].
      rewrite Hcd1. pose proof (Hdom v Hw) as Hdv. rewrite Hcd0 in Hdv.
      destruct (remove_first_or x _ _ Hdv) as [H|Hfx]; [done|].
      exfalso. assert (Hcontra : false = true); [|done].
      apply Hiff. exists f. split; [done|]. split; [done|].
      intros w Hw' Hne. by apply Hdom.
    + intros w y. destruct (decide (w = v)) as [->|Hne];
        [|by rewrite Hother by done].
      rewrite Hcd1, Hcd0. apply remove_first_subset.
    + intros d Hd. apply elem_of_app. by left.
    + intros d Hd. apply elem_of_app in Hd as [Hd|Hd]; [by left|]. right.
      unfold to_enqueue in Hd. rewrite first_occurrences_elem, list_elem_of_filter in Hd.
      destruct Hd as [_ Hd]. by eapply refs_in_cs.
    + intros w Hw. destruct (decide (w = v)) as [->|Hne];
        [|by rewrite Hother in Hw by done].
      exists refs. split; [done|]. intros d Hd Hdc. apply elem_of_app.
      destruct (decide (d ∈ wl)) as [Hin|Hnin]; [by left|]. right.
      unfold to_enqueue. rewrite first_occurrences_elem, list_elem_of_filter. done.
Qed.

Lemma visit_values_pass c v xs σ wl σ' f :
  visit_values Γ csp rv rx c v xs σ wl σ' f →
  ∀ wl', f = Continue wl' →
  wf_constraint (Γ c) → v ∈ scope (Γ c) →
  nodup_state σ → unassigned_log (rv, rx) σ' →
  pass_step csp cs c (Γ c) σ wl σ' wl' ∧
  (∀ y, y ∈ xs → y ∈ curDomain (store σ' v) →
        ∃ g, valid (store σ') (Γ c) g ∧ g v = y).
Proof.
  induction 1 as [σ wl|x xs σ wl σ' r Hv|x xs σ wl σ1 wl1 σ' f Hv Hrest IH];
    intros wl' Hf Hwf Hin Hnd Hlog; [| done |].
  - injection Hf as <-. split; [by apply pass_step_refl|].
    intros y Hy. by apply elem_of_nil in Hy.
  - subst f.
    pose proof (unassigned_log_mono _ _ _ _ (visit_values_log_grows _ _ _ _ _ _ _ _ _ _ _ Hrest)
                  Hlog) as Hlog1.
    destruct (visit_value_pass _ _ _ _ _ _ _ Hv Hwf Hin Hnd Hlog1) as [Hstep1 Hwit1].
    destruct (IH wl' eq_refl Hwf Hin (proj1 Hstep1) Hlog) as [Hstep2 Hwit2].
    split; [by eapply pass_step_trans|].
    intros y Hy Hdom. apply elem_of_cons in Hy as [->|Hy]; [|by apply Hwit2].
    destruct Hstep2 as (_ & Hvalid & Hshrink & _).
    destruct Hwit1 as (g & Hg & Hgv); [by apply Hshrink|].
    exists g. split; [by apply Hvalid | done].
Qed.

Lemma visit_scope_pass c vs σ wl σ' f :
  visit_scope Γ csp rv rx c vs σ wl σ' f →
  ∀ wl', f = Continue wl' →
  wf_constraint (Γ c) → (∀ v, v ∈ vs → v ∈ scope (Γ c)) →
  nodup_state σ → unassigned_log (rv, rx) σ' →
  pass_step csp cs c (Γ c) σ wl σ' wl' ∧
  (∀ v y, v ∈ vs → y ∈ curDomain (store σ' v) →
          ∃ g, valid (store σ') (Γ c) g ∧ g v = y).
Proof.
  induction 1 as [σ wl|v vs σ wl σ' r Hv|v vs σ wl σ1 wl1 σ' f Hv Hrest IH];
    intros wl' Hf Hwf Hin Hnd Hlog; [| done |].
  - injection Hf as <-. split; [by apply pass_step_refl|].
    intros v y Hv. by apply elem_of_nil in Hv.
  - subst f.
    pose proof (unassigned_log_mono _ _ _ _ (visit_scope_log_grows _ _ _ _ _ _ _ _ _ _ Hrest)
                  Hlog) as Hlog1.
    assert (Hvin : v ∈ scope (Γ c)) by (apply Hin; left).
    destruct (visit_values_pass _ _ _ _ _ _ _ Hv wl1 eq_refl Hwf Hvin Hnd Hlog1)
      as [Hstep1 Hwit1].
    destruct (IH wl' eq_refl Hwf) as [Hstep2 Hwit2];
      [intros w Hw; apply Hin; by right | apply Hstep1 | done |].
    split; [by eapply pass_step_trans|].
    intros w y Hw Hdom. apply elem_of_cons in Hw as [->|Hw]; [|by apply Hwit2].
    destruct Hstep2 as (_ & Hvalid & Hshrink & _).
    destruct Hstep1 as (_ & _ & Hshrink1 & _).
    destruct (Hwit1 y) as (g & Hg & Hgv); [by auto | by auto |].
    exists g. split; [by apply Hvalid | done].
Qed.

(** After a visit of [c] that pruned no assigned variable, [c] is arc
    consistent. *)
Lemma visit_scope_arc_consistent c σ wl σ' wl' :
  visit_scope Γ csp rv rx c (scope (Γ c)) σ wl σ' (Continue wl') →
  wf_constraint (Γ c) → nodup_state σ → unassigned_log (rv, rx) σ' →
  pass_step csp cs c (Γ c) σ wl σ' wl' ∧ arc_consistent (store σ') (Γ c).
Proof.
  intros Hvisit Hwf Hnd Hlog.
  destruct (visit_scope_pass _ _ _ _ _ _ Hvisit wl' eq_refl Hwf) as [Hstep Hwit];
    [done | done | done |].
  split; [done|]. intros v x Hv Hx.
  destruct (hasSupport_sem (store σ') (Γ c) v x Hwf Hv) as (b & Hb & Hiff).
  rewrite Hb. f_equal. apply Hiff.
  destruct (Hwit v x Hv Hx) as (g & [Hsat Hdom] & Hgv).
  exists g. split; [done|]. split; [done|]. intros w Hw _. by apply Hdom.
Qed.

(** Arc consistency of a constraint only depends on the current domains of
    its scope. *)
Lemma arc_consistent_frame C h h' :
  wf_constraint C →
  (∀ w, w ∈ scope C → curDomain (h' w) = curDomain (h w)) →
  arc_consistent h C → arc_consistent h' C.
Proof.
  intros Hwf Hsame Hac v x Hv Hx.
  destruct (hasSupport_sem h C v x Hwf Hv) as (b & Hb & Hiff).
  destruct (hasSupport_sem h' C v x Hwf Hv) as (b' & Hb' & Hiff').
  rewrite Hb'. f_equal. apply Hiff'.
  rewrite Hsame in Hx by done. rewrite (Hac v x Hv Hx) in Hb. injection Hb as <-.
  destruct (proj1 Hiff eq_refl) as (g & Hsat & Hgv & Hothers).
  exists g. split; [done|]. split; [done|]. intros w Hw Hne.
  rewrite Hsame by done. by apply Hothers.
Qed.

Hypothesis cs_wf : ∀ d, d ∈ cs → wf_constraint (Γ d).
Hypothesis cs_on_file :
  ∀ d w, d ∈ cs → w ∈ scope (Γ d) →
         ∃ refs, referencing csp w = Some refs ∧ d ∈ refs.

(** The invariant of the work list: a constraint of interest is either
    waiting in the work list or arc consistent. *)
Lemma enforce_arc_consistent wl σ σ' r :
  enforce Γ csp rv rx wl σ σ' r → r = OK →
  (∀ d, d ∈ wl → d ∈ cs) →
  nodup_state σ → unassigned_log (rv, rx) σ' →
  ∀ seed : list cref,
    (∀ d, d ∈ seed → d ∈ cs) →
    (∀ d, d ∈ seed → d ∈ wl ∨ arc_consistent (store σ) (Γ d)) →
    ∀ d, d ∈ seed → arc_consistent (store σ') (Γ d).
Proof.
  induction 1 as [σ|c wl σ σ' r Hv|c wl σ σ1 wl1 σ' r Hv Hrest IH];
    intros Hr Hwl Hnd Hlog seed Hseed Hinv d Hd.
  - destruct (Hinv d Hd) as [H|H]; [by apply elem_of_nil in H | done].
  - subst r. by destruct (visit_scope_Return _ _ _ _ _ _ _ _ _ _ Hv OK eq_refl).
  - pose proof (unassigned_log_mono _ _ _ _ (enforce_log_grows _ _ _ _ _ _ _ _ Hrest)
                  Hlog) as Hlog1.
    assert (Hc : c ∈ cs) by (apply Hwl; left).
    destruct (visit_scope_arc_consistent _ _ _ _ _ Hv (cs_wf c Hc) Hnd Hlog1)
      as [(Hnd1 & _ & _ & Hsub & Hnew & Hchanged) Hac].
    apply (IH Hr) with (seed := seed); try done.
    + intros d' Hd'. destruct (Hnew d' Hd') as [H|H]; [|done]. apply Hwl. by right.
    + intros d' Hd'. destruct (decide (d' = c)) as [->|Hne]; [by right|].
      destruct (Hinv d' Hd') as [Hin|Hac'].
      * left. apply Hsub. apply elem_of_cons in Hin as [->|Hin]; done.
      * destruct (decide (Forall (fun w => curDomain (store σ1 w) = curDomain (store σ w))
                            (scope (Γ d')))) as [Hsame|Hdiff].
        -- right. eapply arc_consistent_frame; [by apply cs_wf, Hseed | | done].
           intros w Hw. rewrite Forall_forall in Hsame. by apply Hsame.
        -- left. apply not_Forall_Exists in Hdiff; [|apply _].
           apply Exists_exists in Hdiff as (w & Hw & Hneq).
           destruct (Hchanged w Hneq) as (refs & Hrefs & Hall).
           destruct (cs_on_file d' w (Hseed d' Hd') Hw) as (refs' & Hrefs' & Hin').
           rewrite Hrefs in Hrefs'. injection Hrefs' as <-. by apply Hall.
Qed.

End Pass.

(** ** C7: running propagation again *)

Section Again.

Variable Γ : cref → Constraint.
Variable csp : CSP.
Variable rv : vref.
Variable rx : Value.

Lemma GacEnforce_vals_supported c v xs wl σ :
  (∀ x, x ∈ xs → hasSupport (store σ) (Γ c) v x = Ok true) →
  GacEnforce_vals Γ csp c v xs wl rv rx σ = Ok (Continue wl, σ).
Proof.
  induction xs as [|x xs IH]; intros Hall; [done|].
  rewrite GacEnforce_vals_cons, (Hall x) by left.
  apply IH. intros y Hy. apply Hall. by right.
Qed.

Lemma GacEnforce_scope_supported c vs wl σ :
  (∀ v x, v ∈ vs → x ∈ curDomain (store σ v) →
          hasSupport (store σ) (Γ c) v x = Ok true) →
  GacEnforce_scope Γ csp c vs wl rv rx σ = Ok (Continue wl, σ).
Proof.
  induction vs as [|v vs IH]; intros Hall; simpl; [done|].
  unfold bind, get_var. rewrite GacEnforce_vals_supported.
  - apply IH. intros w x Hw. apply Hall. by right.
  - intros x Hx. apply Hall; [left | done].
Qed.

(** On a state in which the constraints of the work list are arc consistent
    propagation prunes nothing and succeeds. *)
Lemma GacEnforce_consistent fuel : ∀ wl σ,
  (length wl < fuel)%nat →
  (∀ c, c ∈ wl → arc_consistent (store σ) (Γ c)) →
  GacEnforce Γ fuel csp wl rv rx σ = Ok (OK, σ).
Proof.
  induction fuel as [|fuel IH]; intros wl σ Hlen Hall; [lia|].
  destruct wl as [|c wl]; [done|]. simpl in *. unfold bind.
  rewrite GacEnforce_scope_supported.
  - apply IH; [lia|]. intros d Hd. apply Hall. by right.
  - intros v x Hv Hx. apply (Hall c); [left | done | done].
Qed.

End Again.

(** C7 as stated fails, in two ways.

    A scope with a repeated variable: the table over [A, A, B] with the
    tuples [1,1,0], [2,3,0], [3,4,0], [4,5,0], A with domain [1; 2; 3; 4],
    B assigned 0.  The first run prunes 4 and 3 from A and succeeds; the
    second run, on that state and with the same seed, prunes 2 as well.

    An assigned variable without support: A, with domain [1; 2], is assigned
    2 and the only constraint is the unary [A == 1].  The first run prunes 2
    from the list behind A's current domain and succeeds, since the current
    domain of an assigned variable has size 1; the second run finds 2 without
    support again, prints the error of [pruneValue] and logs the pair a
    second time. *)
Lemma GacEnforce_prunes_again :
  (∃ σ1 σ2,
     GacEnforce Ex5.chain 10 Ex5.csp_chain [0%nat] Ex.B 0 Ex5.A1234_B0 = Ok (OK, σ1) ∧
     GacEnforce Ex5.chain 10 Ex5.csp_chain [0%nat] Ex.B 0 σ1 = Ok (OK, σ2) ∧
     _curdom (store σ1 Ex.A) = [1; 2] ∧ _curdom (store σ2 Ex.A) = [1] ∧
     ¬ prunes_nothing σ1 σ2) ∧
  (∃ σ1 σ2,
     GacEnforce Ex4.unary 10 Ex4.csp_unary [0%nat] Ex.A 2
       (after (setValue Ex.A (Some 2)) Ex.A12) = Ok (OK, σ1) ∧
     GacEnforce Ex4.unary 10 Ex4.csp_unary [0%nat] Ex.A 2 σ1 = Ok (OK, σ2) ∧
     events σ2 = events σ1 ++ [PrintPruneError Ex.A 2] ∧
     ¬ prunes_nothing σ1 σ2).
Proof.
  split.
  - eexists _, _. split; [vm_compute; reflexivity|].
    split; [vm_compute; reflexivity|]. split; [reflexivity|]. split; [reflexivity|].
    intros [_ Hdom]. specialize (Hdom Ex.A). vm_compute in Hdom. discriminate Hdom.
  - eexists _, _. split; [vm_compute; reflexivity|].
    split; [vm_compute; reflexivity|]. split; [reflexivity|].
    intros [Hlog _].
    apply (f_equal (fun m => m !! (Ex.A, 2))) in Hlog.
    vm_compute in Hlog. discriminate Hlog.
Qed.

(** C7, amended.  Propagation is idempotent when it did not have to prune
    an assigned variable.  For a CSP built by the constructor, whose
    constraints have no variable twice in their scope (and tables with tuples
    of the length of the scope), a seed work list of constraints of the CSP
    and current domains without repetitions: if [GacEnforce] returns success
    and every pair in the undo log under the reason key concerns an unassigned
    variable, then every seed constraint is arc consistent in the resulting
    state, and invoking [GacEnforce] again on that state with the same seed
    returns success in the very same state: no value is pruned, no pair is
    logged, every current domain is unchanged. *)
Theorem GacEnforce_idempotent
    (Γ : cref → Constraint) (name : string) (vars : list vref) (cs : list cref)
    (csp : CSP) (seed : list cref) (assignedvar : vref) (assignedval : Value)
    (fuel : nat) (σ σ' : State) :
  CSP_init Γ name vars cs = Ok csp →
  (∀ d, d ∈ cs → wf_constraint (Γ d)) →
  (∀ d, d ∈ seed → d ∈ cs) →
  nodup_state σ →
  GacEnforce Γ fuel csp seed assignedvar assignedval σ = Ok (OK, σ') →
  unassigned_log (assignedvar, assignedval) σ' →
  (∀ d, d ∈ seed → arc_consistent (store σ') (Γ d)) ∧
  (∀ fuel', (length seed < fuel')%nat →
     ∃ σ'', GacEnforce Γ fuel' csp seed assignedvar assignedval σ' = Ok (OK, σ'') ∧
            σ'' = σ' ∧ prunes_nothing σ' σ'').
Proof.
  intros Hinit Hwf Hseed Hnd Hrun Hlog.
  destruct (CSP_init_referencing Γ _ _ _ _ Hinit) as (_ & _ & Hscope & Hfile).
  assert (Hac : ∀ d, d ∈ seed → arc_consistent (store σ') (Γ d)).
  { apply (enforce_arc_consistent Γ csp cs assignedvar assignedval) with
      (wl := seed) (σ := σ) (r := OK) (seed := seed); try done.
    - intros w refs d Hrefs Hd.
      destruct (decide (w ∈ vars)) as [Hw|Hw].
      + destruct (Hfile w Hw) as (refs' & Hrefs' & Hiff).
        rewrite Hrefs in Hrefs'. injection Hrefs' as <-. by apply Hiff.
      + exfalso. unfold referencing in Hrefs.
        destruct (CSP_init_referencing Γ _ _ _ _ Hinit) as (Hvars & _).
        unfold variables in Hrefs. rewrite Hvars in Hrefs.
        apply index_None in Hw. by rewrite Hw in Hrefs.
    - intros d w Hd Hw. destruct (Hfile w (Hscope d w Hd Hw)) as (refs & Hrefs & Hiff).
      exists refs. split; [done|]. by apply Hiff.
    - by eapply GacEnforce_sound.
    - intros d Hd. by left. }
  split; [done|]. intros fuel' Hfuel. exists σ'.
  split; [by apply GacEnforce_consistent | done].
Qed.

Lemma GacEnforce_idempotent_witness :
  ∃ σ', GacEnforce Ex2.neq 2 Ex2.csp_neq [0%nat] Ex.A 1 Ex2.AB12_A1 = Ok (OK, σ') ∧
        (∀ d, d ∈ [0%nat] → arc_consistent (store σ') (Ex2.neq d)) ∧
        (∀ fuel', (length [0%nat] < fuel')%nat →
           ∃ σ'', GacEnforce Ex2.neq fuel' Ex2.csp_neq [0%nat] Ex.A 1 σ'
                    = Ok (OK, σ'') ∧
                  σ'' = σ' ∧ prunes_nothing σ' σ'').
Proof.
  eexists. split; [vm_compute; reflexivity|].
  apply (GacEnforce_idempotent Ex2.neq "neq" [Ex.A; Ex.B] [0%nat] Ex2.csp_neq
           [0%nat] Ex.A 1 2 Ex2.AB12_A1).
  - vm_compute. reflexivity.
  - intros d _. split.
    + apply (bool_decide_unpack _). vm_compute. exact I.
    + repeat constructor.
  - intros d Hd. exact Hd.
  - intros w. destruct w as [|[|w]]; apply (bool_decide_unpack _); vm_compute; exact I.
  - vm_compute. reflexivity.
  - intros w y Hin.
    assert (Hwy : (w, y) = (Ex.B, 1)).
    { vm_compute in Hin. apply list_elem_of_singleton in Hin. exact Hin. }
    injection Hwy as -> ->. vm_compute. reflexivity.
Defined.

(** ** Propagation under the invariant of the search *)

Lemma logged_for_app w l1 l2 :
  logged_for w (l1 ++ l2) = logged_for w l1 ++ logged_for w l2.
Proof. unfold logged_for. by rewrite filter_app, fmap_app. Qed.

Lemma log_accounts_refl k σ : log_accounts k σ σ.
Proof.
  exists []. rewrite app_nil_r. split; [done|]. intros w.
  unfold logged_for. simpl. by rewrite app_nil_r.
Qed.

Lemma log_accounts_trans k σ1 σ2 σ3 :
  log_accounts k σ1 σ2 → log_accounts k σ2 σ3 → log_accounts k σ1 σ3.
Proof.
  intros (e1 & H1 & P1) (e2 & H2 & P2). exists (e1 ++ e2). split.
  - by rewrite H2, H1, app_assoc.
  - intros w. rewrite logged_for_app, (P1 w), (P2 w), <- app_assoc.
    f_equiv. apply Permutation_app_comm.
Qed.

Lemma log_accounts_NoDup k σ σ' :
  log_accounts k σ σ' → nodup_state σ → nodup_state σ'.
Proof.
  intros (ext & _ & Hp) Hnd w. specialize (Hnd w). rewrite (Hp w) in Hnd.
  by apply NoDup_app in Hnd as [H _].
Qed.

Lemma pruneValue_log v x rv rx σ σ1 :
  pruneValue v x rv rx σ = Ok (tt, σ1) →
  default [] (undoDict σ1 !! (rv, rx)) = default [] (undoDict σ !! (rv, rx)) ++ [(v, x)].
Proof.
  rewrite pruneValue_unfold. intros [= <-]. simpl. by rewrite lookup_insert_eq.
Qed.

Lemma pruneValue_accounts v x rv rx σ σ1 :
  pruneValue v x rv rx σ = Ok (tt, σ1) → x ∈ _curdom (store σ v) →
  log_accounts (rv, rx) σ σ1.
Proof.
  intros Hp Hx. exists [(v, x)]. split; [by eapply pruneValue_log|].
  destruct (pruneValue_effect _ _ _ _ _ _ Hp) as (Hother & _ & Hcur).
  intros w. unfold logged_for.
  destruct (decide (v = w)) as [<-|Hne].
  - rewrite filter_cons_True by done. simpl.
    rewrite Hcur. rewrite (remove_first_Permutation x _ Hx) at 1.
    apply Permutation_cons_append.
  - rewrite filter_cons_False by done. simpl.
    rewrite app_nil_r. by rewrite Hother by congruence.
Qed.

Section Accounts.

Variable Γ : cref → Constraint.
Variable csp : CSP.
Variable rv : vref.
Variable rx : Value.

Lemma visit_value_others c v x σ wl σ' f :
  visit_value Γ csp rv rx c v x σ wl σ' f →
  (∀ w, w ≠ v → store σ' w = store σ w) ∧
  (∀ y, y ≠ x → y ∈ _curdom (store σ v) → y ∈ _curdom (store σ' v)).
Proof.
  inversion 1 as [|? ? ? Hsup Hp|? ? ? ? Hsup Hp]; subst; [done | |];
    destruct (pruneValue_effect _ _ _ _ _ _ Hp) as (Hother & _ & Hcur);
    (split; [done|]); intros y Hne Hy; rewrite Hcur;
    by destruct (remove_first_or x y _ Hy).
Qed.

Lemma visit_values_others c v xs σ wl σ' f :
  visit_values Γ csp rv rx c v xs σ wl σ' f →
  ∀ w, w ≠ v → store σ' w = store σ w.
Proof.
  induction 1 as [|? ? ? ? ? ? Hv|? ? ? ? ? ? ? ? Hv _ IH]; intros w Hw; [done | |].
  - by apply (visit_value_others _ _ _ _ _ _ _ Hv).
  - rewrite IH by done. by apply (visit_value_others _ _ _ _ _ _ _ Hv).
Qed.

Lemma visit_value_accounts c v x σ wl σ' f :
  visit_value Γ csp rv rx c v x σ wl σ' f → x ∈ _curdom (store σ v) →
  log_accounts (rv, rx) σ σ'.
Proof.
  inversion 1; subst; intros Hx; [apply log_accounts_refl | |];
    by eapply pruneValue_accounts.
Qed.

Lemma visit_values_accounts c v xs σ wl σ' f :
  visit_values Γ csp rv rx c v xs σ wl σ' f →
  NoDup xs → (∀ x, x ∈ xs → x ∈ _curdom (store σ v)) →
  log_accounts (rv, rx) σ σ'.
Proof.
  induction 1 as [|x xs σ wl σ' r Hv|x xs σ wl σ1 wl1 σ' f Hv _ IH]; intros Hnd Hin.
  - apply log_accounts_refl.
  - eapply visit_value_accounts; [done|]. apply Hin. left.
  - apply NoDup_cons in Hnd as [Hx Hnd].
    eapply log_accounts_trans.
    + eapply visit_value_accounts; [done|]. apply Hin. left.
    + apply IH; [done|]. intros y Hy.
      apply (visit_value_others _ _ _ _ _ _ _ Hv); [|apply Hin; by right].
      intros ->. done.
Qed.

Lemma visit_scope_accounts c vs σ wl σ' f :
  visit_scope Γ csp rv rx c vs σ wl σ' f →
  NoDup vs →
  (∀ v, v ∈ vs → NoDup (curDomain (store σ v)) ∧
                 ∀ x, x ∈ curDomain (store σ v) → x ∈ _curdom (store σ v)) →
  log_accounts (rv, rx) σ σ'.
Proof.
  induction 1 as [|v vs σ wl σ' r Hv|v vs σ wl σ1 wl1 σ' f Hv _ IH]; intros Hnd Hin.
  - apply log_accounts_refl.
  - destruct (Hin v) as [H1 H2]; [left|]. by eapply visit_values_accounts.
  - apply NoDup_cons in Hnd as [Hx Hnd].
    destruct (Hin v) as [H1 H2]; [left|].
    eapply log_accounts_trans; [by eapply visit_values_accounts|].
    apply IH; [done|]. intros w Hw.
    rewrite (visit_values_others _ _ _ _ _ _ _ Hv w) by (intros ->; done).
    apply Hin. by right.
Qed.

(** A pruned value has no support, so an assignment that satisfies the
    constraint within the current domains stays within them. *)
Lemma visit_value_fits c v x σ wl σ' f S g :
  visit_value Γ csp rv rx c v x σ wl σ' f →
  wf_constraint (Γ c) → v ∈ scope (Γ c) → (∀ w, w ∈ scope (Γ c) → w ∈ S) →
  sat_fun (Γ c) g → fits S (store σ) g → fits S (store σ') g.
Proof.
  intros Hvisit Hwf Hv HS Hsat Hfit.
  destruct (hasSupport_sem (store σ) (Γ c) v x Hwf Hv) as (b & Hb & Hiff).
  assert (Hstep : ∀ σ1, hasSupport (store σ) (Γ c) v x = Ok false →
            pruneValue v x rv rx σ = Ok (tt, σ1) → fits S (store σ1) g).
  { intros σ1 Hsup Hp. rewrite Hsup in Hb. injection Hb as <-.
    destruct (pruneValue_effect _ _ _ _ _ _ Hp) as (Hother & Hval & Hcur).
    intros w Hw. destruct (decide (w = v)) as [->|Hne];
      [|rewrite Hother by done; by apply Hfit].
    pose proof (Hfit v Hw) as Hfv. unfold curDomain, getValue in Hfv |- *.
    rewrite Hval. destruct (_value (store σ v)) as [y|]; [done|]. rewrite Hcur.
    destruct (remove_first_or x _ _ Hfv) as [H|Hgx]; [done|].
    exfalso. assert (Hcontra : false = true); [|done].
    apply Hiff. exists g. split; [done|]. split; [done|].
    intros w Hw' Hne. apply Hfit. by apply HS. }
  inversion Hvisit; subst; [done | by apply Hstep | by apply Hstep].
Qed.


Lemma visit_values_fits c v xs σ wl σ' f S g :
  visit_values Γ csp rv rx c v xs σ wl σ' f →
  wf_constraint (Γ c) → v ∈ scope (Γ c) → (∀ w, w ∈ scope (Γ c) → w ∈ S) →
  sat_fun (Γ c) g → fits S (store σ) g → fits S (store σ') g.
Proof.
  induction 1 as [|? ? ? ? ? ? Hv|? ? ? ? ? ? ? ? Hv _ IH];
    intros Hwf Hin HS Hsat Hfit; [done | |].
  - by eapply visit_value_fits.
  - apply IH; try done. by eapply visit_value_fits.
Qed.

Lemma visit_scope_fits c vs σ wl σ' f S g :
  visit_scope Γ csp rv rx c vs σ wl σ' f →
  wf_constraint (Γ c) → (∀ v, v ∈ vs → v ∈ scope (Γ c)) →
  (∀ w, w ∈ scope (Γ c) → w ∈ S) →
  sat_fun (Γ c) g → fits S (store σ) g → fits S (store σ') g.
Proof.
  induction 1 as [|? ? ? ? ? ? Hv|? ? ? ? ? ? ? ? Hv _ IH];
    intros Hwf Hin HS Hsat Hfit; [done | |].
  - eapply visit_values_fits; try done. apply Hin. left.
  - apply IH; try done; [intros w Hw; apply Hin; by right|].
    eapply visit_values_fits; try done. apply Hin. left.
Qed.

(** With an assignment valid for the constraint at hand no assigned
    variable is pruned. *)
Lemma visit_value_live c v x σ wl σ' f g :
  visit_value Γ csp rv rx c v x σ wl σ' f →
  wf_constraint (Γ c) → v ∈ scope (Γ c) →
  valid (store σ) (Γ c) g →
  (∀ y, getValue (store σ v) = Some y → x = y) →
  (∀ w, getValue (store σ w) ≠ None → store σ' w = store σ w) ∧
  (unassigned_log (rv, rx) σ → unassigned_log (rv, rx) σ') ∧
  (∀ wl', f = Continue wl' → ∀ w, getValue (store σ w) = None →
     _curdom (store σ w) ≠ [] → _curdom (store σ' w) ≠ []).
Proof.
  intros Hvisit Hwf Hv [Hsat Hfit] Hx.
  destruct (hasSupport_sem (store σ) (Γ c) v x Hwf Hv) as (b & Hb & Hiff).
  assert (Hun : hasSupport (store σ) (Γ c) v x = Ok false →
                getValue (store σ v) = None).
  { intros Hsup. rewrite Hsup in Hb. injection Hb as <-.
    destruct (getValue (store σ v)) as [y|] eqn:Hy; [|done]. exfalso.
    assert (Hcontra : false = true); [|done]. apply Hiff. exists g.
    split; [done|]. split.
    - pose proof (Hfit v Hv) as Hgv. unfold curDomain in Hgv. rewrite Hy in Hgv.
      apply list_elem_of_singleton in Hgv. rewrite Hgv. symmetry. by apply Hx.
    - intros w Hw _. by apply Hfit. }
  assert (Hstep : ∀ σ1, hasSupport (store σ) (Γ c) v x = Ok false →
            pruneValue v x rv rx σ = Ok (tt, σ1) →
            (∀ w, getValue (store σ w) ≠ None → store σ1 w = store σ w) ∧
            (unassigned_log (rv, rx) σ → unassigned_log (rv, rx) σ1)).
  { intros σ1 Hsup Hp. pose proof (Hun Hsup) as Hnone.
    destruct (pruneValue_effect _ _ _ _ _ _ Hp) as (Hother & Hval & Hcur).
    split.
    - intros w Hw. apply Hother. intros ->. done.
    - intros Hlog w y.
      rewrite (pruneValue_log _ _ _ _ _ _ Hp), elem_of_app, list_elem_of_singleton.
      intros [Hin|[= -> ->]].
      + assert (Hsame : getValue (store σ1 w) = getValue (store σ w)).
        { destruct (decide (w = v)) as [->|Hne]; [done | by rewrite Hother]. }
        rewrite Hsame. by eapply Hlog.
      + unfold getValue in *. by rewrite Hval. }
  inversion Hvisit as [|? ? ? Hsup Hp Hsize|? ? ? refs Hsup Hp Hsize Hrefs]; subst.
  - split; [done|]. split; [done|]. by intros ? _ w _ ?.
  - destruct (Hstep _ Hsup Hp) as [H1 H2]. split; [done|]. split; [done|].
    by intros wl' Hf.
  - destruct (Hstep _ Hsup Hp) as [H1 H2]. split; [done|]. split; [done|].
    intros wl' _ w Hw Hne.
    destruct (pruneValue_effect _ _ _ _ _ _ Hp) as (Hother & Hval & Hcur).
    destruct (decide (w = v)) as [->|Hnv]; [|by rewrite Hother].
    intros Hempty. apply Hsize. unfold wiped_out, getValue in *.
    by rewrite Hval, Hw, Hempty.
Qed.

Lemma visit_values_live c v xs σ wl σ' f g :
  visit_values Γ csp rv rx c v xs σ wl σ' f →
  wf_constraint (Γ c) → v ∈ scope (Γ c) →
  valid (store σ) (Γ c) g →
  (∀ y, getValue (store σ v) = Some y → ∀ x, x ∈ xs → x = y) →
  valid (store σ') (Γ c) g ∧
  (∀ w, getValue (store σ w) ≠ None → store σ' w = store σ w) ∧
  (unassigned_log (rv, rx) σ → unassigned_log (rv, rx) σ') ∧
  (∀ wl', f = Continue wl' → ∀ w, getValue (store σ w) = None →
     _curdom (store σ w) ≠ [] → _curdom (store σ' w) ≠ []).
Proof.
  induction 1 as [|x xs σ wl σ' r Hv|x xs σ wl σ1 wl1 σ' f Hv Hrest IH];
    intros Hwf Hin Hvalid Hxs.
  - split; [done|]. split; [done|]. split; [done|]. by intros ? _ w _ ?.
  - destruct (visit_value_live _ _ _ _ _ _ _ g Hv Hwf Hin Hvalid) as (H1 & H2 & _).
    { intros y Hy. apply (Hxs y Hy). left. }
    split; [|split; [done|split; [done | by intros wl' Hf]]].
    destruct Hvalid as [Hsat Hfit]. split; [done|].
    by eapply (visit_value_fits _ _ _ _ _ _ _ (scope (Γ c))).
  - destruct (visit_value_live _ _ _ _ _ _ _ g Hv Hwf Hin Hvalid) as (H1 & H2 & H3).
    { intros y Hy. apply (Hxs y Hy). left. }
    assert (Hvalid1 : valid (store σ1) (Γ c) g).
    { destruct Hvalid as [Hsat Hfit]. split; [done|].
      by eapply (visit_value_fits _ _ _ _ _ _ _ (scope (Γ c))). }
    destruct (visit_value_log_grows _ _ _ _ _ _ _ _ _ _ _ Hv) as [Hsame _].
    destruct IH as (I0 & I1 & I2 & I3); try done.
    { intros y Hy z Hz. apply (Hxs y); [|by right].
      unfold getValue in *. by rewrite <- Hsame. }
    split; [done|]. split; [|split; [by auto|]].
    + intros w Hw. rewrite I1, H1; try done. unfold getValue in *. by rewrite Hsame.
    + intros wl' Hf w Hw Hne. apply (I3 wl' Hf).
      * unfold getValue in *. by rewrite Hsame.
      * by apply (H3 wl1).
Qed.

Lemma visit_scope_live c vs σ wl σ' f g :
  visit_scope Γ csp rv rx c vs σ wl σ' f →
  wf_constraint (Γ c) → (∀ v, v ∈ vs → v ∈ scope (Γ c)) →
  valid (store σ) (Γ c) g →
  valid (store σ') (Γ c) g ∧
  (∀ w, getValue (store σ w) ≠ None → store σ' w = store σ w) ∧
  (unassigned_log (rv, rx) σ → unassigned_log (rv, rx) σ') ∧
  (∀ wl', f = Continue wl' → ∀ w, getValue (store σ w) = None →
     _curdom (store σ w) ≠ [] → _curdom (store σ' w) ≠ []).
Proof.
  assert (Hcur : ∀ σ v y, getValue (store σ v) = Some y →
                   ∀ x, x ∈ curDomain (store σ v) → x = y).
  { intros σ0 v y Hy x. unfold curDomain. rewrite Hy.
    by rewrite list_elem_of_singleton. }
  induction 1 as [|v vs σ wl σ' r Hv|v vs σ wl σ1 wl1 σ' f Hv Hrest IH];
    intros Hwf Hin Hvalid.
  - split; [done|]. split; [done|]. split; [done|]. by intros ? _ w _ ?.
  - destruct (visit_values_live _ _ _ _ _ _ _ g Hv Hwf) as (H0 & H1 & H2 & _);
      [apply Hin; left | done | by apply Hcur |].
    split; [done|]. split; [done|]. split; [done | by intros wl' Hf].
  - destruct (visit_values_live _ _ _ _ _ _ _ g Hv Hwf) as (H0 & H1 & H2 & H3);
      [apply Hin; left | done | by apply Hcur |].
    destruct (visit_values_log_grows _ _ _ _ _ _ _ _ _ _ _ Hv) as [Hsame _].
    destruct IH as (I0 & I1 & I2 & I3); try done.
    { intros w Hw. apply Hin. by right. }
    split; [done|]. split; [|split; [by auto|]].
    + intros w Hw. rewrite I1, H1; try done. unfold getValue in *. by rewrite Hsame.
    + intros wl' Hf w Hw Hne. apply (I3 wl' Hf).
      * unfold getValue in *. by rewrite Hsame.
      * by apply (H3 wl1).
Qed.

(** A visit that goes on after an unassigned variable with a non-empty
    current domain has found a value with support. *)
Lemma visit_values_Continue_valid c v xs σ wl σ' f :
  visit_values Γ csp rv rx c v xs σ wl σ' f →
  ∀ wl', f = Continue wl' →
  wf_constraint (Γ c) → v ∈ scope (Γ c) →
  getValue (store σ v) = None → _curdom (store σ v) = xs → xs ≠ [] →
  ∃ g, valid (store σ) (Γ c) g.
Proof.
  induction 1 as [|x xs σ wl σ' r Hv|x xs σ wl σ1 wl1 σ' f Hv Hrest IH];
    intros wl' Hf Hwf Hin Hnone Hcur Hne; [done | done |].
  destruct (hasSupport_sem (store σ) (Γ c) v x Hwf Hin) as (b & Hb & Hiff).
  inversion Hv as [? ? Hsup|?|? ? ? refs Hsup Hp Hsize Hrefs]; subst.
  - rewrite Hsup in Hb. injection Hb as <-.
    destruct (proj1 Hiff eq_refl) as (g & Hsat & Hgv & Hothers).
    exists g. split; [done|]. intros w Hw.
    destruct (decide (w = v)) as [->|Hnv]; [|by apply Hothers].
    unfold curDomain. rewrite Hnone, Hcur, Hgv. left.
  - destruct (pruneValue_effect _ _ _ _ _ _ Hp) as (Hother & Hval & Hcur1).
    rewrite Hcur in Hcur1. simpl in Hcur1. rewrite decide_True in Hcur1 by done.
    assert (Hnone1 : getValue (store σ1 v) = None)
      by (unfold getValue in *; by rewrite Hval).
    destruct (IH wl' eq_refl Hwf Hin Hnone1 Hcur1) as (g & Hsat & Hfit).
    { intros ->. apply Hsize. by split. }
    exists g. split; [done|]. intros w Hw. specialize (Hfit w Hw).
    destruct (decide (w = v)) as [->|Hnv]; [|by rewrite Hother in Hfit].
    unfold curDomain in *. rewrite Hnone1, Hcur1 in Hfit. rewrite Hnone, Hcur.
    by right.
Qed.

Lemma visit_scope_Continue_valid c vs σ wl σ' f :
  visit_scope Γ csp rv rx c vs σ wl σ' f →
  ∀ wl', f = Continue wl' →
  wf_constraint (Γ c) → (∀ v, v ∈ vs → v ∈ scope (Γ c)) →
  ∀ u, u ∈ vs → getValue (store σ u) = None → _curdom (store σ u) ≠ [] →
  ∃ g, valid (store σ) (Γ c) g.
Proof.
  induction 1 as [|v vs σ wl σ' r Hv|v vs σ wl σ1 wl1 σ' f Hv Hrest IH];
    intros wl' Hf Hwf Hin u Hu Hnone Hne; [by apply elem_of_nil in Hu | done |].
  destruct (decide (u = v)) as [->|Hnv].
  - eapply (visit_values_Continue_valid _ _ _ _ _ _ _ Hv); try done.
    + apply Hin. left.
    + rewrite current_values_curDomain. unfold curDomain. by rewrite Hnone.
    + rewrite current_values_curDomain. unfold curDomain. by rewrite Hnone.
  - apply elem_of_cons in Hu as [->|Hu]; [done|].
    pose proof (visit_values_others _ _ _ _ _ _ _ Hv u Hnv) as Hsame.
    destruct (IH wl' Hf Hwf) with (u := u) as (g & Hsat & Hfit); try done.
    { intros w Hw. apply Hin. by right. }
    { by rewrite Hsame. }
    { by rewrite Hsame. }
    exists g. split; [done|]. intros w Hw.
    eapply (pruned_from_curDomain rv rx); [|by apply Hfit].
    eapply visit_values_pruned; [done | apply pruned_from_refl | done].
Qed.

(** A visit that stops has emptied the current domain of a variable of the
    scope. *)
Lemma visit_values_emptied c v xs σ wl σ' f :
  visit_values Γ csp rv rx c v xs σ wl σ' f →
  ∀ r, f = Return r → curDomain (store σ' v) = [].
Proof.
  induction 1 as [|x xs σ wl σ' r Hv|? ? ? ? ? ? ? ? Hv _ IH]; intros r0 Hf;
    [done | | by eauto].
  inversion Hv as [|? ? ? Hsup Hp Hsize|]; subst.
  destruct Hsize as [Hnone Hnil]. unfold curDomain, getValue. by rewrite Hnone.
Qed.

Lemma visit_scope_emptied c vs σ wl σ' f :
  visit_scope Γ csp rv rx c vs σ wl σ' f →
  ∀ r, f = Return r → ∃ v, v ∈ vs ∧ curDomain (store σ' v) = [].
Proof.
  induction 1 as [|v vs σ wl σ' r Hv|v vs σ wl σ1 wl1 σ' f Hv _ IH]; intros r0 Hf;
    [done | |].
  - exists v. split; [left|]. by eapply visit_values_emptied.
  - destruct (IH r0 Hf) as (u & Hu & He). exists u. split; [by right | done].
Qed.

Variable cs : list cref.
Variable vars : list vref.

Hypothesis refs_in_cs :
  ∀ w refs d, referencing csp w = Some refs → d ∈ refs → d ∈ cs.
Hypothesis cs_wf : ∀ d, d ∈ cs → wf_constraint (Γ d).
Hypothesis cs_scope : ∀ d w, d ∈ cs → w ∈ scope (Γ d) → w ∈ vars.

Lemma visit_value_worklist c v x σ wl σ' f :
  visit_value Γ csp rv rx c v x σ wl σ' f →
  ∀ wl', f = Continue wl' → (∀ d, d ∈ wl → d ∈ cs) → ∀ d, d ∈ wl' → d ∈ cs.
Proof.
  inversion 1 as [| |? ? ? refs Hsup Hp Hsize Hrefs]; subst; intros wl' Hf Hwl;
    [by injection Hf as <- | done |].
  injection Hf as <-. intros d Hd. apply elem_of_app in Hd as [Hd|Hd]; [by apply Hwl|].
  unfold to_enqueue in Hd. rewrite first_occurrences_elem, list_elem_of_filter in Hd.
  destruct Hd as [_ Hd]. by eapply refs_in_cs.
Qed.

Lemma visit_values_worklist c v xs σ wl σ' f :
  visit_values Γ csp rv rx c v xs σ wl σ' f →
  ∀ wl', f = Continue wl' → (∀ d, d ∈ wl → d ∈ cs) → ∀ d, d ∈ wl' → d ∈ cs.
Proof.
  induction 1 as [|? ? ? ? ? ? Hv|? ? ? ? ? ? ? ? Hv _ IH]; intros wl' Hf Hwl;
    [by injection Hf as <- | done |].
  apply IH; [done|]. by eapply visit_value_worklist.
Qed.

Lemma visit_scope_worklist c vs σ wl σ' f :
  visit_scope Γ csp rv rx c vs σ wl σ' f →
  ∀ wl', f = Continue wl' → (∀ d, d ∈ wl → d ∈ cs) → ∀ d, d ∈ wl' → d ∈ cs.
Proof.
  induction 1 as [|? ? ? ? ? ? Hv|? ? ? ? ? ? ? ? Hv _ IH]; intros wl' Hf Hwl;
    [by injection Hf as <- | done |].
  apply IH; [done|]. by eapply visit_values_worklist.
Qed.

(** Propagation never prunes a value that a solution within the current
    domains uses. *)
Lemma enforce_fits wl σ σ' r g :
  enforce Γ csp rv rx wl σ σ' r →
  (∀ d, d ∈ wl → d ∈ cs) →
  (∀ d, d ∈ cs → sat_fun (Γ d) g) →
  fits vars (store σ) g → fits vars (store σ') g.
Proof.
  induction 1 as [|c wl σ σ' r Hv|c wl σ σ1 wl1 σ' r Hv _ IH]; intros Hwl Hsat Hfit;
    [done | |].
  - assert (Hc : c ∈ cs) by (apply Hwl; left).
    eapply (visit_scope_fits _ _ _ _ _ _ vars g Hv);
      [by apply cs_wf | done | intros w Hw; by eapply cs_scope | by apply Hsat | done].
  - assert (Hc : c ∈ cs) by (apply Hwl; left).
    apply IH; [|done|].
    + eapply visit_scope_worklist; [done | done |]. intros d Hd. apply Hwl. by right.
    + eapply (visit_scope_fits _ _ _ _ _ _ vars g Hv);
        [by apply cs_wf | done | intros w Hw; by eapply cs_scope | by apply Hsat | done].
Qed.

Lemma prop_inv_ready σ v :
  prop_inv Γ cs vars (rv, rx) σ →
  NoDup (curDomain (store σ v)) ∧
  ∀ x, x ∈ curDomain (store σ v) → x ∈ _curdom (store σ v).
Proof.
  intros (Hnd & Hheld & _). unfold curDomain.
  destruct (getValue (store σ v)) as [y|] eqn:Hy.
  - split; [apply NoDup_singleton|]. intros x Hx.
    apply list_elem_of_singleton in Hx as ->. by apply Hheld.
  - split; [apply Hnd | done].
Qed.

(** One visit that goes on keeps the invariant of propagation. *)
Lemma visit_scope_prop_inv c σ wl σ' wl' :
  visit_scope Γ csp rv rx c (scope (Γ c)) σ wl σ' (Continue wl') →
  c ∈ cs → prop_inv Γ cs vars (rv, rx) σ → prop_inv Γ cs vars (rv, rx) σ'.
Proof.
  intros Hvisit Hc Hinv.
  pose proof (cs_wf c Hc) as Hwf.
  assert (Hacc : log_accounts (rv, rx) σ σ').
  { eapply visit_scope_accounts; [done | apply Hwf |].
    intros v _. by apply prop_inv_ready. }
  destruct Hinv as (Hnd & Hheld & Hne & Hlive & Hlog).
  assert (Hg : ∃ g, valid (store σ) (Γ c) g).
  { destruct (decide (Exists (fun u => getValue (store σ u) = None) (scope (Γ c))))
      as [Hex|Hall].
    - apply Exists_exists in Hex as (u & Hu & Hnone).
      eapply (visit_scope_Continue_valid _ _ _ _ _ _ Hvisit); try done.
      apply Hne; [by eapply cs_scope | done].
    - apply Hlive; [done|]. intros w Hw Hnone. apply Hall.
      apply Exists_exists. by exists w. }
  destruct Hg as [g Hg].
  destruct (visit_scope_live _ _ _ _ _ _ g Hvisit Hwf) as (_ & H1 & H2 & H3);
    [done | done |].
  destruct (visit_scope_log_grows _ _ _ _ _ _ _ _ _ _ Hvisit) as [Hsame _].
  assert (Hval : ∀ w, getValue (store σ' w) = getValue (store σ w))
    by (intros w; apply Hsame).
  split; [by eapply log_accounts_NoDup|]. split; [|split; [|split; [|by auto]]].
  - intros w y Hy. rewrite Hval in Hy. rewrite H1 by congruence. by apply Hheld.
  - intros w Hw Hnone. rewrite Hval in Hnone. apply (H3 wl' eq_refl); [done|].
    by apply Hne.
  - intros d Hd Hall.
    destruct (Hlive d Hd) as [gd [Hsat Hfit]].
    { intros w Hw. rewrite <- Hval. by apply Hall. }
    exists gd. split; [done|]. intros w Hw. rewrite H1; [by apply Hfit|].
    rewrite <- Hval. by apply Hall.
Qed.

(** Propagation as a whole: the log accounts for every value that has left
    a current domain; success keeps the invariant; wipeout leaves a variable
    with an empty current domain. *)
Lemma enforce_prop_inv wl σ σ' r :
  enforce Γ csp rv rx wl σ σ' r →
  (∀ d, d ∈ wl → d ∈ cs) → prop_inv Γ cs vars (rv, rx) σ →
  log_accounts (rv, rx) σ σ' ∧
  (r = OK → prop_inv Γ cs vars (rv, rx) σ') ∧
  (r = OWO → ∃ v, v ∈ vars ∧ curDomain (store σ' v) = []).
Proof.
  induction 1 as [|c wl σ σ' r Hv|c wl σ σ1 wl1 σ' r Hv _ IH]; intros Hwl Hinv.
  - split; [apply log_accounts_refl|]. split; [done|done].
  - assert (Hc : c ∈ cs) by (apply Hwl; left).
    destruct (visit_scope_Return _ _ _ _ _ _ _ _ _ _ Hv r eq_refl) as [-> _].
    split; [|split; [done|]].
    + eapply visit_scope_accounts; [done | apply (cs_wf c Hc) |].
      intros v _. by apply prop_inv_ready.
    + intros _. destruct (visit_scope_emptied _ _ _ _ _ _ Hv OWO eq_refl)
        as (v & Hin & He).
      exists v. split; [by eapply cs_scope | done].
  - assert (Hc : c ∈ cs) by (apply Hwl; left).
    assert (Hacc : log_accounts (rv, rx) σ σ1).
    { eapply visit_scope_accounts; [done | apply (cs_wf c Hc) |].
      intros v _. by apply prop_inv_ready. }
    destruct IH as (I1 & I2 & I3).
    + eapply visit_scope_worklist; [done | done |]. intros d Hd. apply Hwl. by right.
    + by eapply visit_scope_prop_inv.
    + split; [by eapply log_accounts_trans | done].
Qed.

End Accounts.

(** ** The search enumerates the solutions *)

Lemma solutions_in_app a b :
  solutions_in (a ++ b) = solutions_in a ++ solutions_in b.
Proof. apply omap_app. Qed.

Lemma solutions_in_prints l : Forall is_print l → solutions_in l = [].
Proof.
  induction 1 as [|e l He _ IH]; [done|]. by destruct e.
Qed.

Lemma assignment_of_inj vars f g :
  assignment_of vars f = assignment_of vars g → ∀ w, w ∈ vars → f w = g w.
Proof.
  induction vars as [|v vars IH]; intros Heq w Hw; [by apply elem_of_nil in Hw|].
  injection Heq as Hv Hrest.
  apply elem_of_cons in Hw as [->|Hw]; [done | by apply IH].
Qed.

Lemma enumerates_ext vars P Q new :
  (∀ f, P f ↔ Q f) → enumerates vars P new → enumerates vars Q new.
Proof.
  intros Hext [Hnd Hiff]. split; [done|]. intros a. rewrite Hiff.
  split; intros (f & Hf & ->); exists f; (split; [by apply Hext | done]).
Qed.

Lemma enumerates_none vars P new :
  solutions_in new = [] → (∀ f, ¬ P f) → enumerates vars P new.
Proof.
  intros Hnil Hnone. unfold enumerates. rewrite Hnil. split; [constructor|].
  intros a. split; [intros H; by apply elem_of_nil in H|].
  intros (f & Hf & _). by destruct (Hnone f).
Qed.

Lemma enumerates_shift vars P n1 n2 :
  solutions_in n1 = [] → enumerates vars P n2 → enumerates vars P (n1 ++ n2).
Proof. unfold enumerates. rewrite solutions_in_app. by intros ->. Qed.

Lemma enumerates_app vars P Q n1 n2 :
  enumerates vars P n1 → enumerates vars Q n2 →
  (∀ f g, P f → Q g → assignment_of vars f ≠ assignment_of vars g) →
  enumerates vars (fun f => P f ∨ Q f) (n1 ++ n2).
Proof.
  intros [Hnd1 H1] [Hnd2 H2] Hdisj. unfold enumerates. rewrite solutions_in_app.
  split.
  - apply NoDup_app. split; [done|]. split; [|done].
    intros a Ha1 Ha2. apply H1 in Ha1 as (f & Hf & ->). apply H2 in Ha2 as (g & Hg & Heq).
    by apply (Hdisj f g).
  - intros a. rewrite elem_of_app, H1, H2. split.
    + intros [(f & Hf & ->)|(f & Hf & ->)]; exists f; (split; [|done]); [by left | by right].
    + intros (f & [Hf|Hf] & ->); [left | right]; by exists f.
Qed.

Lemma restoreVal_fold_curdom l : ∀ σ w,
  _curdom (store (fold_left (fun s p => restoreVal (fst p) (snd p) s) l σ) w) =
  _curdom (store σ w) ++ logged_for w l.
Proof.
  induction l as [|[v x] l IH]; intros σ w; simpl.
  - unfold logged_for. simpl. by rewrite app_nil_r.
  - rewrite IH. unfold restoreVal, set_var, upd, logged_for. simpl.
    destruct (decide (v = w)) as [<-|Hne].
    + rewrite filter_cons_True by done. rewrite decide_True by done. simpl.
      by rewrite <- app_assoc.
    + rewrite filter_cons_False by done. by rewrite decide_False by congruence.
Qed.

Lemma restoreValues_curdom rv rx σ σ' :
  restoreValues rv rx σ = Ok (tt, σ') →
  ∀ w, _curdom (store σ' w) =
       _curdom (store σ w) ++ logged_for w (default [] (undoDict σ !! (rv, rx))).
Proof.
  unfold restoreValues. destruct (undoDict σ !! (rv, rx)) as [l|]; intros [= <-] w; simpl.
  - apply restoreVal_fold_curdom.
  - unfold logged_for. simpl. by rewrite app_nil_r.
Qed.

Lemma sat_fun_ext c f g :
  (∀ w, w ∈ scope c → f w = g w) → sat_fun c f → sat_fun c g.
Proof.
  intros Heq. assert (Hmap : f <$> scope c = g <$> scope c).
  { apply list_fmap_ext. intros i w Hw. apply Heq. by eapply list_elem_of_lookup_2. }
  destruct c; simpl in *; by rewrite Hmap.
Qed.

(** Arc consistency only depends on which values the current domains of
    the scope hold. *)
Lemma arc_consistent_equiv C h h' :
  wf_constraint C →
  (∀ w y, w ∈ scope C → y ∈ curDomain (h' w) ↔ y ∈ curDomain (h w)) →
  arc_consistent h C → arc_consistent h' C.
Proof.
  intros Hwf Hsame Hac v x Hv Hx.
  destruct (hasSupport_sem h C v x Hwf Hv) as (b & Hb & Hiff).
  destruct (hasSupport_sem h' C v x Hwf Hv) as (b' & Hb' & Hiff').
  rewrite Hb'. f_equal. apply Hiff'.
  apply Hsame in Hx; [|done]. rewrite (Hac v x Hv Hx) in Hb. injection Hb as <-.
  destruct (proj1 Hiff eq_refl) as (g & Hsat & Hgv & Hothers).
  exists g. split; [done|]. split; [done|]. intros w Hw Hne.
  apply Hsame; [done|]. by apply Hothers.
Qed.

(** An arc-consistent constraint whose scope is fully assigned is
    satisfied by the assigned values. *)
Lemma arc_consistent_assigned h C f :
  wf_constraint C → scope C ≠ [] →
  (∀ w, w ∈ scope C → getValue (h w) = Some (f w)) →
  arc_consistent h C → sat_fun C f.
Proof.
  intros Hwf Hne Hall Hac.
  assert (Hex : ∃ v, v ∈ scope C).
  { destruct (scope C) as [|v vs]; [done|]. exists v. left. }
  destruct Hex as [v Hv].
  destruct (hasSupport_sem h C v (f v) Hwf Hv) as (b & Hb & Hiff).
  rewrite (Hac v (f v) Hv) in Hb.
  - injection Hb as <-. destruct (proj1 Hiff eq_refl) as (g & Hsat & Hgv & Hothers).
    apply (sat_fun_ext C g f); [|done]. intros w Hw.
    destruct (decide (w = v)) as [->|Hnv]; [done|].
    specialize (Hothers w Hw Hnv). unfold curDomain in Hothers.
    rewrite (Hall w Hw) in Hothers. by apply list_elem_of_singleton in Hothers.
  - unfold curDomain. rewrite (Hall v Hv). left.
Qed.

Lemma released_store var σ w :
  store (released var σ) w =
  if decide (w = var)
  then mkVar (_name (store σ var)) (_dom (store σ var)) (_curdom (store σ var)) None
  else store σ w.
Proof. done. Qed.

Lemma released_other var σ w : w ≠ var → store (released var σ) w = store σ w.
Proof. intros Hne. rewrite released_store. by rewrite decide_False. Qed.

Lemma released_fields var σ w :
  _name (store (released var σ) w) = _name (store σ w) ∧
  _dom (store (released var σ) w) = _dom (store σ w) ∧
  _curdom (store (released var σ) w) = _curdom (store σ w) ∧
  (w ≠ var → _value (store (released var σ) w) = _value (store σ w)) ∧
  _value (store (released var σ) var) = None.
Proof.
  unfold released, set_var, upd. simpl.
  destruct (decide (var = var)); [|done].
  destruct (decide (w = var)) as [->|]; done.
Qed.

Lemma similar_refl σ : similar σ σ.
Proof. done. Qed.

Lemma similar_trans σ1 σ2 σ3 : similar σ1 σ2 → similar σ2 σ3 → similar σ1 σ3.
Proof.
  intros (Hs1 & Hc1 & Hu1) (Hs2 & Hc2 & Hu2). split; [|split].
  - intros w. destruct (Hs1 w) as (A1 & A2 & A3). destruct (Hs2 w) as (B1 & B2 & B3).
    split; [congruence|]. split; congruence.
  - intros w. by rewrite Hc2.
  - congruence.
Qed.

Lemma similar_curDomain σ σ' w y :
  similar σ σ' → y ∈ curDomain (store σ' w) ↔ y ∈ curDomain (store σ w).
Proof.
  intros (Hs & Hc & _). destruct (Hs w) as (_ & _ & Hv).
  unfold curDomain, getValue. rewrite Hv.
  destruct (_value (store σ w)); [done|]. by rewrite Hc.
Qed.

Lemma similar_fits S σ σ' g :
  similar σ σ' → fits S (store σ') g ↔ fits S (store σ) g.
Proof.
  intros Hsim. split; intros Hfit w Hw; specialize (Hfit w Hw);
    by apply (similar_curDomain σ σ').
Qed.

Lemma search_inv_similar Γ cs vars pool pool' σ σ' :
  (∀ d, d ∈ cs → wf_constraint (Γ d)) →
  search_inv Γ cs vars pool σ → similar σ σ' → pool' ≡ₚ pool →
  search_inv Γ cs vars pool' σ'.
Proof.
  intros Hcs (Hwf & Hnd & Hndp & Hpv & Hun & Hkeys & Hheld & Hne & Hcons) Hsim Hperm.
  pose proof Hsim as (Hs & Hc & Hu).
  assert (Hval : ∀ w, getValue (store σ' w) = getValue (store σ w)).
  { intros w. destruct (Hs w) as (_ & _ & Hv). done. }
  assert (Hmem : ∀ w, w ∈ pool' ↔ w ∈ pool) by (intros w; by rewrite Hperm).
  split; [|split; [|split; [|split; [|split; [|split; [|split; [|split]]]]]]].
  - intros w. destruct (Hs w) as (_ & Hd & _). destruct (Hwf w) as [W1 W2].
    rewrite Hd, Hval. split; [|done]. intros y. rewrite Hc. apply W1.
  - intros w. rewrite Hc. apply Hnd.
  - by rewrite Hperm.
  - intros w Hw. apply Hpv. by apply Hmem.
  - intros w Hw. rewrite Hmem, Hval. by apply Hun.
  - intros w x Hw. rewrite Hu. apply Hkeys. by apply Hmem.
  - intros w y. rewrite Hval, Hc. apply Hheld.
  - intros w Hw Hnil. apply Hmem in Hw. apply (Hne w Hw).
    specialize (Hc w). rewrite Hnil in Hc. symmetry in Hc. by apply Permutation_nil_r in Hc.
  - intros d Hd (w & Hw & Hass). rewrite Hval in Hass.
    apply (arc_consistent_equiv (Γ d) (store σ)); [by apply Hcs | |].
    + intros w' y _. by apply similar_curDomain.
    + apply Hcons; [done|]. by exists w.
Qed.

(** ** Termination of propagation and monotonicity in the fuel *)

Lemma GacEnforce_mono Γ csp rv rx fuel : ∀ fuel' wl σ x,
  (fuel ≤ fuel')%nat →
  GacEnforce Γ fuel csp wl rv rx σ = Ok x →
  GacEnforce Γ fuel' csp wl rv rx σ = Ok x.
Proof.
  induction fuel as [|fuel IH]; intros fuel' wl σ x Hle Hrun; [done|].
  destruct fuel' as [|fuel']; [lia|]. simpl in *. destruct wl as [|c wl]; [done|].
  unfold bind in *.
  destruct (GacEnforce_scope Γ csp c (scope (Γ c)) wl rv rx σ) as [[f σ1]| |];
    try done.
  destruct f; [done|]. apply IH; [lia | done].
Qed.

Lemma GAC_attempt_mono Γ csp rec rec' fuel fuel' var val pool σ x :
  (∀ p s y, rec p s = Ok y → rec' p s = Ok y) → (fuel ≤ fuel')%nat →
  GAC_attempt Γ rec fuel csp var val pool σ = Ok x →
  GAC_attempt Γ rec' fuel' csp var val pool σ = Ok x.
Proof.
  intros Hrec Hle Hrun. unfold GAC_attempt in *.
  unfold bind at 1 in Hrun. unfold bind at 1.
  destruct (setValue var (Some val) σ) as [[[] σ1]| |]; try done.
  unfold bind at 1 in Hrun. unfold bind at 1. rewrite constraintsOf_referencing in *.
  destruct (referencing csp var) as [refs|]; [|done].
  unfold bind at 1 in Hrun. unfold bind at 1.
  destruct (GacEnforce Γ fuel csp refs var val σ1) as [[r σ2]| |] eqn:Hgac; try done.
  rewrite (GacEnforce_mono _ _ _ _ _ _ _ _ _ Hle Hgac).
  unfold bind at 1 in Hrun. unfold bind at 1. destruct r; [done|].
  destruct (rec pool σ2) as [[p3 σ3]| |] eqn:Hrec3; try done.
  by rewrite (Hrec _ _ _ Hrec3).
Qed.

Lemma GAC_vals_mono Γ csp rec rec' fuel fuel' var vals : ∀ pool σ x,
  (∀ p s y, rec p s = Ok y → rec' p s = Ok y) → (fuel ≤ fuel')%nat →
  GAC_vals Γ rec fuel csp var vals pool σ = Ok x →
  GAC_vals Γ rec' fuel' csp var vals pool σ = Ok x.
Proof.
  induction vals as [|val vals IH]; intros pool σ x Hrec Hle Hrun; [done|].
  simpl in *. unfold bind in *.
  destruct (GAC_attempt Γ rec fuel csp var val pool σ) as [[p1 σ1]| |] eqn:Hatt;
    try done.
  rewrite (GAC_attempt_mono _ _ _ _ _ _ _ _ _ _ _ Hrec Hle Hatt). by apply IH.
Qed.

Lemma GAC_mono Γ csp fuel : ∀ fuel' pool σ x,
  (fuel ≤ fuel')%nat →
  GAC Γ fuel pool csp σ = Ok x → GAC Γ fuel' pool csp σ = Ok x.
Proof.
  induction fuel as [|fuel IH]; intros fuel' pool σ x Hle Hrun; [done|].
  destruct fuel' as [|fuel']; [lia|]. simpl in *. destruct pool as [|var pool]; [done|].
  unfold bind at 1 in Hrun. unfold bind at 1.
  destruct (mark_select csp var (var :: pool) σ) as [[[] σ1]| |]; try done.
  unfold bind at 1 in Hrun. unfold bind at 1. unfold get_var in *.
  unfold bind at 1 in Hrun. unfold bind at 1.
  destruct (GAC_vals Γ (fun p => GAC Γ fuel p csp) fuel csp var
              (curDomain (store σ1 var)) pool σ1) as [[p2 σ2]| |] eqn:Hvals; try done.
  rewrite (GAC_vals_mono Γ csp (fun p => GAC Γ fuel p csp) (fun p => GAC Γ fuel' p csp)
             fuel fuel' var _ pool σ1 (p2, σ2)); [done | | lia | done].
  intros p s y. apply IH. lia.
Qed.

Lemma sum_list_with_le {A} (f g : A → nat) (l : list A) :
  (∀ x, x ∈ l → (f x ≤ g x)%nat) → (sum_list_with f l ≤ sum_list_with g l)%nat.
Proof.
  induction l as [|a l IH]; intros Hle; simpl; [done|].
  pose proof (Hle a ltac:(left)). 
  assert ((sum_list_with f l ≤ sum_list_with g l)%nat); [|lia].
  apply IH. intros x Hx. apply Hle. by right.
Qed.

Lemma sum_list_with_lt {A} (f g : A → nat) (l : list A) (v : A) :
  (∀ x, x ∈ l → (f x ≤ g x)%nat) → v ∈ l → (f v < g v)%nat →
  (sum_list_with f l < sum_list_with g l)%nat.
Proof.
  induction l as [|a l IH]; intros Hle Hv Hlt; simpl; [by apply elem_of_nil in Hv|].
  pose proof (Hle a ltac:(left)).
  assert (Hrest : ∀ x, x ∈ l → (f x ≤ g x)%nat) by (intros x Hx; apply Hle; by right).
  apply elem_of_cons in Hv as [->|Hv].
  - pose proof (sum_list_with_le f g l Hrest). lia.
  - pose proof (IH Hrest Hv Hlt). lia.
Qed.

Lemma remove_first_length (x : Value) (l : list Value) :
  (length (remove_first x l) ≤ length l)%nat ∧
  (x ∈ l → length l = S (length (remove_first x l))).
Proof.
  induction l as [|y l [IH1 IH2]]; simpl.
  - split; [done|]. intros H. by apply elem_of_nil in H.
  - destruct (decide (y = x)) as [->|Hne]; simpl; [split; [lia | done]|].
    split; [lia|]. intros Hin. apply elem_of_cons in Hin as [->|Hin]; [done|].
    by rewrite (IH2 Hin).
Qed.

Lemma pruneValue_size vars v x rv rx σ σ1 :
  pruneValue v x rv rx σ = Ok (tt, σ1) →
  (total_size vars σ1 ≤ total_size vars σ)%nat ∧
  (x ∈ _curdom (store σ v) → v ∈ vars →
   (total_size vars σ1 < total_size vars σ)%nat).
Proof.
  intros Hp. destruct (pruneValue_effect _ _ _ _ _ _ Hp) as (Hother & _ & Hcur).
  destruct (remove_first_length x (_curdom (store σ v))) as [Hle Heq].
  assert (Hall : ∀ w, w ∈ vars →
            (length (_curdom (store σ1 w)) ≤ length (_curdom (store σ w)))%nat).
  { intros w _. destruct (decide (w = v)) as [->|Hne]; [by rewrite Hcur|].
    by rewrite Hother. }
  split; [by apply sum_list_with_le|]. intros Hx Hv.
  apply (sum_list_with_lt _ _ vars v); [done | done |].
  rewrite Hcur, (Heq Hx). lia.
Qed.

Section Total.

Variable Γ : cref → Constraint.
Variable csp : CSP.
Variable rv : vref.
Variable rx : Value.
Variable cs : list cref.
Variable vars : list vref.

Hypothesis refs_in_cs :
  ∀ w refs d, referencing csp w = Some refs → d ∈ refs → d ∈ cs.
Hypothesis cs_wf : ∀ d, d ∈ cs → wf_constraint (Γ d).
Hypothesis cs_scope : ∀ d w, d ∈ cs → w ∈ scope (Γ d) → w ∈ vars.
Hypothesis refs_total : ∀ w, w ∈ vars → is_Some (referencing csp w).

Lemma visit_value_total c v x σ wl :
  wf_constraint (Γ c) → v ∈ scope (Γ c) → is_Some (referencing csp v) →
  ∃ σ' f, visit_value Γ csp rv rx c v x σ wl σ' f.
Proof.
  intros Hwf Hv [refs Hrefs].
  destruct (hasSupport_sem (store σ) (Γ c) v x Hwf Hv) as ([|] & Hb & _).
  - eexists _, _. by apply value_supported.
  - assert (Hp : ∃ σ1, pruneValue v x rv rx σ = Ok (tt, σ1))
      by (eexists; apply pruneValue_unfold).
    destruct Hp as [σ1 Hp].
    destruct (decide (curDomainSize (store σ1 v) = 0%nat)) as [Hz|Hz];
      rewrite <- wiped_out_curDomainSize in Hz.
    + eexists _, _. by eapply value_wipeout.
    + eexists _, _. by eapply value_pruned.
Qed.

Lemma visit_values_total c v xs : ∀ σ wl,
  wf_constraint (Γ c) → v ∈ scope (Γ c) → is_Some (referencing csp v) →
  ∃ σ' f, visit_values Γ csp rv rx c v xs σ wl σ' f.
Proof.
  induction xs as [|x xs IH]; intros σ wl Hwf Hv Hrefs.
  - eexists _, _. constructor.
  - destruct (visit_value_total c v x σ wl Hwf Hv Hrefs) as (σ1 & [r|wl1] & H1).
    + eexists _, _. by eapply values_stop.
    + destruct (IH σ1 wl1 Hwf Hv Hrefs) as (σ' & f & H2).
      eexists _, _. by eapply values_next.
Qed.

Lemma visit_scope_total c vs : ∀ σ wl,
  wf_constraint (Γ c) →
  (∀ v, v ∈ vs → v ∈ scope (Γ c) ∧ is_Some (referencing csp v)) →
  ∃ σ' f, visit_scope Γ csp rv rx c vs σ wl σ' f.
Proof.
  induction vs as [|v vs IH]; intros σ wl Hwf Hall.
  - eexists _, _. constructor.
  - destruct (Hall v) as [Hv Hrefs]; [left|].
    destruct (visit_values_total c v (curDomain (store σ v)) σ wl Hwf Hv Hrefs)
      as (σ1 & [r|wl1] & H1).
    + eexists _, _. by eapply scope_stop.
    + destruct (IH σ1 wl1 Hwf) as (σ' & f & H2).
      { intros w Hw. apply Hall. by right. }
      eexists _, _. by eapply scope_next.
Qed.

(** A step either changes nothing or takes a value out of a current
    domain. *)
Lemma visit_value_size c v x σ wl σ' f :
  visit_value Γ csp rv rx c v x σ wl σ' f →
  v ∈ vars → x ∈ _curdom (store σ v) →
  (σ' = σ ∧ f = Continue wl) ∨ (total_size vars σ' < total_size vars σ)%nat.
Proof.
  inversion 1 as [|? ? ? Hsup Hp|? ? ? ? Hsup Hp]; subst; intros Hv Hx; [by left | |];
    right; by apply (pruneValue_size vars _ _ _ _ _ _ Hp).
Qed.

Lemma visit_value_size_le c v x σ wl σ' f :
  visit_value Γ csp rv rx c v x σ wl σ' f →
  (total_size vars σ' ≤ total_size vars σ)%nat.
Proof.
  inversion 1 as [|? ? ? Hsup Hp|? ? ? ? Hsup Hp]; subst; [done | |];
    by apply (pruneValue_size vars _ _ _ _ _ _ Hp).
Qed.

Lemma visit_values_size_le c v xs σ wl σ' f :
  visit_values Γ csp rv rx c v xs σ wl σ' f →
  (total_size vars σ' ≤ total_size vars σ)%nat.
Proof.
  induction 1 as [|? ? ? ? ? ? Hv|? ? ? ? ? ? ? ? Hv _ IH]; [done | |].
  - by eapply visit_value_size_le.
  - pose proof (visit_value_size_le _ _ _ _ _ _ _ Hv). lia.
Qed.

Lemma visit_scope_size_le c vs σ wl σ' f :
  visit_scope Γ csp rv rx c vs σ wl σ' f →
  (total_size vars σ' ≤ total_size vars σ)%nat.
Proof.
  induction 1 as [|? ? ? ? ? ? Hv|? ? ? ? ? ? ? ? Hv _ IH]; [done | |].
  - by eapply visit_values_size_le.
  - pose proof (visit_values_size_le _ _ _ _ _ _ _ Hv). lia.
Qed.

Lemma visit_values_size c v xs σ wl σ' f :
  visit_values Γ csp rv rx c v xs σ wl σ' f →
  v ∈ vars → NoDup xs → (∀ x, x ∈ xs → x ∈ _curdom (store σ v)) →
  (σ' = σ ∧ f = Continue wl) ∨ (total_size vars σ' < total_size vars σ)%nat.
Proof.
  induction 1 as [|x xs σ wl σ' r Hv|x xs σ wl σ1 wl1 σ' f Hv Hrest IH];
    intros Hvars Hnd Hin.
  - by left.
  - destruct (visit_value_size _ _ _ _ _ _ _ Hv Hvars) as [[_ ?]|Hlt];
      [apply Hin; left | done | by right].
  - apply NoDup_cons in Hnd as [Hx Hnd].
    destruct (visit_value_size _ _ _ _ _ _ _ Hv Hvars) as [[-> [= ->]]|Hlt];
      [apply Hin; left | |].
    + apply IH; [done | done |]. intros y Hy. apply Hin. by right.
    + right. pose proof (visit_values_size_le _ _ _ _ _ _ _ Hrest). lia.
Qed.

Lemma visit_scope_size c vs σ wl σ' f :
  visit_scope Γ csp rv rx c vs σ wl σ' f →
  (∀ v, v ∈ vs → v ∈ vars) → NoDup vs →
  (∀ v, v ∈ vs → NoDup (curDomain (store σ v)) ∧
                 ∀ x, x ∈ curDomain (store σ v) → x ∈ _curdom (store σ v)) →
  (σ' = σ ∧ f = Continue wl) ∨ (total_size vars σ' < total_size vars σ)%nat.
Proof.
  induction 1 as [|v vs σ wl σ' r Hv|v vs σ wl σ1 wl1 σ' f Hv Hrest IH];
    intros Hvars Hnd Hin.
  - by left.
  - destruct (Hin v) as [H1 H2]; [left|].
    destruct (visit_values_size _ _ _ _ _ _ _ Hv) as [[_ ?]|Hlt];
      [apply Hvars; left | done | done | done | by right].
  - apply NoDup_cons in Hnd as [Hx Hnd].
    destruct (Hin v) as [H1 H2]; [left|].
    destruct (visit_values_size _ _ _ _ _ _ _ Hv) as [[-> [= ->]]|Hlt];
      [apply Hvars; left | done | done | |].
    + apply IH; [intros w Hw; apply Hvars; by right | done |].
      intros w Hw. apply Hin. by right.
    + right. pose proof (visit_scope_size_le _ _ _ _ _ _ Hrest). lia.
Qed.

(** Propagation terminates from a state that satisfies its invariant. *)
Lemma enforce_total n : ∀ wl σ,
  (total_size vars σ ≤ n)%nat →
  (∀ d, d ∈ wl → d ∈ cs) → prop_inv Γ cs vars (rv, rx) σ →
  ∃ σ' r, enforce Γ csp rv rx wl σ σ' r.
Proof.
  induction n as [n IHn] using lt_wf_ind.
  induction wl as [|c wl IHwl]; intros σ Hsize Hwl Hinv.
  - eexists _, _. constructor.
  - assert (Hc : c ∈ cs) by (apply Hwl; left).
    destruct (visit_scope_total c (scope (Γ c)) σ wl (cs_wf c Hc)) as (σ1 & f & Hv).
    { intros v Hv. split; [done|]. apply refs_total. by eapply cs_scope. }
    destruct f as [r|wl1]; [eexists _, _; by eapply enforce_stop|].
    assert (Hwl1 : ∀ d, d ∈ wl1 → d ∈ cs).
    { eapply (visit_scope_worklist Γ csp rv rx cs refs_in_cs); [done | done |].
      intros d Hd. apply Hwl. by right. }
    pose proof (visit_scope_prop_inv Γ csp rv rx cs vars cs_wf cs_scope
                  _ _ _ _ _ Hv Hc Hinv) as Hinv1.
    destruct (visit_scope_size _ _ _ _ _ _ Hv) as [[-> [= ->]]|Hlt].
    + intros v Hv'. by eapply cs_scope.
    + apply (cs_wf c Hc).
    + intros v _. by eapply prop_inv_ready.
    + destruct (IHwl σ Hsize) as (σ' & r & Henf); [intros d Hd; apply Hwl; by right | done |].
      eexists _, _. by eapply enforce_next.
    + destruct (IHn (total_size vars σ1)) with (wl := wl1) (σ := σ1) as (σ' & r & Henf);
        [lia | done | done | done |].
      eexists _, _. by eapply enforce_next.
Qed.

End Total.

(** ** The search on CSPs whose constraints have at least two variables *)

Lemma arc_consistent_valid h C u x :
  wf_constraint C → u ∈ scope C → x ∈ curDomain (h u) → arc_consistent h C →
  ∃ g, valid h C g ∧ g u = x.
Proof.
  intros Hwf Hu Hx Hac.
  destruct (hasSupport_sem h C u x Hwf Hu) as (b & Hb & Hiff).
  rewrite (Hac u x Hu Hx) in Hb. injection Hb as <-.
  destruct (proj1 Hiff eq_refl) as (g & Hsat & Hgu & Hothers).
  exists g. split; [|done]. split; [done|]. intros w Hw.
  destruct (decide (w = u)) as [->|Hne]; [by rewrite Hgu | by apply Hothers].
Qed.

Section SearchCorrect.

Variable Γ : cref → Constraint.
Variable csp : CSP.
Variable cs : list cref.
Variable vars : list vref.

Hypothesis csp_vars : variables csp = vars.
Hypothesis refs_vars : ∀ w refs, referencing csp w = Some refs → w ∈ vars.
Hypothesis refs_iff :
  ∀ v, v ∈ vars →
    ∃ refs, referencing csp v = Some refs ∧
            ∀ c, c ∈ refs ↔ c ∈ cs ∧ v ∈ scope (Γ c).
Hypothesis cs_wf : ∀ d, d ∈ cs → wf_constraint (Γ d).
Hypothesis cs_scope : ∀ d w, d ∈ cs → w ∈ scope (Γ d) → w ∈ vars.
Hypothesis cs_two : ∀ d, d ∈ cs → (2 ≤ length (scope (Γ d)))%nat.

Lemma refs_in_cs w refs d : referencing csp w = Some refs → d ∈ refs → d ∈ cs.
Proof.
  intros Hrefs Hd.
  destruct (refs_iff w (refs_vars _ _ Hrefs)) as (refs' & Hrefs' & Hiff).
  rewrite Hrefs in Hrefs'. injection Hrefs' as <-. by apply Hiff.
Qed.

Lemma cs_on_file d w :
  d ∈ cs → w ∈ scope (Γ d) → ∃ refs, referencing csp w = Some refs ∧ d ∈ refs.
Proof.
  intros Hd Hw. destruct (refs_iff w (cs_scope d w Hd Hw)) as (refs & Hrefs & Hiff).
  exists refs. split; [done|]. by apply Hiff.
Qed.

Lemma scope_other d v : d ∈ cs → ∃ w, w ∈ scope (Γ d) ∧ w ≠ v.
Proof.
  intros Hd. pose proof (cs_two d Hd) as Hlen. destruct (cs_wf d Hd) as [Hnd _].
  destruct (scope (Γ d)) as [|a [|b l]]; simpl in Hlen; [lia | lia |].
  destruct (decide (a = v)) as [->|Hne].
  - exists b. split; [right; left|]. intros ->.
    apply NoDup_cons in Hnd as [Hnd _]. apply Hnd. left.
  - exists a. split; [left | done].
Qed.

Lemma setValue_assigned self x σ :
  x ∈ _dom (store σ self) → setValue self (Some x) σ = Ok (tt, assigned self x σ).
Proof. apply setValue_Some_ok. Qed.

(** The state right after the assignment [var = val] made at a decision
    point: the invariant of propagation holds under the key [(var, val)]. *)
Lemma assigned_props var val pool σ :
  wf_state σ → search_inv Γ cs vars (var :: pool) (released var σ) →
  val ∈ _curdom (store σ var) →
  wf_state (assigned var val σ) ∧
  prop_inv Γ cs vars (var, val) (assigned var val σ) ∧
  (∀ w, w ≠ var → store (assigned var val σ) w = store (released var σ) w) ∧
  curDomain (store (assigned var val σ) var) = [val] ∧
  (∀ w, _curdom (store (assigned var val σ) w) = _curdom (store σ w)) ∧
  (∀ f, fits vars (store (assigned var val σ)) f ↔
        fits vars (store (released var σ)) f ∧ f var = val).
Proof.
  intros Hwf Hinv Hval.
  pose proof Hinv as (Hwfr & Hndr & Hndp & Hpv & Hun & Hkeys & Hheld & Hne & Hcons).
  assert (Hvv : var ∈ vars) by (apply Hpv; left).
  assert (Hrel : ∀ w, w ≠ var → store (released var σ) w = store σ w)
    by (intros w; apply released_other).
  set (σ1 := assigned var val σ).
  assert (Hσ1 : ∀ w, w ≠ var → store σ1 w = store σ w).
  { intros w Hw. unfold σ1, assigned, set_var, upd. simpl. by rewrite decide_False. }
  assert (Hσ1v : store σ1 var =
                 mkVar (_name (store σ var)) (_dom (store σ var))
                   (_curdom (store σ var)) (Some val)).
  { unfold σ1, assigned, set_var, upd. simpl. by rewrite decide_True. }
  assert (Hσ1r : ∀ w, w ≠ var → store σ1 w = store (released var σ) w).
  { intros w Hw. by rewrite Hσ1, Hrel. }
  assert (Hcur1 : ∀ w, _curdom (store σ1 w) = _curdom (store σ w)).
  { intros w. destruct (decide (w = var)) as [->|Hw]; [by rewrite Hσ1v | by rewrite Hσ1]. }
  assert (Hcd1 : curDomain (store σ1 var) = [val]) by (by rewrite Hσ1v).
  assert (Hcdr : curDomain (store (released var σ) var) = _curdom (store σ var)).
  { destruct (released_fields var σ var) as (_ & _ & Hc & _ & Hv).
    unfold curDomain, getValue. by rewrite Hv, Hc. }
  assert (Hkey1 : undoDict σ1 !! (var, val) = None) by (apply Hkeys; left).
  split; [|split; [|split; [done|split; [done|split; [done|]]]]].
  - intros w. destruct (decide (w = var)) as [->|Hw].
    + rewrite Hσ1v. simpl. split; [apply Hwf|]. intros y [= <-].
      by apply (proj1 (Hwf var)).
    + rewrite Hσ1 by done. apply Hwf.
  - split; [|split; [|split; [|split]]].
    + intros w. rewrite Hcur1. destruct (released_fields var σ w) as (_ & _ & <- & _).
      apply Hndr.
    + intros w y Hy. destruct (decide (w = var)) as [->|Hnv].
      * rewrite Hσ1v in Hy |- *. simpl in *. by injection Hy as <-.
      * rewrite Hσ1r in Hy |- * by done. by apply Hheld.
    + intros w Hw Hnone. assert (Hnv : w ≠ var).
      { intros ->. by rewrite Hσ1v in Hnone. }
      rewrite Hσ1r in Hnone |- * by done. apply Hne. by apply Hun.
    + intros d Hd Hall.
      assert (Hac : arc_consistent (store (released var σ)) (Γ d)).
      { apply Hcons; [done|]. destruct (scope_other d var Hd) as (w & Hw & Hnv).
        exists w. split; [done|]. rewrite <- Hσ1r by done. by apply Hall. }
      assert (Hg : ∃ g, valid (store (released var σ)) (Γ d) g ∧
                        (var ∈ scope (Γ d) → g var = val)).
      { destruct (decide (var ∈ scope (Γ d))) as [Hin|Hnin].
        - destruct (arc_consistent_valid (store (released var σ)) (Γ d) var val
                      (cs_wf d Hd) Hin) as (g & Hg & Hgv);
            [by rewrite Hcdr | done |].
          by exists g.
        - destruct (scope_other d var Hd) as (w & Hw & Hnv).
          destruct (getValue (store (released var σ) w)) as [y|] eqn:Hy.
          + destruct (arc_consistent_valid (store (released var σ)) (Γ d) w y
                        (cs_wf d Hd) Hw) as (g & Hg & _);
              [unfold curDomain; rewrite Hy; left | done |].
            exists g. split; [done|]. by intros Hin.
          + exfalso. apply (Hall w Hw). by rewrite Hσ1r. }
      destruct Hg as (g & [Hsat Hfit] & Hgv). exists g. split; [done|].
      intros w Hw. destruct (decide (w = var)) as [->|Hnv].
      * rewrite Hcd1, (Hgv Hw). left.
      * rewrite Hσ1r by done. by apply Hfit.
    + intros w y. rewrite Hkey1. simpl. intros H. by apply elem_of_nil in H.
  - intros f. split.
    + intros Hfit. assert (Hfv : f var = val).
      { specialize (Hfit var Hvv). rewrite Hcd1 in Hfit.
        by apply list_elem_of_singleton in Hfit. }
      split; [|done]. intros w Hw. destruct (decide (w = var)) as [->|Hnv].
      * by rewrite Hcdr, Hfv.
      * rewrite <- Hσ1r by done. by apply Hfit.
    + intros [Hfit Hfv] w Hw. destruct (decide (w = var)) as [->|Hnv].
      * rewrite Hcd1, Hfv. left.
      * rewrite Hσ1r by done. by apply Hfit.
Qed.

(** After the propagation of [var = val] has succeeded the invariant of
    the search holds again, for the rest of the pool. *)
Lemma propagated_search_inv var val pool σ refs σ2 :
  wf_state σ → search_inv Γ cs vars (var :: pool) (released var σ) →
  val ∈ _curdom (store σ var) →
  referencing csp var = Some refs →
  enforce Γ csp var val refs (assigned var val σ) σ2 OK →
  search_inv Γ cs vars pool σ2.
Proof.
  intros Hwf Hinv Hval Hrefs Henf.
  pose proof Hinv as (Hwfr & Hndr & Hndp & Hpv & Hun & Hkeys & Hheld & Hne & Hcons).
  apply NoDup_cons in Hndp as [Hvar Hndp].
  assert (Hvv : var ∈ vars) by (apply Hpv; left).
  destruct (assigned_props var val pool σ Hwf Hinv Hval)
    as (Hwf1 & Hpinv1 & Hσ1r & Hcd1 & Hcur1 & Hfits1).
  set (σ1 := assigned var val σ) in *.
  destruct (refs_iff var Hvv) as (refs' & Hrefs' & Hrefs_iff).
  rewrite Hrefs in Hrefs'. injection Hrefs' as <-.
  assert (Hrefs_cs : ∀ d, d ∈ refs → d ∈ cs) by (intros d Hd; by apply Hrefs_iff).
  destruct (enforce_prop_inv Γ csp var val cs vars refs_in_cs cs_wf cs_scope
              _ _ _ _ Henf Hrefs_cs Hpinv1) as (_ & HOK & _).
  destruct (HOK eq_refl) as (Hnd2 & Hheld2 & Hne2 & _ & Hlog2).
  pose proof (enforce_pruned _ _ _ _ _ _ _ _ Henf _ (pruned_from_refl _ _ _)) as Hpr.
  pose proof (pruned_from_wf _ _ _ _ Hpr Hwf1) as Hwf2.
  destruct Hpr as (Hs12 & _ & Hk12 & _).
  assert (Hval2 : ∀ w, getValue (store σ2 w) = getValue (store σ1 w)).
  { intros w. apply Hs12. }
  assert (Hv1 : getValue (store σ1 var) = Some val).
  { unfold σ1, assigned, set_var, upd. simpl. by rewrite decide_True. }
  split; [done|]. split; [done|]. split; [done|].
  split; [intros w Hw; apply Hpv; by right|].
  split; [|split; [|split; [done|split]]].
  - intros w Hw. rewrite Hval2. destruct (decide (w = var)) as [->|Hnv].
    + rewrite Hv1. done.
    + rewrite Hσ1r by done. rewrite <- (Hun w Hw). rewrite elem_of_cons. tauto.
  - intros w x Hw. rewrite Hk12 by (intros [= -> _]; done). apply Hkeys. by right.
  - intros w Hw. assert (Hnv : w ≠ var) by (intros ->; done).
    apply Hne2; [apply Hpv; by right|].
    rewrite Hval2, Hσ1r by done. apply Hun; [apply Hpv; by right | by right].
  - intros d Hd (w & Hw & Hass).
    apply (enforce_arc_consistent Γ csp cs var val refs_in_cs cs_wf cs_on_file
             refs σ1 σ2 OK Henf eq_refl Hrefs_cs (proj1 Hpinv1) Hlog2 [d]).
    + intros d' Hd'. by apply list_elem_of_singleton in Hd' as ->.
    + intros d' Hd'. apply list_elem_of_singleton in Hd' as ->.
      destruct (decide (var ∈ scope (Γ d))) as [Hin|Hnin].
      * left. by apply Hrefs_iff.
      * right. apply (arc_consistent_equiv (Γ d) (store (released var σ)));
          [by apply cs_wf | |].
        -- intros w' y Hw'. rewrite Hσ1r; [done|]. intros ->. done.
        -- apply Hcons; [done|]. exists w. split; [done|].
           rewrite <- Hσ1r by (intros ->; done). by rewrite <- Hval2.
    + by left.
Qed.

(** One attempt [(var, val)] hands to the sink exactly the solutions with
    [var = val], and leaves the state as it found it, up to the order of the
    values in the current domains and the value of [var]. *)
Lemma GAC_attempt_correct rec fuel var val pool σ pool1 σ4 :
  (∀ p s p' s', rec p s = Ok (p', s') → GAC_pre p s → GAC_post csp p s p' s') →
  (∀ p s p' s', rec p s = Ok (p', s') → search_inv Γ cs vars p s →
     (∀ w, _curdom (store s' w) ≡ₚ _curdom (store s w)) ∧
     ∃ new, events s' = events s ++ new ∧ enumerates vars (solves Γ cs vars s) new) →
  GAC_attempt Γ rec fuel csp var val pool σ = Ok (pool1, σ4) →
  wf_state σ → search_inv Γ cs vars (var :: pool) (released var σ) →
  val ∈ _curdom (store σ var) →
  wf_state σ4 ∧ similar (released var σ) (released var σ4) ∧ pool1 ≡ₚ pool ∧
  ∃ new, events σ4 = events σ ++ new ∧
         enumerates vars
           (fun f => solves Γ cs vars (released var σ) f ∧ f var = val) new.
Proof.
  intros Hrec1 Hrec2 Hrun Hwf Hinv Hval.
  pose proof Hinv as (Hwfr & Hndr & Hndp & Hpv & Hun & Hkeys & Hheld & Hne & Hcons).
  apply NoDup_cons in Hndp as [Hvar Hndp].
  assert (Hvv : var ∈ vars) by (apply Hpv; left).
  assert (Hrel : ∀ w, w ≠ var → store (released var σ) w = store σ w)
    by (intros w; apply released_other).
  assert (Hvald : val ∈ _dom (store σ var)) by (by apply (proj1 (Hwf var))).
  assert (Hpool_un : ∀ w, w ∈ pool → getValue (store σ w) = None).
  { intros w Hw. rewrite <- Hrel by (intros ->; done).
    apply Hun; [apply Hpv; by right | by right]. }
  destruct (GAC_attempt_inv Γ csp rec fuel var val pool σ pool1 σ4 Hrec1 Hrun Hwf
              Hndp Hvar Hpool_un Hkeys Hvald)
    as ((Hwf4 & _) & Hsb & Hv4 & Hu4 & Hperm & _ & _).
  destruct (assigned_props var val pool σ Hwf Hinv Hval)
    as (Hwf1 & Hpinv1 & Hσ1r & Hcd1 & Hcur1 & Hfits1).
  unfold GAC_attempt in Hrun. unfold bind at 1 in Hrun.
  rewrite (setValue_assigned _ _ _ Hvald) in Hrun.
  set (σ1 := assigned var val σ) in *.
  unfold bind at 1 in Hrun. rewrite constraintsOf_referencing in Hrun.
  destruct (refs_iff var Hvv) as (refs & Hrefs & Hrefs_iff).
  rewrite Hrefs in Hrun.
  unfold bind at 1 in Hrun.
  destruct (GacEnforce Γ fuel csp refs var val σ1) as [[r σ2]| |] eqn:Hgac; try done.
  pose proof (GacEnforce_sound _ _ _ _ _ _ _ _ _ Hgac) as Henf.
  pose proof (GacEnforce_pruned _ _ _ _ _ _ _ _ _ Hgac) as Hpr.
  assert (Hkey1 : undoDict σ1 !! (var, val) = None) by (apply Hkeys; left).
  assert (Hrefs_cs : ∀ d, d ∈ refs → d ∈ cs) by (intros d Hd; by apply Hrefs_iff).
  destruct (enforce_prop_inv Γ csp var val cs vars refs_in_cs cs_wf cs_scope
              _ _ _ _ Henf Hrefs_cs Hpinv1) as (Hacc & _ & HOWO).
  assert (Hfits2 : ∀ f, solution_of Γ cs f →
                        fits vars (store σ1) f ↔ fits vars (store σ2) f).
  { intros f Hsol. split.
    - by apply (enforce_fits Γ csp var val cs vars refs_in_cs cs_wf cs_scope
                  _ _ _ _ _ Henf).
    - intros Hfit w Hw. eapply (pruned_from_curDomain var val); [done | by apply Hfit]. }
  pose proof Hpr as (Hs12 & _ & Hk12 & _ & (prints & He12 & Hprints)).
  unfold bind at 1 in Hrun.
  assert (Hpost3 : ∃ p3 σ3 new3,
             similar σ2 σ3 ∧ events σ3 = events σ2 ++ new3 ∧
             enumerates vars
               (fun f => solves Γ cs vars (released var σ) f ∧ f var = val) new3 ∧
             match restoreValues var val σ3 with
             | Ok (_, s) => ret p3 s
             | Raise e => Raise e
             | OutOfFuel => OutOfFuel
             end = Ok (pool1, σ4)).
  { destruct r.
    - exists pool, σ2, []. split; [apply similar_refl|]. split; [by rewrite app_nil_r|].
      split; [|exact Hrun]. apply enumerates_none; [done|].
      intros f [[Hsol Hfit] Hfv].
      destruct (HOWO eq_refl) as (v & Hv & He).
      assert (Hfit2 : fits vars (store σ2) f).
      { apply Hfits2; [done|]. by apply Hfits1. }
      specialize (Hfit2 v Hv). rewrite He in Hfit2. by apply elem_of_nil in Hfit2.
    - destruct (rec pool σ2) as [[p3 σ3]| |] eqn:Hrec3; try done.
      assert (Hinv2 : search_inv Γ cs vars pool σ2)
        by exact (propagated_search_inv var val pool σ refs σ2 Hwf Hinv Hval Hrefs Henf).
      destruct (Hrec2 _ _ _ _ Hrec3 Hinv2) as (Hperm3 & new3 & He3 & Henum3).
      destruct (Hrec1 _ _ _ _ Hrec3) as (_ & Hs23 & Hu23 & _).
      { destruct Hinv2 as (A1 & _ & A3 & _ & A5 & A6 & _).
        split; [done|]. split; [done|]. split; [|done].
        intros w Hw. apply A5; [apply Hpv; by right | done]. }
      exists p3, σ3, new3. split; [done|]. split; [done|]. split; [|exact Hrun].
      eapply enumerates_ext; [|exact Henum3].
      intros f. unfold solves. split.
      + intros [Hsol Hfit]. apply Hfits2 in Hfit; [|done]. apply Hfits1 in Hfit.
        tauto.
      + intros [[Hsol Hfit] Hfv]. split; [done|]. apply Hfits2; [done|].
        by apply Hfits1. }
  clear Hrun.
  destruct Hpost3 as (p3 & σ3 & new3 & (Hs23 & Hc23 & Hu23) & He23 & Henum & Hrun).
  destruct (restoreValues_spec var val σ3) as (σ4' & Hres & Hs34 & Hu34 & He34 & _).
  rewrite Hres in Hrun. injection Hrun as <- <-.
  pose proof (restoreValues_curdom _ _ _ _ Hres) as Hc34.
  split; [done|]. split; [|split; [done|]].
  - split; [|split].
    + intros w. destruct (released_fields var σ w) as (A1 & A2 & _ & A4 & A5).
      destruct (released_fields var σ4' w) as (B1 & B2 & _ & B4 & B5).
      destruct (Hsb w) as (C1 & C2 & C3).
      rewrite A1, A2, B1, B2. split; [done|]. split; [done|].
      destruct (decide (w = var)) as [->|Hnv]; [by rewrite A5, B5|].
      rewrite A4, B4 by done. by apply C3.
    + intros w. destruct (released_fields var σ w) as (_ & _ & -> & _).
      destruct (released_fields var σ4' w) as (_ & _ & -> & _).
      rewrite Hc34, Hu23. destruct Hacc as (ext & Hext & Hp).
      rewrite Hext, Hkey1. simpl. rewrite (Hc23 w), <- Hcur1. symmetry. apply Hp.
    + exact Hu4.
  - exists (prints ++ new3). split.
    + rewrite He34, He23, He12. by rewrite app_assoc.
    + apply enumerates_shift; [by apply solutions_in_prints | done].
Qed.

Lemma GAC_vals_correct rec fuel var vals : ∀ pool σ pool' σ',
  (∀ p s p' s', rec p s = Ok (p', s') → GAC_pre p s → GAC_post csp p s p' s') →
  (∀ p s p' s', rec p s = Ok (p', s') → search_inv Γ cs vars p s →
     (∀ w, _curdom (store s' w) ≡ₚ _curdom (store s w)) ∧
     ∃ new, events s' = events s ++ new ∧ enumerates vars (solves Γ cs vars s) new) →
  GAC_vals Γ rec fuel csp var vals pool σ = Ok (pool', σ') →
  wf_state σ → search_inv Γ cs vars (var :: pool) (released var σ) →
  NoDup vals → (∀ x, x ∈ vals → x ∈ _curdom (store σ var)) →
  wf_state σ' ∧ similar (released var σ) (released var σ') ∧ pool' ≡ₚ pool ∧
  ∃ new, events σ' = events σ ++ new ∧
         enumerates vars
           (fun f => solves Γ cs vars (released var σ) f ∧ f var ∈ vals) new.
Proof.
  induction vals as [|val vals IH];
    intros pool σ pool' σ' Hrec1 Hrec2 Hrun Hwf Hinv Hnd Hvals.
  - injection Hrun as <- <-. split; [done|]. split; [apply similar_refl|].
    split; [done|]. exists []. rewrite app_nil_r. split; [done|].
    apply enumerates_none; [done|]. intros f [_ Hf]. by apply elem_of_nil in Hf.
  - simpl in Hrun. unfold bind in Hrun.
    destruct (GAC_attempt Γ rec fuel csp var val pool σ) as [[pool1 σ4]| |] eqn:Hatt;
      try done.
    apply NoDup_cons in Hnd as [Hval Hnd].
    assert (Hvv : var ∈ vars).
    { destruct Hinv as (_ & _ & _ & Hpv & _). apply Hpv. left. }
    destruct (GAC_attempt_correct _ _ _ _ _ _ _ _ Hrec1 Hrec2 Hatt Hwf Hinv)
      as (Hwf4 & Hsim4 & Hperm4 & new4 & He4 & Henum4).
    { apply Hvals. left. }
    assert (Hinv4 : search_inv Γ cs vars (var :: pool1) (released var σ4)).
    { eapply search_inv_similar; [apply cs_wf | exact Hinv | exact Hsim4 |].
      by rewrite Hperm4. }
    destruct (IH pool1 σ4 pool' σ' Hrec1 Hrec2 Hrun Hwf4 Hinv4 Hnd)
      as (Hwf' & Hsim' & Hperm' & new' & He' & Henum').
    { intros x Hx. destruct Hsim4 as (_ & Hc & _). specialize (Hc var).
      destruct (released_fields var σ var) as (_ & _ & E1 & _).
      destruct (released_fields var σ4 var) as (_ & _ & E2 & _).
      rewrite E1, E2 in Hc. rewrite Hc. apply Hvals. by right. }
    split; [done|]. split; [by eapply similar_trans|]. split; [by etrans|].
    exists (new4 ++ new'). split; [by rewrite He', He4, app_assoc|].
    eapply enumerates_ext; [|apply enumerates_app; [exact Henum4 | exact Henum' |]].
    + intros f. simpl. unfold solves.
      rewrite (similar_fits vars _ _ f Hsim4), elem_of_cons. split.
      * intros [[H1 H2]|[H1 H2]]; (split; [done|]); [by left | by right].
      * intros [H1 [H2|H2]]; [left | right]; done.
    + intros f g [_ Hf] [_ Hg] Heq. apply Hval. rewrite <- Hf.
      by rewrite (assignment_of_inj _ _ _ Heq var Hvv).
Qed.

(** Every call of [GAC] made at a decision point that satisfies the
    invariant hands to the sink, once each, exactly the solutions within the
    current domains, and leaves every current domain as it was, up to the
    order of its values. *)
Lemma GAC_correct fuel : ∀ pool σ pool' σ',
  GAC Γ fuel pool csp σ = Ok (pool', σ') → search_inv Γ cs vars pool σ →
  (∀ w, _curdom (store σ' w) ≡ₚ _curdom (store σ w)) ∧
  ∃ new, events σ' = events σ ++ new ∧ enumerates vars (solves Γ cs vars σ) new.
Proof.
  induction fuel as [|fuel IH]; intros pool σ pool' σ' Hrun Hinv; [done|].
  simpl in Hrun. destruct pool as [|var pool].
  - unfold bind, sink, print, ret in Hrun. injection Hrun as <- <-. simpl.
    split; [done|]. eexists. split; [done|].
    destruct Hinv as (Hwf & Hnd & _ & _ & Hun & _ & Hheld & _ & Hcons).
    assert (Hass : ∀ w, w ∈ vars → getValue (store σ w) ≠ None).
    { intros w Hw Hnone. apply (Hun w Hw) in Hnone. by apply elem_of_nil in Hnone. }
    set (f0 := fun w => default 0 (getValue (store σ w))).
    assert (Hf0 : ∀ w, w ∈ vars → getValue (store σ w) = Some (f0 w)).
    { intros w Hw. unfold f0. destruct (getValue (store σ w)) eqn:E; [done|].
      by destruct (Hass w Hw). }
    assert (Ha0 : map (fun v => (v, getValue (store σ v))) (variables csp) =
                  assignment_of vars f0).
    { rewrite csp_vars. unfold assignment_of. apply map_ext_in. intros v Hv.
      rewrite Hf0; [done|]. by apply list_elem_of_In. }
    unfold enumerates. simpl. split; [apply NoDup_singleton|].
    intros a. rewrite list_elem_of_singleton. split.
    + intros ->. exists f0. split; [|done]. split.
      * intros d Hd. destruct (scope_other d 0%nat Hd) as (u & Hu & _).
        apply (arc_consistent_assigned (store σ)); [by apply cs_wf | | |].
        -- intros Hnil. rewrite Hnil in Hu. by apply elem_of_nil in Hu.
        -- intros w Hw. apply Hf0. by eapply cs_scope.
        -- apply Hcons; [done|]. exists u. split; [done|]. apply Hass.
           by eapply cs_scope.
      * intros w Hw. unfold curDomain. rewrite (Hf0 w Hw). left.
    + intros (f & [Hsol Hfit] & ->). rewrite Ha0. unfold assignment_of.
      apply map_ext_in. intros v Hv. apply list_elem_of_In in Hv.
      specialize (Hfit v Hv). unfold curDomain in Hfit. rewrite (Hf0 v Hv) in Hfit.
      apply list_elem_of_singleton in Hfit. by rewrite Hfit.
  - pose proof Hinv as (Hwf & Hnd & Hndp & Hpv & Hun & Hkeys & Hheld & Hne & Hcons).
    assert (Hvv : var ∈ vars) by (apply Hpv; left).
    assert (Hvnone : getValue (store σ var) = None) by (apply Hun; [done | left]).
    unfold bind at 1 in Hrun. unfold mark_select, print in Hrun.
    set (σ1 := mkState (store σ) (undoDict σ) _) in Hrun.
    unfold bind at 1 in Hrun. unfold get_var in Hrun.
    unfold bind at 1 in Hrun.
    destruct (GAC_vals Γ (fun p => GAC Γ fuel p csp) fuel csp var
                (curDomain (store σ1 var)) pool σ1) as [[pool2 σ2]| |] eqn:Hvals;
      try done.
    assert (Hset : setValue var None σ2 = Ok (tt, released var σ2)) by done.
    unfold bind in Hrun. rewrite Hset in Hrun. unfold ret in Hrun.
    injection Hrun as <- <-.
    assert (Hsim1 : similar σ (released var σ1)).
    { split; [|split; [|done]].
      - intros w. destruct (released_fields var σ1 w) as (A1 & A2 & _ & A4 & A5).
        split; [done|]. split; [done|].
        destruct (decide (w = var)) as [->|Hnv]; [|by apply A4].
        rewrite A5. symmetry. exact Hvnone.
      - intros w. by destruct (released_fields var σ1 w) as (_ & _ & -> & _). }
    assert (Hcd : curDomain (store σ1 var) = _curdom (store σ var)).
    { unfold curDomain. simpl. by rewrite Hvnone. }
    destruct (GAC_vals_correct _ _ _ _ _ _ _ _ (GAC_inv Γ csp fuel) IH Hvals)
      as (Hwf2 & Hsim2 & Hperm2 & new2 & He2 & Henum2).
    + exact Hwf.
    + eapply search_inv_similar; [apply cs_wf | exact Hinv | exact Hsim1 | done].
    + rewrite Hcd. apply Hnd.
    + intros x. by rewrite Hcd.
    + pose proof (similar_trans _ _ _ Hsim1 Hsim2) as Hsim. split; [apply Hsim|].
      simpl. rewrite He2. unfold σ1 at 1. simpl. rewrite <- app_assoc.
      eexists. split; [done|]. apply enumerates_shift; [done|].
      eapply enumerates_ext; [|exact Henum2]. intros f. unfold solves.
      rewrite <- (similar_fits vars _ _ f Hsim1). split; [tauto|].
      intros [Hsol Hfit]. split; [done|]. rewrite Hcd.
      pose proof (proj1 (similar_fits vars _ _ f Hsim1) Hfit var Hvv) as Hfv.
      unfold curDomain in Hfv. by rewrite Hvnone in Hfv.
Qed.

Lemma refs_total w : w ∈ vars → is_Some (referencing csp w).
Proof. intros Hw. destruct (refs_iff w Hw) as (refs & -> & _). by eexists. Qed.

(** An attempt returns when the recursive call does. *)
Lemma GAC_attempt_total var val pool σ :
  (∀ p s, length p = length pool → search_inv Γ cs vars p s →
          ∃ fuel p' s', GAC Γ fuel p csp s = Ok (p', s')) →
  wf_state σ → search_inv Γ cs vars (var :: pool) (released var σ) →
  val ∈ _curdom (store σ var) →
  ∃ fuel pool1 σ4,
    GAC_attempt Γ (fun p => GAC Γ fuel p csp) fuel csp var val pool σ = Ok (pool1, σ4).
Proof.
  intros Hrec Hwf Hinv Hval.
  pose proof Hinv as (_ & _ & _ & Hpv & _).
  assert (Hvv : var ∈ vars) by (apply Hpv; left).
  assert (Hvald : val ∈ _dom (store σ var)) by (by apply (proj1 (Hwf var))).
  destruct (assigned_props var val pool σ Hwf Hinv Hval) as (Hwf1 & Hpinv1 & _).
  destruct (refs_iff var Hvv) as (refs & Hrefs & Hrefs_iff).
  assert (Hrefs_cs : ∀ d, d ∈ refs → d ∈ cs) by (intros d Hd; by apply Hrefs_iff).
  destruct (enforce_total Γ csp var val cs vars refs_in_cs cs_wf cs_scope refs_total
              (total_size vars (assigned var val σ)) refs (assigned var val σ))
    as (σ2 & r & Henf); [lia | done | done |].
  destruct (GacEnforce_complete _ _ _ _ _ _ _ _ Henf) as [fuel_e Hgac].
  assert (Hstep : ∀ fuel p3 σ3, (fuel_e ≤ fuel)%nat →
            match r with
            | OWO => Ok (pool, σ2)
            | OK => GAC Γ fuel pool csp σ2
            end = Ok (p3, σ3) →
            ∃ σ4, GAC_attempt Γ (fun p => GAC Γ fuel p csp) fuel csp var val pool σ
                  = Ok (p3, σ4)).
  { intros fuel p3 σ3 Hle Hmid. unfold GAC_attempt. unfold bind at 1.
    rewrite (setValue_assigned _ _ _ Hvald). unfold bind at 1.
    rewrite constraintsOf_referencing, Hrefs. unfold bind at 1.
    rewrite (GacEnforce_mono _ _ _ _ _ _ _ _ _ Hle Hgac). unfold bind at 1.
    destruct (restoreValues_spec var val σ3) as (σ4 & Hres & _).
    exists σ4. destruct r.
    - injection Hmid as <- <-. unfold ret at 1. unfold bind. by rewrite Hres.
    - rewrite Hmid. unfold bind. by rewrite Hres. }
  destruct r.
  - destruct (Hstep fuel_e pool σ2) as [σ4 H4]; [lia | done |].
    by exists fuel_e, pool, σ4.
  - destruct (Hrec pool σ2 eq_refl) as (fuel_r & p3 & σ3 & Hrec3).
    { exact (propagated_search_inv var val pool σ refs σ2 Hwf Hinv Hval Hrefs Henf). }
    destruct (Hstep (max fuel_e fuel_r) p3 σ3) as [σ4 H4]; [lia | |].
    { apply (GAC_mono _ _ fuel_r); [lia | done]. }
    by exists (max fuel_e fuel_r), p3, σ4.
Qed.

Lemma GAC_vals_total var vals : ∀ pool σ,
  (∀ p s, length p = length pool → search_inv Γ cs vars p s →
          ∃ fuel p' s', GAC Γ fuel p csp s = Ok (p', s')) →
  wf_state σ → search_inv Γ cs vars (var :: pool) (released var σ) →
  NoDup vals → (∀ x, x ∈ vals → x ∈ _curdom (store σ var)) →
  ∃ fuel pool' σ',
    GAC_vals Γ (fun p => GAC Γ fuel p csp) fuel csp var vals pool σ = Ok (pool', σ').
Proof.
  induction vals as [|val vals IH]; intros pool σ Hrec Hwf Hinv Hnd Hvals.
  - by exists 0%nat, pool, σ.
  - apply NoDup_cons in Hnd as [Hval Hnd].
    destruct (GAC_attempt_total var val pool σ Hrec Hwf Hinv)
      as (fa & pool1 & σ4 & Hatt); [apply Hvals; left|].
    destruct (GAC_attempt_correct _ fa _ _ _ _ _ _ (GAC_inv Γ csp fa) (GAC_correct fa)
                Hatt Hwf Hinv) as (Hwf4 & Hsim4 & Hperm4 & _); [apply Hvals; left|].
    assert (Hinv4 : search_inv Γ cs vars (var :: pool1) (released var σ4)).
    { eapply search_inv_similar; [apply cs_wf | exact Hinv | exact Hsim4 |].
      by rewrite Hperm4. }
    destruct (IH pool1 σ4) as (fb & pool' & σ' & Hrest); try done.
    { intros p s Hlen. apply Hrec. rewrite Hlen. by apply Permutation_length. }
    { intros x Hx. destruct Hsim4 as (_ & Hc & _). specialize (Hc var).
      destruct (released_fields var σ var) as (_ & _ & E1 & _).
      destruct (released_fields var σ4 var) as (_ & _ & E2 & _).
      rewrite E1, E2 in Hc. rewrite Hc. apply Hvals. by right. }
    exists (max fa fb), pool', σ'. simpl. unfold bind.
    rewrite (GAC_attempt_mono Γ csp (fun p => GAC Γ fa p csp)
               (fun p => GAC Γ (max fa fb) p csp) fa (max fa fb) var val pool σ
               (pool1, σ4)); [| | lia | done].
    + apply (GAC_vals_mono Γ csp (fun p => GAC Γ fb p csp) _ fb); [|lia | done].
      intros p s y. apply GAC_mono. lia.
    + intros p s y. apply GAC_mono. lia.
Qed.

Lemma GAC_cons Γ' csp' fuel var pool σ :
  GAC Γ' (S fuel) (var :: pool) csp' σ =
  match GAC_vals Γ' (fun p => GAC Γ' fuel p csp') fuel csp' var
          (curDomain (store σ var)) pool
          (mkState (store σ) (undoDict σ)
             (events σ ++
              [Select var (var :: pool)
                 (filter (fun v => isAssigned (store σ v) = false) (variables csp'))]))
  with
  | Ok (pool', σ2) => Ok (pool' ++ [var], released var σ2)
  | Raise e => Raise e
  | OutOfFuel => OutOfFuel
  end.
Proof.
  simpl. unfold bind at 1. unfold mark_select, print. unfold bind at 1.
  unfold get_var. unfold bind at 1. simpl.
  destruct (GAC_vals _ _ _ _ _ _ _ _) as [[p2 σ2]| |]; done.
Qed.

(** The search returns. *)
Lemma GAC_total n : ∀ pool σ,
  (length pool ≤ n)%nat → search_inv Γ cs vars pool σ →
  ∃ fuel pool' σ', GAC Γ fuel pool csp σ = Ok (pool', σ').
Proof.
  induction n as [|n IH]; intros pool σ Hlen Hinv;
    (destruct pool as [|var pool]; [by eexists 1%nat, _, _|]); simpl in Hlen; [lia|].
  pose proof Hinv as (Hwf & Hnd & Hndp & Hpv & Hun & Hkeys & Hheld & Hne & Hcons).
  assert (Hvv : var ∈ vars) by (apply Hpv; left).
  assert (Hvnone : getValue (store σ var) = None) by (apply Hun; [done | left]).
  set (σ1 := mkState (store σ) (undoDict σ)
               (events σ ++
                [Select var (var :: pool)
                   (filter (fun v => isAssigned (store σ v) = false) (variables csp))])).
  assert (Hsim1 : similar σ (released var σ1)).
  { split; [|split; [|done]].
    - intros w. destruct (released_fields var σ1 w) as (A1 & A2 & _ & A4 & A5).
      split; [done|]. split; [done|].
      destruct (decide (w = var)) as [->|Hnv]; [|by apply A4].
      rewrite A5. symmetry. exact Hvnone.
    - intros w. by destruct (released_fields var σ1 w) as (_ & _ & -> & _). }
  assert (Hcd : curDomain (store σ var) = _curdom (store σ var)).
  { unfold curDomain. by rewrite Hvnone. }
  destruct (GAC_vals_total var (curDomain (store σ var)) pool σ1)
    as (fuel & pool2 & σ2 & Hvals).
  - intros p s Hp. apply IH. lia.
  - exact Hwf.
  - eapply search_inv_similar; [apply cs_wf | exact Hinv | exact Hsim1 | done].
  - rewrite Hcd. apply Hnd.
  - intros x. by rewrite Hcd.
  - exists (S fuel), (pool2 ++ [var]), (released var σ2).
    rewrite GAC_cons. fold σ1. by rewrite Hvals.
Qed.

End SearchCorrect.

(** [check] on a fully assigned scope is [sat_fun] at the assigned values. *)
Lemma assignments_of_assigned h ks (f : vref → Value) :
  (∀ w, w ∈ ks → getValue (h w) = Some (f w)) →
  assignments_of h ks = Some (f <$> ks).
Proof.
  induction ks as [|k ks IH]; intros Hall; simpl; [done|].
  rewrite (Hall k) by left. rewrite IH; [done|]. intros w Hw. apply Hall. by right.
Qed.

Lemma check_sat_fun h c f :
  (∀ w, w ∈ scope c → getValue (h w) = Some (f w)) →
  check h c = true ↔ sat_fun c f.
Proof.
  intros Hall. destruct c as [name sc sat|name sc req lb ub]; simpl in *.
  - unfold TableConstraint_check. rewrite (assignments_of_assigned h sc f Hall).
    apply bool_decide_eq_true.
  - unfold NValuesConstraint_check. rewrite (assignments_of_assigned h sc f Hall).
    rewrite andb_true_iff, !bool_decide_eq_true. done.
Qed.

(** ** C2 and C3 on CSPs whose constraints have at least two variables *)

(** What the search needs to know of a CSP that the constructor built. *)
Lemma CSP_init_facts Γ name vars cs csp :
  CSP_init Γ name vars cs = Ok csp →
  variables csp = vars ∧
  (∀ w refs, referencing csp w = Some refs → w ∈ vars) ∧
  (∀ v, v ∈ vars →
     ∃ refs, referencing csp v = Some refs ∧
             ∀ c, c ∈ refs ↔ c ∈ cs ∧ v ∈ scope (Γ c)) ∧
  (∀ d w, d ∈ cs → w ∈ scope (Γ d) → w ∈ vars).
Proof.
  intros Hinit.
  destruct (CSP_init_referencing Γ _ _ _ _ Hinit) as (Hvars & _ & Hscope & Hfile).
  assert (Hv : variables csp = vars) by exact Hvars.
  split; [done|]. split; [|done].
  intros w refs Hrefs. destruct (decide (w ∈ vars)) as [Hw|Hw]; [done|].
  exfalso. unfold referencing in Hrefs. rewrite Hv in Hrefs.
  apply index_None in Hw. by rewrite Hw in Hrefs.
Qed.

(** A top-level call on such a CSP returns, and every call that returns
    has enumerated the solutions and put the current domains back. *)
Lemma GAC_top Γ name vars cs csp σ :
  CSP_init Γ name vars cs = Ok csp →
  NoDup vars →
  (∀ d, d ∈ cs → wf_constraint (Γ d) ∧ (2 ≤ length (scope (Γ d)))%nat) →
  (∀ w, getValue (store σ w) = None ∧ _curdom (store σ w) = _dom (store σ w) ∧
        NoDup (_dom (store σ w))) →
  (∀ w, w ∈ vars → _dom (store σ w) ≠ []) →
  undoDict σ = ∅ →
  (∃ fuel0, ∀ fuel, (fuel0 ≤ fuel)%nat →
     ∃ pool' σ', GAC Γ fuel (variables csp) csp σ = Ok (pool', σ')) ∧
  ∀ fuel pool' σ', GAC Γ fuel (variables csp) csp σ = Ok (pool', σ') →
    (∀ w, _curdom (store σ' w) ≡ₚ _curdom (store σ w)) ∧
    ∃ new, events σ' = events σ ++ new ∧ enumerates vars (solves Γ cs vars σ) new.
Proof.
  intros Hinit Hnd Hcs Hstart Hdom Hlog.
  destruct (CSP_init_facts Γ _ _ _ _ Hinit) as (Hv & Hrv & Hfile & Hscope).
  assert (Hwf : ∀ d, d ∈ cs → wf_constraint (Γ d)) by (intros d Hd; by apply Hcs).
  assert (Htwo : ∀ d, d ∈ cs → (2 ≤ length (scope (Γ d)))%nat)
    by (intros d Hd; by apply Hcs).
  assert (Hinv : search_inv Γ cs vars vars σ).
  { split; [|split; [|split; [done|split; [done|split; [|split; [|split; [|split]]]]]]].
    - intros w. destruct (Hstart w) as (Hnone & Hcur & _). rewrite Hcur, Hnone.
      split; [done|]. by intros y.
    - intros w. destruct (Hstart w) as (_ & Hcur & Hndw). by rewrite Hcur.
    - intros w Hw. destruct (Hstart w) as (Hnone & _). done.
    - intros w x _. rewrite Hlog. apply lookup_empty.
    - intros w y Hy. destruct (Hstart w) as (Hnone & _). by rewrite Hnone in Hy.
    - intros w Hw. destruct (Hstart w) as (_ & Hcur & _). rewrite Hcur. by apply Hdom.
    - intros d Hd (w & _ & Hass). destruct (Hstart w) as (Hnone & _). done. }
  rewrite Hv. split.
  - destruct (GAC_total Γ csp cs vars Hv Hrv Hfile Hwf Hscope Htwo (length vars) vars σ)
      as (fuel0 & pool' & σ' & Hrun); [done | done |].
    exists fuel0. intros fuel Hle. exists pool', σ'. by apply (GAC_mono _ _ fuel0).
  - intros fuel pool' σ' Hrun.
    by apply (GAC_correct Γ csp cs vars Hv Hrv Hfile Hwf Hscope Htwo fuel vars σ pool' σ').
Qed.

(** C2, amended.  For a CSP built by the constructor from distinct
    variables, in which every constraint has at least two variables in its
    scope and none twice (tables with tuples of the length of the scope), all
    variables unassigned, every current domain equal to the original domain
    and without repetitions, the domains of the variables of the CSP not
    empty, and the undo log empty: the top-level call returns (with enough
    fuel), and when it has returned the undo log is empty, every variable is
    unassigned, and every current domain holds the values of its original
    domain, each as often as there, in some order. *)
Theorem GAC_restores_domains
    (Γ : cref → Constraint) (name : string) (vars : list vref) (cs : list cref)
    (csp : CSP) (σ : State) :
  CSP_init Γ name vars cs = Ok csp →
  NoDup vars →
  (∀ d, d ∈ cs → wf_constraint (Γ d) ∧ (2 ≤ length (scope (Γ d)))%nat) →
  (∀ w, getValue (store σ w) = None ∧ _curdom (store σ w) = _dom (store σ w) ∧
        NoDup (_dom (store σ w))) →
  (∀ w, w ∈ vars → _dom (store σ w) ≠ []) →
  undoDict σ = ∅ →
  (∃ fuel0, ∀ fuel, (fuel0 ≤ fuel)%nat →
     ∃ pool' σ', GAC Γ fuel (variables csp) csp σ = Ok (pool', σ')) ∧
  ∀ fuel pool' σ', GAC Γ fuel (variables csp) csp σ = Ok (pool', σ') →
    undoDict σ' = ∅ ∧
    ∀ w, getValue (store σ' w) = None ∧
         _dom (store σ' w) = _dom (store σ w) ∧
         _curdom (store σ' w) ≡ₚ _dom (store σ' w).
Proof.
  intros Hinit Hnd Hcs Hstart Hdom Hlog.
  destruct (GAC_top _ _ _ _ _ _ Hinit Hnd Hcs Hstart Hdom Hlog) as [Htotal Hpost].
  split; [done|]. intros fuel pool' σ' Hrun.
  destruct (Hpost _ _ _ Hrun) as [Hperm _].
  destruct (CSP_init_referencing Γ _ _ _ _ Hinit) as (Hvars & _).
  destruct (GAC_inv Γ csp fuel _ σ pool' σ' Hrun) as (_ & Hs & Hu & _).
  { split; [|split; [unfold variables; by rewrite Hvars|split]].
    - intros w. destruct (Hstart w) as (Hnone & Hcur & _). rewrite Hcur, Hnone.
      split; [done|]. by intros y.
    - intros w _. apply Hstart.
    - intros w x _. rewrite Hlog. apply lookup_empty. }
  split; [congruence|]. intros w. destruct (Hs w) as (_ & Hd & Hv).
  destruct (Hstart w) as (Hnone & Hcur & _).
  split; [unfold getValue in *; congruence|]. split; [done|].
  by rewrite (Hperm w), Hd, Hcur.
Qed.

Lemma GAC_restores_domains_witness :
  (∃ fuel0, ∀ fuel, (fuel0 ≤ fuel)%nat →
     ∃ pool' σ',
       GAC Ex2.neq fuel (variables Ex2.csp_neq) Ex2.csp_neq Ex.AB12 = Ok (pool', σ')) ∧
  ∀ fuel pool' σ',
    GAC Ex2.neq fuel (variables Ex2.csp_neq) Ex2.csp_neq Ex.AB12 = Ok (pool', σ') →
    undoDict σ' = ∅ ∧
    ∀ w, getValue (store σ' w) = None ∧
         _dom (store σ' w) = _dom (store Ex.AB12 w) ∧
         _curdom (store σ' w) ≡ₚ _dom (store σ' w).
Proof.
  apply (GAC_restores_domains Ex2.neq "neq" [Ex.A; Ex.B] [0%nat] Ex2.csp_neq Ex.AB12).
  - vm_compute. reflexivity.
  - apply (bool_decide_unpack _). vm_compute. exact I.
  - intros d _. split; [split|].
    + apply (bool_decide_unpack _). vm_compute. exact I.
    + repeat constructor.
    + simpl. lia.
  - intros w. destruct w as [|[|w]]; (split; [reflexivity|]); (split; [reflexivity|]);
      apply (bool_decide_unpack _); vm_compute; exact I.
  - intros w Hw. apply elem_of_cons in Hw as [->|Hw]; [discriminate|].
    apply list_elem_of_singleton in Hw as ->. discriminate.
  - reflexivity.
Defined.

(** C3, amended.  For a CSP as in the amended C2, the top-level call
    returns (with enough fuel), and when it has returned it has handed to the
    sink, once each, exactly the complete assignments that give every
    variable of the CSP a value of its domain and satisfy every constraint
    ([sat_fun], which is what [check] computes once the scope is assigned):
    none is missing, none comes twice, and nothing else is handed over.  The
    two examples of the specification are instances: for A and B with domain
    [1; 2] the table [[1, 2], [2, 1]] gives two calls of the sink, with
    {A:1, B:2} and {A:2, B:1}, and the table [[1, 1]] gives one, with
    {A:1, B:1}. *)
Theorem GAC_enumerates_solutions :
  (∀ (Γ : cref → Constraint) (name : string) (vars : list vref) (cs : list cref)
     (csp : CSP) (σ : State),
     CSP_init Γ name vars cs = Ok csp →
     NoDup vars →
     (∀ d, d ∈ cs → wf_constraint (Γ d) ∧ (2 ≤ length (scope (Γ d)))%nat) →
     (∀ w, getValue (store σ w) = None ∧ _curdom (store σ w) = _dom (store σ w) ∧
           NoDup (_dom (store σ w))) →
     (∀ w, w ∈ vars → _dom (store σ w) ≠ []) →
     undoDict σ = ∅ →
     (∃ fuel0, ∀ fuel, (fuel0 ≤ fuel)%nat →
        ∃ pool' σ', GAC Γ fuel (variables csp) csp σ = Ok (pool', σ')) ∧
     ∀ fuel pool' σ', GAC Γ fuel (variables csp) csp σ = Ok (pool', σ') →
       ∃ new, events σ' = events σ ++ new ∧
              NoDup (solutions_in new) ∧
              ∀ a, a ∈ solutions_in new ↔
                   ∃ f, (∀ w, w ∈ vars → f w ∈ _dom (store σ w)) ∧
                        (∀ d, d ∈ cs → sat_fun (Γ d) f) ∧
                        (∀ d h, d ∈ cs →
                           (∀ w, w ∈ scope (Γ d) → getValue (h w) = Some (f w)) →
                           check h (Γ d) = true) ∧
                        a = assignment_of vars f) ∧
  solutions (after (GAC Ex2.neq 10 (variables Ex2.csp_neq) Ex2.csp_neq) Ex.AB12)
    = [[(Ex.A, Some 1); (Ex.B, Some 2)]; [(Ex.A, Some 2); (Ex.B, Some 1)]] ∧
  solutions (after (GAC Ex2.both1 10 (variables Ex2.csp_both1) Ex2.csp_both1) Ex.AB12)
    = [[(Ex.A, Some 1); (Ex.B, Some 1)]].
Proof.
  split; [|exact GAC_examples].
  intros Γ name vars cs csp σ Hinit Hnd Hcs Hstart Hdom Hlog.
  destruct (GAC_top _ _ _ _ _ _ Hinit Hnd Hcs Hstart Hdom Hlog) as [Htotal Hpost].
  split; [done|]. intros fuel pool' σ' Hrun.
  destruct (Hpost _ _ _ Hrun) as (_ & new & He & Hndn & Hiff).
  exists new. split; [done|]. split; [done|]. intros a. rewrite Hiff.
  assert (Hfit : ∀ f, fits vars (store σ) f ↔ ∀ w, w ∈ vars → f w ∈ _dom (store σ w)).
  { intros f. unfold fits. split; intros H w Hw; specialize (H w Hw);
      destruct (Hstart w) as (Hnone & Hcur & _); unfold curDomain in *;
      rewrite Hnone, Hcur in *; done. }
  split.
  - intros (f & [Hsol Hf] & ->). exists f. split; [by apply Hfit|].
    split; [done|]. split; [|done]. intros d h Hd Hall.
    apply (check_sat_fun h (Γ d) f Hall). by apply Hsol.
  - intros (f & Hf & Hsol & _ & ->). exists f. split; [|done]. split; [done|].
    by apply Hfit.
Qed.

Lemma GAC_enumerates_solutions_witness :
  (∃ fuel0, ∀ fuel, (fuel0 ≤ fuel)%nat →
     ∃ pool' σ',
       GAC Ex2.neq fuel (variables Ex2.csp_neq) Ex2.csp_neq Ex.AB12 = Ok (pool', σ')) ∧
  ∀ fuel pool' σ',
    GAC Ex2.neq fuel (variables Ex2.csp_neq) Ex2.csp_neq Ex.AB12 = Ok (pool', σ') →
    ∃ new, events σ' = events Ex.AB12 ++ new ∧
           NoDup (solutions_in new) ∧
           ∀ a, a ∈ solutions_in new ↔
                ∃ f, (∀ w, w ∈ [Ex.A; Ex.B] → f w ∈ _dom (store Ex.AB12 w)) ∧
                     (∀ d, d ∈ [0%nat] → sat_fun (Ex2.neq d) f) ∧
                     (∀ d h, d ∈ [0%nat] →
                        (∀ w, w ∈ scope (Ex2.neq d) → getValue (h w) = Some (f w)) →
                        check h (Ex2.neq d) = true) ∧
                     a = assignment_of [Ex.A; Ex.B] f.
Proof.
  apply (proj1 GAC_enumerates_solutions Ex2.neq "neq" [Ex.A; Ex.B] [0%nat]
           Ex2.csp_neq Ex.AB12).
  - vm_compute. reflexivity.
  - apply (bool_decide_unpack _). vm_compute. exact I.
  - intros d _. split; [split|].
    + apply (bool_decide_unpack _). vm_compute. exact I.
    + repeat constructor.
    + simpl. lia.
  - intros w. destruct w as [|[|w]]; (split; [reflexivity|]); (split; [reflexivity|]);
      apply (bool_decide_unpack _); vm_compute; exact I.
  - intros w Hw. apply elem_of_cons in Hw as [->|Hw]; [discriminate|].
    apply list_elem_of_singleton in Hw as ->. discriminate.
  - reflexivity.
Defined.

(** ** C5: what an attempt restores *)

(** C5 as stated fails: the attempt [(A, 2)] on the CSP with the unary
    constraint [A == 1] and the binary constraint allowing only [[1, 1]].
    Both constraints find [A = 2] without support, so the value is pruned
    twice (the second time it is no longer there) and restored twice: the
    current domain of A is [1; 2; 2] after the attempt, [1; 2] before it.
    Besides, A holds the attempted value afterwards and was unassigned
    before. *)
Lemma GAC_attempt_restores_twice :
  ∃ pool1 σ4,
    GAC_attempt Ex4.unary_binary (fun p => GAC Ex4.unary_binary 10 p Ex4.csp_ub)
      10 Ex4.csp_ub Ex.A 2 [Ex.B] Ex.AB12 = Ok (pool1, σ4) ∧
    _curdom (store Ex.AB12 Ex.A) = [1; 2] ∧ _curdom (store σ4 Ex.A) = [1; 2; 2] ∧
    _value (store Ex.AB12 Ex.A) = None ∧ _value (store σ4 Ex.A) = Some 2 ∧
    ¬ attempt_restores_all Ex.AB12 σ4.
Proof.
  eexists _, _. split; [vm_compute; reflexivity|].
  split; [reflexivity|]. split; [reflexivity|]. split; [reflexivity|].
  split; [reflexivity|].
  intros H. destruct (H Ex.A) as [_ Hval]. vm_compute in Hval. discriminate Hval.
Qed.

(** An attempt is its search followed by the restore step. *)
Lemma GAC_attempt_split Γ rec fuel csp var val pool σ pool1 σ4 :
  GAC_attempt Γ rec fuel csp var val pool σ = Ok (pool1, σ4) ↔
  ∃ σ3, GAC_attempt_search Γ rec fuel csp var val pool σ = Ok (pool1, σ3) ∧
        restoreValues var val σ3 = Ok (tt, σ4).
Proof.
  unfold GAC_attempt, GAC_attempt_search, bind, ret.
  destruct (setValue var (Some val) σ) as [[[] σ1]| |]; [|split; [done | by intros (? & ? & _)]..].
  destruct (constraintsOf csp var σ1) as [[cs σ1']| |];
    [|split; [done | by intros (? & ? & _)]..].
  destruct (match cs with
            | Some cs0 => GacEnforce Γ fuel csp cs0 var val
            | None => raise AttributeError
            end σ1') as [[r σ2]| |]; [|split; [done | by intros (? & ? & _)]..].
  assert (Hrest : ∀ m : outcome (list vref * State),
            match m with
            | Ok (a, σ') =>
                match restoreValues var val σ' with
                | Ok (_, s) => Ok (a, s)
                | Raise e => Raise e
                | OutOfFuel => OutOfFuel
                end
            | Raise e => Raise e
            | OutOfFuel => OutOfFuel
            end = Ok (pool1, σ4) ↔
            ∃ σ3, m = Ok (pool1, σ3) ∧ restoreValues var val σ3 = Ok (tt, σ4)).
  { intros [[p3 σ3]| |]; [|split; [done | by intros (? & ? & _)]..].
    destruct (restoreValues var val σ3) as [[[] σ4']| |] eqn:Hres.
    - split.
      + intros [= <- <-]. by exists σ3.
      + intros (σ3' & [= <- <-] & Hres'). rewrite Hres in Hres'.
        by injection Hres' as <-.
    - split; [done|]. intros (σ3' & [= <- <-] & Hres'). by rewrite Hres in Hres'.
    - split; [done|]. intros (σ3' & [= <- <-] & Hres'). by rewrite Hres in Hres'. }
  apply Hrest.
Qed.

(** C5, amended.  An attempt [(var, val)] that returns has run its restore
    step, whether propagation succeeded (and the search recursed) or
    reported wipeout.  With [σ3] the state in which the restore step starts:
    the current domain of every variable is afterwards what it was in [σ3]
    followed by the values logged for it under the key [(var, val)], so every
    logged pair is back in the current domain of its variable; the key is
    gone from the undo log, which is what it was before the attempt; every
    value that was in a current domain before the attempt is in it again;
    names, domains and the assigned values of the other variables are what
    they were, while [var] still holds [val]; and current domains stay within
    the domains.  Moreover, at a decision point of the search on a CSP built
    by the constructor whose constraints have at least two variables in their
    scope and none twice (the invariant [search_inv]), every current domain
    is after the attempt what it was before it, up to the order of its
    values. *)
Theorem GAC_attempt_restores
    (Γ : cref → Constraint) (csp : CSP) (fuel : nat) (var : vref) (val : Value)
    (pool : list vref) (σ : State) (pool1 : list vref) (σ4 : State) :
  GAC_attempt Γ (fun p => GAC Γ fuel p csp) fuel csp var val pool σ = Ok (pool1, σ4) →
  wf_state σ → NoDup (var :: pool) →
  (∀ w, w ∈ pool → getValue (store σ w) = None) →
  (∀ w x, w ∈ var :: pool → undoDict σ !! (w, x) = None) →
  val ∈ _dom (store σ var) →
  (∃ σ3, GAC_attempt_search Γ (fun p => GAC Γ fuel p csp) fuel csp var val pool σ
           = Ok (pool1, σ3) ∧
         restoreValues var val σ3 = Ok (tt, σ4) ∧
         (∀ w, _curdom (store σ4 w) =
               _curdom (store σ3 w) ++
               logged_for w (default [] (undoDict σ3 !! (var, val)))) ∧
         (∀ w y, (w, y) ∈ default [] (undoDict σ3 !! (var, val)) →
                 y ∈ _curdom (store σ4 w))) ∧
  undoDict σ4 !! (var, val) = None ∧
  undoDict σ4 = undoDict σ ∧
  keeps_values σ σ4 ∧
  same_but var σ σ4 ∧ getValue (store σ4 var) = Some val ∧
  wf_state σ4 ∧
  (∀ name vars cs,
     CSP_init Γ name vars cs = Ok csp →
     (∀ d, d ∈ cs → wf_constraint (Γ d) ∧ (2 ≤ length (scope (Γ d)))%nat) →
     search_inv Γ cs vars (var :: pool) (released var σ) →
     val ∈ _curdom (store σ var) →
     ∀ w, _curdom (store σ4 w) ≡ₚ _curdom (store σ w)).
Proof.
  intros Hrun Hwf Hnd Hun Hkeys Hval. apply NoDup_cons in Hnd as [Hvar Hnd].
  destruct (GAC_attempt_inv Γ csp _ fuel var val pool σ pool1 σ4
              (GAC_inv Γ csp fuel) Hrun Hwf Hnd Hvar Hun Hkeys Hval)
    as ((Hwf4 & Hk4) & Hs4 & Hv4 & Hu4 & _ & _ & _).
  split.
  { destruct (proj1 (GAC_attempt_split _ _ _ _ _ _ _ _ _ _) Hrun) as (σ3 & Hsearch & Hres).
    exists σ3. split; [done|]. split; [done|].
    pose proof (restoreValues_curdom _ _ _ _ Hres) as Hcur.
    split; [done|]. intros w y Hin. rewrite (Hcur w), elem_of_app. right.
    unfold logged_for. apply list_elem_of_fmap. exists (w, y). split; [done|].
    by apply list_elem_of_filter. }
  split.
  { rewrite Hu4. apply Hkeys. left. }
  do 5 (split; [done|]).
  intros name vars cs Hinit Hcs Hinv Hcur w.
  destruct (CSP_init_facts Γ _ _ _ _ Hinit) as (Hv & Hrv & Hfile & Hscope).
  assert (Hcwf : ∀ d, d ∈ cs → wf_constraint (Γ d)) by (intros d Hd; by apply Hcs).
  assert (Htwo : ∀ d, d ∈ cs → (2 ≤ length (scope (Γ d)))%nat)
    by (intros d Hd; by apply Hcs).
  destruct (GAC_attempt_correct Γ csp cs vars Hrv Hfile Hcwf Hscope Htwo
              _ fuel var val pool σ pool1 σ4 (GAC_inv Γ csp fuel)
              (GAC_correct Γ csp cs vars Hv Hrv Hfile Hcwf Hscope Htwo fuel)
              Hrun Hwf Hinv Hcur) as (_ & (_ & Hperm & _) & _).
  specialize (Hperm w).
  destruct (released_fields var σ w) as (_ & _ & E1 & _).
  destruct (released_fields var σ4 w) as (_ & _ & E2 & _).
  by rewrite E1, E2 in Hperm.
Qed.

Lemma GAC_attempt_restores_witness :
  ∃ σ4, GAC_attempt Ex2.neq (fun p => GAC Ex2.neq 10 p Ex2.csp_neq) 10 Ex2.csp_neq
          Ex.A 1 [Ex.B] Ex.AB12 = Ok ([Ex.B], σ4) ∧
        (∃ σ3, GAC_attempt_search Ex2.neq (fun p => GAC Ex2.neq 10 p Ex2.csp_neq) 10
                 Ex2.csp_neq Ex.A 1 [Ex.B] Ex.AB12 = Ok ([Ex.B], σ3) ∧
               restoreValues Ex.A 1 σ3 = Ok (tt, σ4) ∧
               (∀ w, _curdom (store σ4 w) =
                     _curdom (store σ3 w) ++
                     logged_for w (default [] (undoDict σ3 !! (Ex.A, 1)))) ∧
               (∀ w y, (w, y) ∈ default [] (undoDict σ3 !! (Ex.A, 1)) →
                       y ∈ _curdom (store σ4 w))) ∧
        undoDict σ4 !! (Ex.A, 1) = None ∧
        undoDict σ4 = undoDict Ex.AB12 ∧
        keeps_values Ex.AB12 σ4 ∧
        same_but Ex.A Ex.AB12 σ4 ∧ getValue (store σ4 Ex.A) = Some 1 ∧
        wf_state σ4 ∧
        (∀ name vars cs,
           CSP_init Ex2.neq name vars cs = Ok Ex2.csp_neq →
           (∀ d, d ∈ cs → wf_constraint (Ex2.neq d) ∧
                          (2 ≤ length (scope (Ex2.neq d)))%nat) →
           search_inv Ex2.neq cs vars [Ex.A; Ex.B] (released Ex.A Ex.AB12) →
           1 ∈ _curdom (store Ex.AB12 Ex.A) →
           ∀ w, _curdom (store σ4 w) ≡ₚ _curdom (store Ex.AB12 w)).
Proof.
  eexists. split; [vm_compute; reflexivity|].
  apply (GAC_attempt_restores Ex2.neq Ex2.csp_neq 10 Ex.A 1 [Ex.B] Ex.AB12 [Ex.B]).
  - vm_compute. reflexivity.
  - apply initial_wf.
  - apply (bool_decide_unpack _). vm_compute. exact I.
  - intros w _. apply initial_unassigned.
  - intros w x _. apply lookup_empty.
  - apply (bool_decide_unpack _). vm_compute. exact I.
Defined.

(** ** Pruning and restoring *)

Lemma pruneValues_events l rv rx : ∀ σ σ1,
  pruneValues l rv rx σ = Ok (tt, σ1) → ∃ new, events σ1 = events σ ++ new.
Proof.
  induction l as [|p l IH]; intros σ σ1 Hrun.
  - injection Hrun as <-. exists []. by rewrite app_nil_r.
  - simpl in Hrun. unfold bind in Hrun.
    destruct (pruneValue_spec σ p.1 p.2 rv rx) as (σm & Hp & _ & _ & _ & _ & Hcase).
    rewrite Hp in Hrun. apply IH in Hrun as [new Hnew].
    case_bool_decide.
    + destruct Hcase as (_ & _ & _ & _ & Hev). exists new. by rewrite Hnew, Hev.
    + destruct Hcase as (_ & Hev). exists (PrintPruneError p.1 p.2 :: new).
      by rewrite Hnew, Hev, <- app_assoc.
Qed.

Lemma pruneValues_accounts l rv rx : ∀ σ σ1,
  pruneValues l rv rx σ = Ok (tt, σ1) → events σ1 = events σ →
  same_assignment σ σ1 ∧
  (∀ k, k ≠ (rv, rx) → undoDict σ1 !! k = undoDict σ !! k) ∧
  default [] (undoDict σ1 !! (rv, rx)) = default [] (undoDict σ !! (rv, rx)) ++ l ∧
  ∀ w, _curdom (store σ w) ≡ₚ _curdom (store σ1 w) ++ logged_for w l.
Proof.
  induction l as [|[v x] l IH]; intros σ σ1 Hrun Hev; simpl in Hrun.
  - injection Hrun as <-. split; [done|]. split; [done|].
    split; [by rewrite app_nil_r|]. intros w. unfold logged_for. simpl.
    by rewrite app_nil_r.
  - unfold bind in Hrun.
    destruct (pruneValue_spec σ v x rv rx) as (σm & Hp & Hoth & Hn & Hd & Hv & Hcase).
    simpl in Hrun. rewrite Hp in Hrun.
    destruct (pruneValues_events _ _ _ _ _ Hrun) as [new Hnew].
    case_bool_decide as Hin.
    2:{ exfalso. destruct Hcase as (_ & Hevm). rewrite Hev, Hevm, <- app_assoc in Hnew.
        apply (f_equal length) in Hnew. rewrite !length_app in Hnew. simpl in Hnew. lia. }
    destruct Hcase as (Hcur & Hperm1 & Hlog1 & Hk1 & Hevm).
    destruct (IH σm σ1 Hrun) as (Hsame & Hother & Hlog & Hperm); [congruence|].
    split; [|split; [|split]].
    + intros w. destruct (Hsame w) as (H1 & H2 & H3). rewrite H1, H2, H3.
      destruct (decide (w = v)) as [->|Hne]; [done|]. by rewrite (Hoth w Hne).
    + intros k Hk. rewrite Hother by done. by apply Hk1.
    + rewrite Hlog, Hlog1. simpl. by rewrite <- app_assoc.
    + intros w. specialize (Hperm w). unfold logged_for in *.
      destruct (decide (w = v)) as [->|Hne].
      * rewrite filter_cons_True by done. simpl.
        rewrite Hperm1, Hperm. by rewrite <- Permutation_middle.
      * rewrite filter_cons_False by (simpl; congruence).
        by rewrite <- (Hoth w Hne).
Qed.

(** X1: pruning values under one reason and then restoring that reason gives
    every current domain its values back, up to their order. *)
Theorem pruneValues_restoreValues (l : list (vref * Value)) (reasonVar : vref)
    (reasonVal : Value) (σ σ1 : State) :
  pruneValues l reasonVar reasonVal σ = Ok (tt, σ1) →
  events σ1 = events σ →
  ∃ σ2, restoreValues reasonVar reasonVal σ1 = Ok (tt, σ2) ∧
        same_assignment σ σ2 ∧ events σ2 = events σ ∧
        undoDict σ2 = delete (reasonVar, reasonVal) (undoDict σ) ∧
        ∀ w, _curdom (store σ2 w) ≡ₚ
             _curdom (store σ w) ++
             logged_for w (default [] (undoDict σ !! (reasonVar, reasonVal))).
Proof.
  intros Hrun Hev.
  destruct (pruneValues_accounts _ _ _ _ _ Hrun Hev) as (Hsame & Hk & Hlog & Hperm).
  destruct (restoreValues_spec reasonVar reasonVal σ1) as (σ2 & Hres & Hsame2 & Hd & He & _).
  exists σ2. split; [done|]. split; [|split; [congruence|split]].
  - intros w. destruct (Hsame w) as (H1 & H2 & H3), (Hsame2 w) as (H4 & H5 & H6).
    by rewrite H4, H5, H6.
  - rewrite Hd. apply map_eq. intros k.
    destruct (decide (k = (reasonVar, reasonVal))) as [->|Hne].
    + by rewrite !lookup_delete_eq.
    + rewrite !lookup_delete_ne by done. by apply Hk.
  - intros w. rewrite (restoreValues_curdom _ _ _ _ Hres w), Hlog, logged_for_app.
    rewrite (Hperm w).
    rewrite <- !app_assoc. apply Permutation_app_head, Permutation_app_comm.
Qed.

Lemma pruneValues_restoreValues_witness :
  ∃ σ2, restoreValues Ex.A 1
          (after (pruneValues [(Ex.B, 1); (Ex.A, 2); (Ex.B, 2)] Ex.A 1) Ex.AB12)
        = Ok (tt, σ2) ∧
        same_assignment Ex.AB12 σ2 ∧ events σ2 = events Ex.AB12 ∧
        undoDict σ2 = delete (Ex.A, 1) (undoDict Ex.AB12) ∧
        ∀ w, _curdom (store σ2 w) ≡ₚ
             _curdom (store Ex.AB12 w) ++
             logged_for w (default [] (undoDict Ex.AB12 !! (Ex.A, 1))).
Proof.
  apply (pruneValues_restoreValues [(Ex.B, 1); (Ex.A, 2); (Ex.B, 2)] Ex.A 1 Ex.AB12).
  - vm_compute. reflexivity.
  - vm_compute. reflexivity.
Defined.

(** ** Variable.reset and the three views of the current domain *)

(** X2: [reset] gives the variable its whole domain back and unassigns it,
    whatever was pruned or assigned before, and leaves every other variable
    and the undo dictionary alone; so restoring a reason recorded before the
    reset appends the values logged for the variable to the whole domain. *)
Theorem reset_keeps_undoDict (self : vref) (reasonVar : vref) (reasonVal : Value)
    (σ : State) :
  ∃ σ1 σ2,
    reset self σ = Ok (tt, σ1) ∧
    curDomain (store σ1 self) = domain (store σ self) ∧
    curDomainSize (store σ1 self) = domainSize (store σ self) ∧
    isAssigned (store σ1 self) = false ∧
    domain (store σ1 self) = domain (store σ self) ∧
    (∀ w, w ≠ self → store σ1 w = store σ w) ∧
    undoDict σ1 = undoDict σ ∧ events σ1 = events σ ∧
    restoreValues reasonVar reasonVal σ1 = Ok (tt, σ2) ∧
    _curdom (store σ2 self) =
      domain (store σ self) ++
      logged_for self (default [] (undoDict σ !! (reasonVar, reasonVal))).
Proof.
  destruct (restoreValues_spec reasonVar reasonVal
              (after (reset self) σ)) as (σ2 & Hres & _).
  exists (after (reset self) σ), σ2.
  assert (Hst : store (after (reset self) σ) self =
                mkVar (_name (store σ self)) (_dom (store σ self))
                  (_dom (store σ self)) None).
  { unfold after, reset, bind, restoreCurDomain, unAssign, setValue, set_var, upd.
    simpl. by rewrite !decide_True. }
  split; [done|]. rewrite Hst.
  split; [done|]. split; [done|]. split; [done|]. split; [done|].
  split.
  { intros w Hw.
    unfold after, reset, bind, restoreCurDomain, unAssign, setValue, set_var, upd.
    simpl. by rewrite !decide_False. }
  split; [done|]. split; [done|]. split; [done|].
  rewrite (restoreValues_curdom _ _ _ _ Hres self). by rewrite Hst.
Qed.

(** X3: the three views of the current domain agree: [curDomainSize] is the
    length of [curDomain], and [inCurDomain] holds exactly for the values of
    [curDomain]; for an assigned variable the only such value is the assigned
    one, whatever has been pruned. *)
Theorem curDomain_views_agree (V : Var) (x : Value) :
  curDomainSize V = length (curDomain V) ∧
  (inCurDomain V x = true ↔ x ∈ curDomain V) ∧
  (isAssigned V = true → ∃ y, getValue V = Some y ∧ curDomain V = [y] ∧
                              inCurDomain V x = bool_decide (x = y)).
Proof.
  split; [|split].
  - unfold curDomainSize, curDomain. by destruct (getValue V).
  - apply inCurDomain_spec.
  - unfold isAssigned, curDomain, inCurDomain. destruct (getValue V) as [y|].
    + intros _. by exists y.
    + intros H. apply bool_decide_eq_true in H. done.
Qed.

(** ** Constraint.numUnassigned, check and hasSupport *)

Lemma numUnassigned_fold (h : vref → Var) vs : ∀ n,
  fold_left (fun i var => if negb (isAssigned (h var)) then S i else i) vs n =
  (n + length (filter (fun var => isAssigned (h var) = false) vs))%nat.
Proof.
  induction vs as [|v vs IH]; intros n; simpl; [lia|].
  rewrite IH. destruct (isAssigned (h v)) eqn:Hv; simpl.
  - by rewrite filter_cons_False by (by rewrite Hv).
  - rewrite filter_cons_True by done. simpl. lia.
Qed.

Lemma assignments_of_None (h : vref → Var) vs :
  assignments_of h vs = None ↔ ∃ v, v ∈ vs ∧ getValue (h v) = None.
Proof.
  induction vs as [|v vs IH]; simpl.
  - split; [done|]. intros (v & Hv & _). by apply elem_of_nil in Hv.
  - destruct (getValue (h v)) as [x|] eqn:Hx.
    + destruct (assignments_of h vs) as [l|]; simpl.
      * split; [done|]. intros (w & Hw & Hnone).
        apply elem_of_cons in Hw as [->|Hw]; [congruence|].
        assert (H : Some l = None) by (apply IH; by exists w). done.
      * split; [|done]. intros _. destruct (proj1 IH eq_refl) as (w & Hw & Hnone).
        exists w. split; [by right | done].
    + split; [|done]. intros _. exists v. split; [left | done].
Qed.

Lemma isAssigned_false V : isAssigned V = false ↔ getValue V = None.
Proof.
  unfold isAssigned. destruct (getValue V) as [y|].
  - split; [|done]. intros H. apply bool_decide_eq_false in H. by destruct H.
  - split; [done|]. intros _. apply bool_decide_eq_false. by intros H.
Qed.

(** X4: [numUnassigned] counts the variables [unAssignedVars] lists; while it
    is not zero [check] answers [True] whatever the constraint says, and once
    it is zero [check] answers whether the assigned values satisfy the
    constraint. *)
Theorem check_vacuous_until_complete (h : vref → Var) (c : Constraint) :
  numUnassigned h c = length (unAssignedVars h c) ∧
  (∀ v, v ∈ unAssignedVars h c ↔ v ∈ scope c ∧ getValue (h v) = None) ∧
  (numUnassigned h c ≠ 0%nat → check h c = true) ∧
  (numUnassigned h c = 0%nat →
   (check h c = true ↔ sat_fun c (fun w => default 0 (getValue (h w))))).
Proof.
  assert (Hnum : numUnassigned h c = length (unAssignedVars h c)).
  { unfold numUnassigned, unAssignedVars. by rewrite numUnassigned_fold. }
  assert (Hmem : ∀ v, v ∈ unAssignedVars h c ↔ v ∈ scope c ∧ getValue (h v) = None).
  { intros v. unfold unAssignedVars. rewrite list_elem_of_filter, isAssigned_false.
    tauto. }
  split; [done|]. split; [done|]. split.
  - intros Hne. rewrite Hnum in Hne.
    destruct (unAssignedVars h c) as [|v l] eqn:Hl; [done|].
    assert (Hv : v ∈ scope c ∧ getValue (h v) = None) by (apply Hmem; left).
    assert (Hnone : assignments_of h (scope c) = None).
    { apply assignments_of_None. by exists v. }
    destruct c; simpl in *; unfold TableConstraint_check, NValuesConstraint_check;
      by rewrite Hnone.
  - intros Hz. rewrite Hnum in Hz. apply nil_length_inv in Hz.
    apply check_sat_fun. intros w Hw.
    destruct (getValue (h w)) as [y|] eqn:Hy; [done|].
    assert (Hin : w ∈ unAssignedVars h c) by (by apply Hmem).
    rewrite Hz in Hin. by apply elem_of_nil in Hin.
Qed.

(** X5: on a complete assignment of its scope, [hasSupport] asked about a
    scope variable and the value it holds answers what [check] answers. *)
Theorem hasSupport_agrees_with_check (h : vref → Var) (c : Constraint)
    (v : vref) (x : Value) :
  wf_constraint c →
  (∀ w, w ∈ scope c → getValue (h w) ≠ None) →
  v ∈ scope c → getValue (h v) = Some x →
  hasSupport h c v x = Ok (check h c).
Proof.
  intros Hwf Hall Hv Hx.
  set (f := fun w => default 0 (getValue (h w))).
  assert (Hf : ∀ w, w ∈ scope c → getValue (h w) = Some (f w)).
  { intros w Hw. unfold f. destruct (getValue (h w)) eqn:E; [done|].
    by destruct (Hall w Hw). }
  destruct (hasSupport_sem h c v x Hwf Hv) as (b & Hb & Hiff).
  rewrite Hb. f_equal.
  pose proof (check_sat_fun h c f Hf) as Hcheck.
  apply eq_true_iff_eq. rewrite Hiff, Hcheck. split.
  - intros (g & Hsat & Hgv & Hfit).
    eapply sat_fun_ext; [|exact Hsat]. intros w Hw.
    destruct (decide (w = v)) as [->|Hne].
    + rewrite Hgv. pose proof (Hf v Hv) as E. congruence.
    + specialize (Hfit w Hw Hne). unfold curDomain in Hfit.
      rewrite (Hf w Hw) in Hfit. by apply list_elem_of_singleton in Hfit.
  - intros Hsat. exists f. split; [done|]. split.
    + pose proof (Hf v Hv) as E. congruence.
    + intros w Hw _. unfold curDomain. rewrite (Hf w Hw). left.
Qed.

Lemma hasSupport_agrees_with_check_witness :
  hasSupport (store (after (setValue Ex.B (Some 2)) Ex2.AB12_A1)) (Ex2.neq 0%nat) Ex.A 1
  = Ok (check (store (after (setValue Ex.B (Some 2)) Ex2.AB12_A1)) (Ex2.neq 0%nat)).
Proof.
  apply (hasSupport_agrees_with_check
           (store (after (setValue Ex.B (Some 2)) Ex2.AB12_A1)) (Ex2.neq 0%nat) Ex.A 1).
  - split.
    + apply (bool_decide_unpack _). vm_compute. exact I.
    + repeat constructor.
  - intros w Hw.
    assert (Hc : w = Ex.A ∨ w = Ex.B).
    { vm_compute in Hw. apply elem_of_cons in Hw as [->|Hw]; [by left|].
      apply list_elem_of_singleton in Hw as ->. by right. }
    destruct Hc as [->| ->]; vm_compute; discriminate.
  - apply (bool_decide_unpack _). vm_compute. exact I.
  - vm_compute. reflexivity.
Defined.

(** X6: support only grows with the current domains.  For an NValues
    constraint, and for a table whose tuples have the length of its scope, a
    value that has support keeps it in every store in which the current
    domain of each scope variable contains the one it has now. *)
Theorem hasSupport_monotone (h h' : vref → Var) (c : Constraint)
    (v : vref) (x : Value) :
  tuples_fit c →
  (∀ w y, w ∈ scope c → y ∈ curDomain (h w) → y ∈ curDomain (h' w)) →
  hasSupport h c v x = Ok true → hasSupport h' c v x = Ok true.
Proof.
  intros Hfit Hsub Hsup.
  destruct (decide (v ∈ scope c)) as [Hv|Hv].
  - destruct c as [name sc sat|name sc req lb ub]; simpl in *.
    + unfold TableConstraint_hasSupport in *.
      rewrite bool_decide_eq_false_2 in Hsup by (intros H; by apply H).
      rewrite bool_decide_eq_false_2 by (intros H; by apply H).
      destruct (index v sc) as [i|] eqn:Hidx; [|done].
      apply index_Some in Hidx as [Hi _].
      assert (Hlt : (i < length sc)%nat) by (by eapply lookup_lt_Some).
      destruct (table_loop_spec h sc i x sat Hlt Hfit) as (b & Hb & Hiff).
      destruct (table_loop_spec h' sc i x sat Hlt Hfit) as (b' & Hb' & Hiff').
      rewrite Hb'. f_equal. apply Hiff'.
      rewrite Hb in Hsup. injection Hsup as ->.
      destruct (proj1 Hiff eq_refl) as (t & Ht & Hx & Hts).
      exists t. split; [done|]. split; [done|].
      intros j w Hj Hw. destruct (Hts j w Hj Hw) as (a & Ha & Hin).
      exists a. split; [done|]. apply Hsub; [|done]. by eapply list_elem_of_lookup_2.
    + destruct (NValuesConstraint_hasSupport_extends h sc req lb ub v x Hv)
        as (b & Hb & Hiff).
      destruct (NValuesConstraint_hasSupport_extends h' sc req lb ub v x Hv)
        as (b' & Hb' & Hiff').
      rewrite Hb'. f_equal. apply Hiff'.
      rewrite Hb in Hsup. injection Hsup as ->.
      destruct (proj1 Hiff eq_refl) as (vals & Hpicks & Hcount).
      exists vals. split; [|done].
      assert (Hmem : ∀ w, w ∈ remove_var v sc → w ∈ sc).
      { intros w Hw. rewrite (remove_var_Permutation v sc Hv). by right. }
      unfold picks in *. clear Hcount Hiff Hiff' Hb Hb'.
      induction Hpicks as [|w y ws ys Hy _ IH]; [constructor|].
      constructor.
      * apply Hsub; [apply Hmem; left | done].
      * apply IH. intros w' Hw'. apply Hmem. by right.
  - destruct c; simpl in *;
      unfold TableConstraint_hasSupport, NValuesConstraint_hasSupport;
      by rewrite bool_decide_eq_true_2.
Qed.

(** In the first store, B has lost the value 1; under the table [A ≠ B] the
    support of [A = 1] is the tuple [1, 2], which is still there when B gets
    the value back.  Under "exactly one of A, B takes the value 1" likewise. *)
Lemma hasSupport_monotone_witness :
  hasSupport (store Ex.AB12) (Ex2.neq 0%nat) Ex.A 1 = Ok true ∧
  hasSupport (store Ex.AB12) (NValuesConstraint "one" [Ex.A; Ex.B] [1] 1 1) Ex.A 1
  = Ok true.
Proof.
  assert (Hsub : ∀ w y, w ∈ [Ex.A; Ex.B] →
            y ∈ curDomain (store (after (pruneValue Ex.B 1 Ex.A 1) Ex.AB12) w) →
            y ∈ curDomain (store Ex.AB12 w)).
  { intros w y Hw Hy.
    assert (Hc : w = Ex.A ∨ w = Ex.B).
    { apply elem_of_cons in Hw as [->|Hw]; [by left|].
      apply list_elem_of_singleton in Hw as ->. by right. }
    destruct Hc as [->| ->].
    - exact Hy.
    - vm_compute in Hy. apply list_elem_of_singleton in Hy as ->.
      apply (bool_decide_unpack _). vm_compute. exact I. }
  split.
  - apply (hasSupport_monotone
             (store (after (pruneValue Ex.B 1 Ex.A 1) Ex.AB12)) (store Ex.AB12)
             (Ex2.neq 0%nat) Ex.A 1).
    + repeat constructor.
    + exact Hsub.
    + vm_compute. reflexivity.
  - apply (hasSupport_monotone
             (store (after (pruneValue Ex.B 1 Ex.A 1) Ex.AB12)) (store Ex.AB12)
             (NValuesConstraint "one" [Ex.A; Ex.B] [1] 1 1) Ex.A 1).
    + exact I.
    + exact Hsub.
    + vm_compute. reflexivity.
Defined.

(** ** What findvals_ leaves in its two lists *)

(** The loop over the values of one variable: what it leaves behind, given
    what the recursive call leaves behind. *)
Lemma findvals_for_leaves rec partialTestfn var remaining
    (Q : Assignment → Assignment → Prop) :
  (∀ a1 b r a', rec remaining a1 = Ok (b, r, a') →
                (b = false → r = remaining ∧ a' = a1) ∧
                (b = true → r = [] ∧ Q a1 a')) →
  ∀ vals a b r a',
    findvals_for rec partialTestfn var vals remaining a = Ok (b, r, a') →
    (b = false → r = remaining ++ [var] ∧ a' = a) ∧
    (b = true → r = [] ∧ ∃ y, y ∈ vals ∧ Q (a ++ [(var, y)]) a').
Proof.
  intros Hrec vals. induction vals as [|y vals IH]; intros a b r a' Hrun; simpl in Hrun.
  - injection Hrun as <- <- <-. done.
  - assert (Hlater : findvals_for rec partialTestfn var vals remaining a = Ok (b, r, a') →
                     (b = false → r = remaining ++ [var] ∧ a' = a) ∧
                     (b = true → r = [] ∧ ∃ y0, y0 ∈ y :: vals ∧ Q (a ++ [(var, y0)]) a')).
    { intros Hrun'. destruct (IH _ _ _ _ Hrun') as [Hf Ht]. split; [done|].
      intros Hb. destruct (Ht Hb) as (-> & y0 & Hy0 & HQ).
      split; [done|]. exists y0. split; [by right | done]. }
    destruct (partialTestfn (a ++ [(var, y)])) eqn:Hpart.
    + destruct (rec remaining (a ++ [(var, y)])) as [[[b1 r1] a1]| |] eqn:Hr; try done.
      destruct (Hrec _ _ _ _ Hr) as [Hfalse Htrue]. destruct b1.
      * injection Hrun as <- <- <-. destruct (Htrue eq_refl) as [-> HQ].
        split; [done|]. intros _. split; [done|]. exists y. split; [left | done].
      * destruct (Hfalse eq_refl) as [-> ->]. rewrite removelast_last in Hrun.
        by apply Hlater.
    + rewrite removelast_last in Hrun. by apply Hlater.
Qed.

Lemma findvals__leaves_lists h finalTestfn partialTestfn fuel :
  ∀ remaining a b r a',
    findvals_ fuel h remaining a finalTestfn partialTestfn = Ok (b, r, a') →
    (b = false → r = remaining ∧ a' = a) ∧
    (b = true → r = [] ∧
       ∃ vals, picks h (reverse remaining) vals ∧
               a' = a ++ zip (reverse remaining) vals ∧ finalTestfn a' = true).
Proof.
  induction fuel as [|fuel IH]; intros remaining a b r a' Hrun; [done|].
  simpl in Hrun. destruct remaining as [|v remaining _] using rev_ind.
  - rewrite pop_last_nil in Hrun. injection Hrun as <- <- <-.
    split; [done|]. intros Hfin. split; [done|]. exists []. split; [constructor|].
    simpl. by rewrite app_nil_r.
  - rewrite pop_last_snoc in Hrun. rewrite reverse_snoc.
    destruct (findvals_for_leaves
                (fun r0 a0 => findvals_ fuel h r0 a0 finalTestfn partialTestfn)
                partialTestfn v remaining
                (fun a1 a2 => ∃ vals, picks h (reverse remaining) vals ∧
                                      a2 = a1 ++ zip (reverse remaining) vals ∧
                                      finalTestfn a2 = true)
                (IH remaining) _ _ _ _ _ Hrun) as [Hf Ht].
    split; [done|]. intros Hb.
    destruct (Ht Hb) as (-> & y & Hy & vals & Hvals & -> & Hfin).
    split; [done|]. exists (y :: vals). split; [by constructor|].
    split; [|done]. simpl. by rewrite <- app_assoc.
Qed.

(** X7: [findvals_] returns as soon as the fuel exceeds the number of
    remaining variables.  On [False] its two lists are back to what they were
    when it was called and no assignment passes the tests; on [True] the list
    of remaining variables is empty and the assignment list holds the
    assignment found: the variables in the order they were popped, each with a
    value of its current domain, and it passes [finalTestfn]. *)
Theorem findvals__leaves (h : vref → Var) (finalTestfn partialTestfn : Assignment → bool)
    (fuel : nat) (remainingVars : list vref) (assignment : Assignment) :
  (length remainingVars < fuel)%nat →
  ∃ b r a', findvals_ fuel h remainingVars assignment finalTestfn partialTestfn
            = Ok (b, r, a') ∧
    (b = false →
       r = remainingVars ∧ a' = assignment ∧
       ¬ search_ok h finalTestfn partialTestfn (reverse remainingVars) assignment) ∧
    (b = true →
       r = [] ∧
       ∃ vals, picks h (reverse remainingVars) vals ∧
               a' = assignment ++ zip (reverse remainingVars) vals ∧
               finalTestfn a' = true).
Proof.
  intros Hlen.
  destruct (findvals__spec h finalTestfn partialTestfn fuel remainingVars assignment Hlen)
    as (b & r & a' & Hrun & _ & Hiff).
  destruct (findvals__leaves_lists _ _ _ _ _ _ _ _ _ Hrun) as [Hf Ht].
  exists b, r, a'. split; [done|]. split; [|done].
  intros ->. destruct (Hf eq_refl) as [-> ->]. split; [done|]. split; [done|].
  intros Hs. apply Hiff in Hs. done.
Qed.

Lemma findvals__leaves_witness :
  ∃ b r a', findvals_ 3 (store Ex.AB12) [Ex.A; Ex.B] []
              (fun a => bool_decide (a.*2 = [2; 1])) (fun _ => true)
            = Ok (b, r, a') ∧
    (b = false →
       r = [Ex.A; Ex.B] ∧ a' = [] ∧
       ¬ search_ok (store Ex.AB12) (fun a => bool_decide (a.*2 = [2; 1]))
           (fun _ => true) (reverse [Ex.A; Ex.B]) []) ∧
    (b = true →
       r = [] ∧
       ∃ vals, picks (store Ex.AB12) (reverse [Ex.A; Ex.B]) vals ∧
               a' = [] ++ zip (reverse [Ex.A; Ex.B]) vals ∧
               (fun a => bool_decide (a.*2 = [2; 1])) a' = true).
Proof.
  apply (findvals__leaves (store Ex.AB12) (fun a => bool_decide (a.*2 = [2; 1]))
           (fun _ => true) 3 [Ex.A; Ex.B] []).
  simpl. lia.
Defined.


(** ** The constructor of CSP and constraintsOf *)

Lemma index_constraint_fold_outcome variables c vs : ∀ t,
  match fold_left (index_constraint variables c) vs (Ok t) with
  | Ok t' => length t' = length t ∧ ∀ v, v ∈ vs → v ∈ variables
  | Raise e => e = ValueError ∧ ∃ v, v ∈ vs ∧ v ∉ variables
  | OutOfFuel => False
  end.
Proof.
  induction vs as [|v vs IH]; intros t; simpl.
  - split; [done|]. intros v Hv. by apply elem_of_nil in Hv.
  - destruct (index v variables) as [i|] eqn:Hi.
    + specialize (IH (<[i:=default [] (t !! i) ++ [c]]> t)).
      destruct (fold_left _ vs _) as [t'|e|].
      * destruct IH as [Hlen Hin]. rewrite length_insert in Hlen. split; [done|].
        intros w Hw. apply elem_of_cons in Hw as [->|Hw]; [|by apply Hin].
        apply index_Some in Hi as [Hi _]. by eapply list_elem_of_lookup_2.
      * destruct IH as (-> & w & Hw & Hout). split; [done|].
        exists w. split; [by right | done].
      * done.
    + rewrite index_constraint_fold_fail by done. split; [done|].
      exists v. split; [left|]. by apply index_None.
Qed.

Lemma index_constraints_fold_outcome Γ variables cs : ∀ t,
  match fold_left
          (fun acc c => fold_left (index_constraint variables c) (scope (Γ c)) acc)
          cs (Ok t) with
  | Ok t' => length t' = length t ∧
             ∀ c v, c ∈ cs → v ∈ scope (Γ c) → v ∈ variables
  | Raise e => e = ValueError ∧ ∃ c v, c ∈ cs ∧ v ∈ scope (Γ c) ∧ v ∉ variables
  | OutOfFuel => False
  end.
Proof.
  induction cs as [|c cs IH]; intros t; simpl.
  - split; [done|]. intros c v Hc. by apply elem_of_nil in Hc.
  - pose proof (index_constraint_fold_outcome variables c (scope (Γ c)) t) as Hc.
    destruct (fold_left (index_constraint variables c) (scope (Γ c)) (Ok t))
      as [t1|e|].
    + specialize (IH t1). destruct (fold_left _ cs (Ok t1)) as [t'|e|].
      * destruct Hc as [Hl1 Hin1], IH as [Hl Hin]. split; [congruence|].
        intros c0 v Hc0 Hv. apply elem_of_cons in Hc0 as [->|Hc0]; [by apply Hin1|].
        by eapply Hin.
      * destruct IH as (-> & c0 & v & Hc0 & Hv & Hout). split; [done|].
        exists c0, v. split; [by right | done].
      * done.
    + rewrite index_constraints_fold_fail by done.
      destruct Hc as (-> & v & Hv & Hout). split; [done|].
      exists c, v. split; [left | done].
    + done.
Qed.

(** X9: the constructor of [CSP] fails exactly when some constraint has a
    scope variable that is not among the variables, and then with
    [ValueError]; otherwise it returns a CSP that holds the variables and the
    constraints it was given, with one index entry per variable. *)
Theorem CSP_init_raises_iff (Γ : cref → Constraint) (name : string)
    (variables : list vref) (constraints : list cref) :
  match CSP_init Γ name variables constraints with
  | Ok csp =>
      (∀ c v, c ∈ constraints → v ∈ scope (Γ c) → v ∈ variables) ∧
      _variables csp = variables ∧ _constraints csp = constraints ∧
      csp_name csp = name ∧
      length (constraints_of csp) = length variables
  | Raise e =>
      e = ValueError ∧
      ∃ c v, c ∈ constraints ∧ v ∈ scope (Γ c) ∧ v ∉ variables
  | OutOfFuel => False
  end.
Proof.
  unfold CSP_init.
  pose proof (index_constraints_fold_outcome Γ variables constraints
                (replicate (length variables) [])) as H.
  destruct (fold_left _ constraints _) as [t|e|]; [|done|done].
  destruct H as [Hlen Hin]. rewrite length_replicate in Hlen. by simpl.
Qed.

(** ** CSP.check *)

Lemma same_domains_refl σ : same_domains σ σ.
Proof. by split. Qed.

Lemma same_domains_trans σ1 σ2 σ3 :
  same_domains σ1 σ2 → same_domains σ2 σ3 → same_domains σ1 σ3.
Proof.
  intros [Hu1 H1] [Hu2 H2]. split; [congruence|]. intros w.
  destruct (H1 w) as (A1 & A2 & A3), (H2 w) as (B1 & B2 & B3).
  split; [congruence|]. split; congruence.
Qed.

Lemma setValue_same_domains v x σ :
  ∃ σ', setValue v x σ = Ok (tt, σ') ∧ same_domains σ σ' ∧
        (∀ w, w ≠ v → store σ' w = store σ w).
Proof.
  destruct (setValue_spec σ v x) as (σ' & Hrun & Hu & Hoth & Hn & Hd & Hc & _).
  exists σ'. split; [done|]. split; [|done]. split; [done|]. intros w.
  destruct (decide (w = v)) as [->|Hne]; [done|]. by rewrite (Hoth w Hne).
Qed.

Lemma setValues_same_domains s : ∀ σ,
  ∃ σ', setValues s σ = Ok (tt, σ') ∧ same_domains σ σ' ∧
        (∀ w, w ∉ s.*1 → store σ' w = store σ w).
Proof.
  induction s as [|[v x] s IH]; intros σ; simpl.
  - exists σ. split; [done|]. split; [apply same_domains_refl | done].
  - unfold bind. destruct (setValue_same_domains v x σ) as (σ1 & Hrun & Hsame & Hoth).
    rewrite Hrun. destruct (IH σ1) as (σ' & Hrun' & Hsame' & Hoth').
    exists σ'. split; [done|]. split; [by eapply same_domains_trans|].
    intros w Hw. apply not_elem_of_cons in Hw as [Hne Hw].
    rewrite Hoth' by done. by apply Hoth.
Qed.

(** Assigning values of the domains: every variable mentioned ends up with
    the value [f] gives it. *)
Lemma setValues_assigns (f : vref → option Value) s : ∀ σ σ',
  setValues s σ = Ok (tt, σ') →
  (∀ v x, (v, x) ∈ s → x = f v ∧ ∀ y, x = Some y → y ∈ _dom (store σ v)) →
  (∀ w, w ∈ s.*1 → getValue (store σ' w) = f w) ∧
  (∀ w, w ∉ s.*1 → store σ' w = store σ w) ∧
  events σ' = events σ.
Proof.
  induction s as [|[v x] s IH]; intros σ σ' Hrun Hs; simpl in Hrun.
  - injection Hrun as <-. split; [|done]. intros w Hw. by apply elem_of_nil in Hw.
  - unfold bind in Hrun.
    destruct (setValue_spec σ v x) as (σ1 & Hrun1 & Hu & Hoth & Hn & Hd & Hc & Hcase).
    rewrite Hrun1 in Hrun.
    destruct (Hs v x) as [Hx Hdom]; [left|].
    assert (Hv1 : getValue (store σ1 v) = f v ∧ events σ1 = events σ).
    { destruct x as [y|]; [|by rewrite <- Hx].
      rewrite bool_decide_eq_true_2 in Hcase by (by apply Hdom).
      by rewrite <- Hx. }
    destruct Hv1 as [Hv1 Hev1].
    destruct (IH σ1 σ' Hrun) as (Hin & Hout & Hev).
    { intros w z Hwz. destruct (Hs w z) as [Hz Hzd]; [by right|]. split; [done|].
      intros y Hy. destruct (decide (w = v)) as [->|Hne].
      - rewrite Hd. by apply Hzd.
      - rewrite (Hoth w Hne). by apply Hzd. }
    split; [|split; [|congruence]].
    + intros w Hw. simpl in Hw.
      destruct (decide (w ∈ s.*1)) as [Hws|Hws]; [by apply Hin|].
      apply elem_of_cons in Hw as [->|Hw]; [|done].
      by rewrite (Hout v Hws).
    + intros w Hw. simpl in Hw. apply not_elem_of_cons in Hw as [Hne Hw].
      rewrite (Hout w Hw). by apply Hoth.
Qed.

Lemma Var_eq (V W : Var) :
  _name V = _name W → _dom V = _dom W → _curdom V = _curdom W → _value V = _value W →
  V = W.
Proof. destruct V, W. simpl. by intros -> -> -> ->. Qed.

Lemma checked_vars (s_vars vars : list vref) w :
  (list_to_set s_vars : gset vref) = list_to_set vars → w ∈ s_vars ↔ w ∈ vars.
Proof.
  intros Heq. by rewrite <- (elem_of_list_to_set (C := gset vref)), Heq,
    elem_of_list_to_set.
Qed.

Lemma CSP_check_solution_frame Γ csp errs s σ :
  ∃ errs' σ', CSP_check_solution Γ csp errs s σ = Ok (errs', σ') ∧
              same_domains σ σ' ∧
              (∀ w, w ∉ variables csp → store σ' w = store σ w) ∧
              ∃ new, errs' = errs ++ new ∧ ∀ e, e ∈ new → e.1 = s.
Proof.
  unfold CSP_check_solution.
  assert (Hone : ∀ msg, ∃ new : list (list (vref * option Value) * string),
                   errs ++ [(s, msg)] = errs ++ new ∧ ∀ e, e ∈ new → e.1 = s).
  { intros msg. exists [(s, msg)]. split; [done|]. intros e He.
    by apply list_elem_of_singleton in He as ->. }
  repeat case_bool_decide.
  1-3: eexists _, σ; split; [done|]; split; [apply same_domains_refl|]; split; [done|];
       apply Hone.
  unfold bind. destruct (setValues_same_domains s σ) as (σ' & Hrun & Hsame & Hout).
  rewrite Hrun.
  assert (Hfr : ∀ w, w ∉ variables csp → store σ' w = store σ w).
  { intros w Hw. apply Hout. intros Hin. apply Hw.
    by apply (checked_vars s.*1 (variables csp) w). }
  destruct (first_failing Γ (store σ') (constraints csp)) as [c|].
  - eexists _, σ'. split; [done|]. split; [done|]. split; [done|]. apply Hone.
  - exists errs, σ'. split; [done|]. split; [done|]. split; [done|].
    exists []. split; [by rewrite app_nil_r|]. intros e He. by apply elem_of_nil in He.
Qed.

Lemma CSP_check_loop_frame Γ csp sols : ∀ errs σ,
  ∃ errs' σ', CSP_check_loop Γ csp sols errs σ = Ok (errs', σ') ∧
              same_domains σ σ' ∧
              (∀ w, w ∉ variables csp → store σ' w = store σ w) ∧
              ∃ new, errs' = errs ++ new ∧ ∀ e, e ∈ new → e.1 ∈ sols.
Proof.
  induction sols as [|s sols IH]; intros errs σ; simpl.
  - exists errs, σ. split; [done|]. split; [apply same_domains_refl|]. split; [done|].
    exists []. split; [by rewrite app_nil_r|]. intros e He. by apply elem_of_nil in He.
  - unfold bind.
    destruct (CSP_check_solution_frame Γ csp errs s σ)
      as (errs1 & σ1 & Hrun & Hsame & Hout & new1 & -> & Hnew1).
    rewrite Hrun.
    destruct (IH (errs ++ new1) σ1) as (errs' & σ' & Hrun' & Hsame' & Hout' & new & -> & Hnew).
    exists ((errs ++ new1) ++ new), σ'. split; [done|].
    split; [by eapply same_domains_trans|]. split.
    + intros w Hw. rewrite Hout' by done. by apply Hout.
    + exists (new1 ++ new). split; [by rewrite app_assoc|].
      intros e He. apply elem_of_app in He as [He|He].
      * rewrite (Hnew1 e He). left.
      * right. by apply Hnew.
Qed.

(** Putting saved values back: every variable of [vs] gets the value it has
    in [σ0]. *)
Lemma setValues_restores (σ0 : State) vs : ∀ σ1,
  same_domains σ0 σ1 →
  (∀ w y, w ∈ vs → getValue (store σ0 w) = Some y → y ∈ _dom (store σ0 w)) →
  ∃ σ2, setValues (map (fun var => (var, getValue (store σ0 var))) vs) σ1
        = Ok (tt, σ2) ∧
        same_domains σ1 σ2 ∧ events σ2 = events σ1 ∧
        (∀ w, w ∈ vs → getValue (store σ2 w) = getValue (store σ0 w)) ∧
        (∀ w, w ∉ vs → store σ2 w = store σ1 w).
Proof.
  intros σ1 Hsame Hdom.
  destruct (setValues_same_domains
              (map (fun var => (var, getValue (store σ0 var))) vs) σ1)
    as (σ2 & Hrun & Hsame2 & _).
  exists σ2. split; [done|]. split; [done|].
  assert (Hkeys : (map (fun var => (var, getValue (store σ0 var))) vs).*1 = vs).
  { rewrite <- list_fmap_compose. apply list_fmap_id. }
  destruct (setValues_assigns (fun w => getValue (store σ0 w)) _ _ _ Hrun)
    as (Hin & Hout & Hev).
  { intros v x Hvx. apply list_elem_of_fmap in Hvx as (w & [= -> ->] & Hw).
    split; [done|]. intros y Hy.
    destruct Hsame as [_ Hf]. destruct (Hf w) as (_ & -> & _). by apply Hdom. }
  rewrite Hkeys in Hin, Hout. done.
Qed.

(** X10: [CSP.check] leaves the world as it found it: when the values the
    variables of the CSP hold are values of their domains, it returns its
    list of errors and every variable, of the CSP or not, has the name, the
    domains and the value it had, and the undo dictionary is untouched; the
    solutions it reports are among those it was given. *)
Theorem CSP_check_restores_values (Γ : cref → Constraint) (csp : CSP)
    (solutions : list (list (vref * option Value))) (σ : State) :
  (∀ w y, w ∈ variables csp → getValue (store σ w) = Some y → y ∈ _dom (store σ w)) →
  ∃ errs σ', CSP_check Γ csp solutions σ = Ok (errs, σ') ∧
             (∀ w, store σ' w = store σ w) ∧
             undoDict σ' = undoDict σ ∧
             ∀ e, e ∈ errs → e.1 ∈ solutions.
Proof.
  intros Hdom. unfold CSP_check, bind.
  destruct (CSP_check_loop_frame Γ csp solutions [] σ)
    as (errs & σ1 & Hrun & Hsame & Hout & new & Hnew & Hin).
  rewrite Hrun.
  destruct (setValues_restores σ (variables csp) σ1 Hsame Hdom)
    as (σ2 & Hrun2 & Hsame2 & _ & Hvals & Hout2).
  rewrite Hrun2. exists errs, σ2. split; [done|].
  destruct (same_domains_trans _ _ _ Hsame Hsame2) as [Hu Hf].
  split; [|split; [done|]].
  - intros w. destruct (Hf w) as (H1 & H2 & H3). apply Var_eq; try done.
    destruct (decide (w ∈ variables csp)) as [Hw|Hw].
    + by apply Hvals.
    + rewrite (Hout2 w Hw). by rewrite (Hout w Hw).
  - intros e He. apply Hin. simpl in Hnew. by rewrite <- Hnew.
Qed.

Lemma remove_dups_NoDup (l : list vref) : NoDup l → remove_dups l = l.
Proof.
  induction 1 as [|x l Hx _ IH]; simpl; [done|].
  destruct (decide_rel elem_of x l); [done|]. by rewrite IH.
Qed.

Lemma first_failing_spec Γ h cs :
  match first_failing Γ h cs with
  | Some c => c ∈ cs ∧ check h (Γ c) = false
  | None => ∀ c, c ∈ cs → check h (Γ c) = true
  end.
Proof.
  induction cs as [|c cs IH]; simpl.
  - intros c Hc. by apply elem_of_nil in Hc.
  - destruct (check h (Γ c)) eqn:Hc.
    + destruct (first_failing Γ h cs) as [d|].
      * destruct IH. split; [by right | done].
      * intros d Hd. apply elem_of_cons in Hd as [->|Hd]; [done | by apply IH].
    + split; [left | done].
Qed.

Section Reports.

Variable Γ : cref → Constraint.
Variable csp : CSP.
Variable σ : State.

Hypothesis vars_NoDup : NoDup (variables csp).
Hypothesis scopes : ∀ c v, c ∈ constraints csp → v ∈ scope (Γ c) → v ∈ variables csp.

Lemma CSP_check_solution_proper errs s (f : vref → Value) σ1 errs' σ2 :
  same_domains σ σ1 → proper csp σ s →
  (∀ v x, (v, x) ∈ s → x = Some (f v)) →
  CSP_check_solution Γ csp errs s σ1 = Ok (errs', σ2) →
  (errs' = errs ∧ ∀ c, c ∈ constraints csp → sat_fun (Γ c) f) ∨
  (∃ c, c ∈ constraints csp ∧ ¬ sat_fun (Γ c) f ∧ errs' = errs ++ [(s, unsatisfied Γ c)]).
Proof.
  intros [_ Hsame] [Hperm Hdom] Hf Hrun. unfold CSP_check_solution in Hrun.
  rewrite bool_decide_eq_false_2 in Hrun by (by rewrite Hperm; intros H; apply H).
  rewrite bool_decide_eq_false_2 in Hrun.
  2:{ rewrite remove_dups_NoDup by (by rewrite Hperm). rewrite Hperm. by intros H. }
  rewrite bool_decide_eq_false_2 in Hrun.
  2:{ intros H. apply H. apply set_eq. intros w. rewrite !elem_of_list_to_set.
      by rewrite Hperm. }
  unfold bind in Hrun.
  destruct (setValues s σ1) as [[[] σm]| |] eqn:Hset; try done.
  destruct (setValues_assigns (fun w => Some (f w)) s σ1 σm Hset) as (Hin & _ & _).
  { intros v x Hvx. split; [by apply Hf|]. intros y ->.
    destruct (Hdom v (Some y) Hvx) as (y' & [= <-] & Hy).
    destruct (Hsame v) as (_ & -> & _). done. }
  assert (Hvals : ∀ c w, c ∈ constraints csp → w ∈ scope (Γ c) →
                         getValue (store σm w) = Some (f w)).
  { intros c w Hc Hw. apply Hin. rewrite Hperm. by eapply scopes. }
  pose proof (first_failing_spec Γ (store σm) (constraints csp)) as Hff.
  destruct (first_failing Γ (store σm) (constraints csp)) as [c|].
  - injection Hrun as <- <-. destruct Hff as [Hc Hfail]. right. exists c.
    split; [done|]. split; [|done]. intros Hsat.
    apply (check_sat_fun (store σm) (Γ c) f) in Hsat; [congruence|].
    intros w Hw. by eapply Hvals.
  - injection Hrun as <- <-. left. split; [done|]. intros c Hc.
    apply (check_sat_fun (store σm) (Γ c) f); [|by apply Hff].
    intros w Hw. by eapply Hvals.
Qed.

Lemma CSP_check_loop_proper sols : ∀ errs σ1 errs' σ2,
  same_domains σ σ1 → (∀ s, s ∈ sols → proper csp σ s) →
  CSP_check_loop Γ csp sols errs σ1 = Ok (errs', σ2) →
  ∃ new, errs' = errs ++ new ∧
    ∀ s f, (∀ v x, (v, x) ∈ s → x = Some (f v)) →
      (∀ msg, (s, msg) ∈ new →
         s ∈ sols ∧
         ∃ c, c ∈ constraints csp ∧ ¬ sat_fun (Γ c) f ∧ msg = unsatisfied Γ c) ∧
      (s ∈ sols → (∃ c, c ∈ constraints csp ∧ ¬ sat_fun (Γ c) f) →
         ∃ msg, (s, msg) ∈ new).
Proof.
  induction sols as [|s0 sols IH]; intros errs σ1 errs' σ2 Hsame Hprop Hrun;
    simpl in Hrun.
  - injection Hrun as <- <-. exists []. split; [by rewrite app_nil_r|].
    intros s f _. split.
    + intros msg H. by apply elem_of_nil in H.
    + intros H. by apply elem_of_nil in H.
  - unfold bind in Hrun.
    destruct (CSP_check_solution_frame Γ csp errs s0 σ1)
      as (errs1 & σm & Hrun1 & Hsame1 & _ & new1 & -> & Hnew1).
    rewrite Hrun1 in Hrun.
    destruct (IH _ _ _ _ (same_domains_trans _ _ _ Hsame Hsame1)
                (fun s Hs => Hprop s (list_elem_of_further _ _ _ Hs)) Hrun)
      as (new & -> & Hnew).
    exists (new1 ++ new). split; [by rewrite app_assoc|].
    intros s f Hf.
    assert (Hhead : s = s0 →
              (new1 = [] ∧ ∀ c, c ∈ constraints csp → sat_fun (Γ c) f) ∨
              (∃ c, c ∈ constraints csp ∧ ¬ sat_fun (Γ c) f ∧
                    new1 = [(s0, unsatisfied Γ c)])).
    { intros ->.
      destruct (CSP_check_solution_proper errs s0 f σ1 _ _ Hsame
                  (Hprop s0 (list_elem_of_here _ _)) Hf Hrun1)
        as [[He Hall]|(c & Hc & Hn & He)].
      - left. split; [|done]. apply (app_inv_head errs). by rewrite app_nil_r.
      - right. exists c. split; [done|]. split; [done|].
        by apply (app_inv_head errs). }
    split.
    + intros msg Hm. apply elem_of_app in Hm as [Hm|Hm].
      * pose proof (Hnew1 _ Hm) as Hs. simpl in Hs. subst s0.
        split; [left|].
        destruct (Hhead eq_refl) as [[-> _]|(c & Hc & Hn & ->)].
        -- by apply elem_of_nil in Hm.
        -- apply list_elem_of_singleton in Hm as [= ->]. by exists c.
      * destruct (proj1 (Hnew s f Hf) msg Hm) as [Hs Hc]. split; [by right | done].
    + intros Hs Hviol. apply elem_of_cons in Hs as [->|Hs].
      * destruct (Hhead eq_refl) as [[_ Hall]|(c & Hc & Hn & ->)].
        -- destruct Hviol as (c & Hc & Hn). by destruct (Hn (Hall c Hc)).
        -- exists (unsatisfied Γ c). apply elem_of_app. left. left.
      * destruct (proj2 (Hnew s f Hf) Hs Hviol) as [msg Hm].
        exists msg. apply elem_of_app. by right.
Qed.

End Reports.

(** X11: of solutions that name every variable of the CSP once, each with a
    value of its domain, [CSP.check] reports exactly those that violate a
    constraint, each with the name of a constraint it violates. *)
Theorem CSP_check_reports (Γ : cref → Constraint) (name : string)
    (vars : list vref) (cs : list cref) (csp : CSP)
    (solutions : list (list (vref * option Value)))
    (σ σ' : State) (errs : list (list (vref * option Value) * string)) :
  CSP_init Γ name vars cs = Ok csp →
  NoDup vars →
  (∀ s, s ∈ solutions → s.*1 ≡ₚ vars) →
  (∀ s v x, s ∈ solutions → (v, x) ∈ s → ∃ y, x = Some y ∧ y ∈ _dom (store σ v)) →
  CSP_check Γ csp solutions σ = Ok (errs, σ') →
  ∀ s f, s ∈ solutions → (∀ v x, (v, x) ∈ s → x = Some (f v)) →
    ((∃ msg, (s, msg) ∈ errs) ↔ ∃ c, c ∈ cs ∧ ¬ sat_fun (Γ c) f) ∧
    (∀ msg, (s, msg) ∈ errs →
       ∃ c, c ∈ cs ∧ ¬ sat_fun (Γ c) f ∧
            msg = "Solution does not satisfy constraint " +:+ Constraint_name (Γ c)).
Proof.
  intros Hinit Hnd Hperm Hdom Hrun s f Hs Hf.
  destruct (CSP_init_referencing Γ name vars cs csp Hinit) as (Hv & Hc & Hscope & _).
  unfold CSP_check, bind in Hrun.
  destruct (CSP_check_loop Γ csp solutions [] σ) as [[errs1 σ1]| |] eqn:Hloop; try done.
  destruct (setValues _ σ1) as [[[] σ2]| |]; try done. injection Hrun as <- <-.
  destruct (CSP_check_loop_proper Γ csp σ) with
    (sols := solutions) (errs := @nil (list (vref * option Value) * string))
    (σ1 := σ) (errs' := errs1) (σ2 := σ1) as (new & -> & Hnew).
  - unfold variables. by rewrite Hv.
  - intros c v. unfold constraints, variables. rewrite Hc, Hv. apply Hscope.
  - apply same_domains_refl.
  - intros s0 Hs0. split; [unfold variables; rewrite Hv; by apply Hperm|].
    intros v x. by apply Hdom.
  - done.
  - simpl. destruct (Hnew s f Hf) as [H1 H2].
    unfold constraints in H1, H2. rewrite Hc in H1, H2. split; [split|].
    + intros [msg Hm]. destruct (H1 msg Hm) as (_ & c & Hcc & Hn & _). by exists c.
    + intros Hviol. by apply H2.
    + intros msg Hm. destruct (H1 msg Hm) as (_ & c & Hcc & Hn & ->). by exists c.
Qed.

Lemma CSP_check_restores_values_witness :
  ∃ errs σ', CSP_check Ex2.neq Ex2.csp_neq
               [[(Ex.A, Some 1); (Ex.B, Some 2)]; [(Ex.A, Some 1); (Ex.B, Some 1)]]
               Ex2.AB12_A1 = Ok (errs, σ') ∧
             (∀ w, store σ' w = store Ex2.AB12_A1 w) ∧
             undoDict σ' = undoDict Ex2.AB12_A1 ∧
             ∀ e, e ∈ errs →
               e.1 ∈ [[(Ex.A, Some 1); (Ex.B, Some 2)]; [(Ex.A, Some 1); (Ex.B, Some 1)]].
Proof.
  apply (CSP_check_restores_values Ex2.neq Ex2.csp_neq
           [[(Ex.A, Some 1); (Ex.B, Some 2)]; [(Ex.A, Some 1); (Ex.B, Some 1)]]
           Ex2.AB12_A1).
  intros w y Hw Hy.
  assert (Hc : w = Ex.A ∨ w = Ex.B).
  { vm_compute in Hw. apply elem_of_cons in Hw as [->|Hw]; [by left|].
    apply list_elem_of_singleton in Hw as ->. by right. }
  destruct Hc as [->| ->].
  - vm_compute in Hy. injection Hy as <-.
    apply (bool_decide_unpack _). vm_compute. exact I.
  - vm_compute in Hy. discriminate.
Defined.

Lemma CSP_check_reports_witness :
  ((∃ msg, ([(Ex.A, Some 1); (Ex.B, Some 1)], msg) ∈
           [([(Ex.A, Some 1); (Ex.B, Some 1)],
             "Solution does not satisfy constraint TableCnstr_neq")]) ↔
   ∃ c, c ∈ [0%nat] ∧ ¬ sat_fun (Ex2.neq c) (fun _ => 1)) ∧
  (∀ msg, ([(Ex.A, Some 1); (Ex.B, Some 1)], msg) ∈
          [([(Ex.A, Some 1); (Ex.B, Some 1)],
            "Solution does not satisfy constraint TableCnstr_neq")] →
     ∃ c, c ∈ [0%nat] ∧ ¬ sat_fun (Ex2.neq c) (fun _ => 1) ∧
          msg = "Solution does not satisfy constraint " +:+ Constraint_name (Ex2.neq c)).
Proof.
  apply (CSP_check_reports Ex2.neq "neq" [Ex.A; Ex.B] [0%nat] Ex2.csp_neq
           [[(Ex.A, Some 1); (Ex.B, Some 2)]; [(Ex.A, Some 1); (Ex.B, Some 1)]]
           Ex.AB12
           (after (CSP_check Ex2.neq Ex2.csp_neq
                     [[(Ex.A, Some 1); (Ex.B, Some 2)]; [(Ex.A, Some 1); (Ex.B, Some 1)]])
              Ex.AB12)).
  - vm_compute. reflexivity.
  - apply (bool_decide_unpack _). vm_compute. exact I.
  - intros s Hs. apply elem_of_cons in Hs as [->|Hs]; [done|].
    apply list_elem_of_singleton in Hs as ->. done.
  - intros s v x Hs Hvx.
    assert (Hx : (x = Some 1 ∨ x = Some 2) ∧ (v = Ex.A ∨ v = Ex.B)).
    { apply elem_of_cons in Hs as [->|Hs];
        [|apply list_elem_of_singleton in Hs as ->];
        (apply elem_of_cons in Hvx as [[= -> ->]|Hvx];
         [|apply list_elem_of_singleton in Hvx as [= -> ->]]); tauto. }
    destruct Hx as [[-> | ->] [-> | ->]]; eexists; (split; [reflexivity|]);
      apply (bool_decide_unpack _); vm_compute; exact I.
  - vm_compute. reflexivity.
  - right. left.
  - intros v x Hvx.
    apply elem_of_cons in Hvx as [[= -> ->]|Hvx];
      [|apply list_elem_of_singleton in Hvx as [= -> ->]]; done.
Defined.

(** ** What propagation never does *)

(** X12: whatever it returns, [GacEnforce] assigns and unassigns nothing and
    changes no name and no original domain; current domains only lose values;
    the undo dictionary changes under the reason key only, where the pruned
    pairs are appended, each a value that was in the current domain of its
    variable; and nothing but error messages is printed. *)
Theorem GacEnforce_only_prunes (Γ : cref → Constraint) (csp : CSP) (fuel : nat)
    (constraints : list cref) (assignedvar : vref) (assignedval : Value)
    (σ σ' : State) (r : verdict) :
  GacEnforce Γ fuel csp constraints assignedvar assignedval σ = Ok (r, σ') →
  pruned_from (assignedvar, assignedval) σ σ'.
Proof. apply GacEnforce_pruned. Qed.

Lemma GacEnforce_only_prunes_witness :
  pruned_from (Ex.A, 1) Ex2.AB12_A1
    (after (GacEnforce Ex2.neq 2 Ex2.csp_neq [0%nat] Ex.A 1) Ex2.AB12_A1).
Proof.
  apply (GacEnforce_only_prunes Ex2.neq Ex2.csp_neq 2 [0%nat] Ex.A 1 Ex2.AB12_A1
           (after (GacEnforce Ex2.neq 2 Ex2.csp_neq [0%nat] Ex.A 1) Ex2.AB12_A1) OK).
  vm_compute. reflexivity.
Defined.

(** ** Propagation loses no solution *)

Section Sound.

Variable Γ : cref → Constraint.
Variable csp : CSP.
Variable rv : vref.
Variable rx : Value.
Variable cs : list cref.
Variable vars : list vref.

Hypothesis refs_in_cs :
  ∀ w refs d, referencing csp w = Some refs → d ∈ refs → d ∈ cs.
Hypothesis cs_scope : ∀ d w, d ∈ cs → w ∈ scope (Γ d) → w ∈ vars.

Lemma enforce_OWO_empty wl σ σ' r :
  enforce Γ csp rv rx wl σ σ' r → r = OWO →
  (∀ d, d ∈ wl → d ∈ cs) →
  ∃ v, v ∈ vars ∧ curDomain (store σ' v) = [].
Proof.
  induction 1 as [|c wl σ σ' r Hv|c wl σ σ1 wl1 σ' r Hv _ IH]; intros Hr Hwl; [done| |].
  - destruct (visit_scope_emptied _ _ _ _ _ _ _ _ _ _ Hv r eq_refl) as (v & Hin & He).
    exists v. split; [|done]. eapply cs_scope; [|done]. apply Hwl. left.
  - apply IH; [done|].
    eapply (visit_scope_worklist Γ csp rv rx cs refs_in_cs _ _ _ _ _ _ Hv); [done|].
    intros d Hd. apply Hwl. by right.
Qed.

End Sound.

(** X13: propagation loses no solution.  On a CSP that the constructor built
    from constraints with duplicate-free scopes and tuples of the right
    length, an assignment that satisfies every constraint and lies within the
    current domains before [GacEnforce] still lies within them when it
    returns, and then it returns [OK]: wipeout is only reported when no such
    assignment exists. *)
Theorem GacEnforce_keeps_solutions (Γ : cref → Constraint) (name : string)
    (vars : list vref) (cs : list cref) (csp : CSP) (fuel : nat)
    (constraints : list cref) (assignedvar : vref) (assignedval : Value)
    (σ σ' : State) (r : verdict) (g : vref → Value) :
  CSP_init Γ name vars cs = Ok csp →
  (∀ d, d ∈ cs → wf_constraint (Γ d)) →
  (∀ d, d ∈ constraints → d ∈ cs) →
  GacEnforce Γ fuel csp constraints assignedvar assignedval σ = Ok (r, σ') →
  (∀ d, d ∈ cs → sat_fun (Γ d) g) →
  fits vars (store σ) g →
  fits vars (store σ') g ∧ r = OK.
Proof.
  intros Hinit Hwf Hwl Hrun Hsat Hfit.
  destruct (CSP_init_facts Γ name vars cs csp Hinit) as (Hv & Hrv & Hfile & Hscope).
  assert (Hrefs : ∀ w refs d, referencing csp w = Some refs → d ∈ refs → d ∈ cs).
  { intros w refs d Hr Hd. destruct (Hfile w (Hrv w refs Hr)) as (refs' & Hr' & Hiff).
    rewrite Hr in Hr'. injection Hr' as <-. by apply Hiff in Hd as [Hd _]. }
  apply GacEnforce_sound in Hrun.
  assert (Hfit' : fits vars (store σ') g).
  { by eapply (enforce_fits Γ csp assignedvar assignedval cs vars Hrefs Hwf Hscope). }
  split; [done|]. destruct r; [|done]. exfalso.
  destruct (enforce_OWO_empty Γ csp assignedvar assignedval cs vars Hrefs Hscope
              _ _ _ _ Hrun eq_refl Hwl) as (v & Hvin & He).
  specialize (Hfit' v Hvin). rewrite He in Hfit'. by apply elem_of_nil in Hfit'.
Qed.

Lemma GacEnforce_keeps_solutions_witness :
  fits [Ex.A; Ex.B]
    (store (after (GacEnforce Ex2.neq 2 Ex2.csp_neq [0%nat] Ex.A 1) Ex2.AB12_A1))
    (fun w => if decide (w = Ex.A) then 1 else 2) ∧ OK = OK.
Proof.
  apply (GacEnforce_keeps_solutions Ex2.neq "neq" [Ex.A; Ex.B] [0%nat] Ex2.csp_neq 2
           [0%nat] Ex.A 1 Ex2.AB12_A1
           (after (GacEnforce Ex2.neq 2 Ex2.csp_neq [0%nat] Ex.A 1) Ex2.AB12_A1) OK
           (fun w => if decide (w = Ex.A) then 1 else 2)).
  - vm_compute. reflexivity.
  - intros d _. split.
    + apply (bool_decide_unpack _). vm_compute. exact I.
    + repeat constructor.
  - intros d Hd. exact Hd.
  - vm_compute. reflexivity.
  - intros d _. unfold Ex2.neq, sat_fun. apply (bool_decide_unpack _).
    vm_compute. exact I.
  - intros w Hw.
    assert (Hc : w = Ex.A ∨ w = Ex.B).
    { apply elem_of_cons in Hw as [->|Hw]; [by left|].
      apply list_elem_of_singleton in Hw as ->. by right. }
    destruct Hc as [->| ->]; apply (bool_decide_unpack _); vm_compute; exact I.
Defined.

(** ** The search on every CSP *)

(** X14: whatever the constraints of the CSP are, a top-level call of [GAC]
    that returns leaves the undo dictionary empty, every variable unassigned
    with its name and original domain, the pool a rearrangement of the
    variables, and in every current domain the values of the original domain
    and no others. *)
Theorem GAC_cleans_up (Γ : cref → Constraint) (csp : CSP) (fuel : nat)
    (σ σ' : State) (pool' : list vref) :
  GAC Γ fuel (variables csp) csp σ = Ok (pool', σ') →
  NoDup (variables csp) →
  (∀ w, _curdom (store σ w) = _dom (store σ w)) →
  (∀ w, getValue (store σ w) = None) →
  undoDict σ = ∅ →
  undoDict σ' = ∅ ∧ pool' ≡ₚ variables csp ∧ same_assignment σ σ' ∧
  (∀ w, getValue (store σ' w) = None) ∧
  (∀ w y, y ∈ _curdom (store σ' w) ↔ y ∈ _dom (store σ' w)).
Proof.
  intros Hrun Hnd Hdom Hun Hlog.
  destruct (GAC_top_level Γ csp fuel σ pool' σ' Hrun Hnd Hdom Hun Hlog) as (H1 & H2 & H3).
  destruct (GAC_inv Γ csp fuel _ σ pool' σ' Hrun) as (_ & Hs & _ & Hp & _).
  { split; [|split; [done|split; [done|]]].
    - intros w. rewrite Hdom. split; [done|]. intros y Hy. by rewrite Hun in Hy.
    - intros w x _. rewrite Hlog. apply lookup_empty. }
  done.
Qed.

Lemma GAC_cleans_up_witness :
  ∃ pool' σ',
    GAC Ex4.unary_binary 10 (variables Ex4.csp_ub) Ex4.csp_ub Ex.AB12 = Ok (pool', σ') ∧
    undoDict σ' = ∅ ∧ pool' ≡ₚ variables Ex4.csp_ub ∧ same_assignment Ex.AB12 σ' ∧
    (∀ w, getValue (store σ' w) = None) ∧
    (∀ w y, y ∈ _curdom (store σ' w) ↔ y ∈ _dom (store σ' w)).
Proof.
  eexists _, _. split; [vm_compute; reflexivity|].
  apply (GAC_cleans_up Ex4.unary_binary Ex4.csp_ub 10 Ex.AB12).
  - vm_compute. reflexivity.
  - apply (bool_decide_unpack _). vm_compute. exact I.
  - intros w. destruct w as [|[|w]]; reflexivity.
  - apply initial_unassigned.
  - reflexivity.
Defined.

(** ** A pool variable that the CSP does not know *)

(** X15: when the variable at the head of the pool is not a variable of the
    CSP and has a value to try, [GAC] prints the complaint of [constraintsOf]
    and fails with [AttributeError], whatever the fuel: [constraintsOf]
    returned [None], which has no [pop]. *)
Theorem GAC_foreign_variable_raises (Γ : cref → Constraint) (csp : CSP) (fuel : nat)
    (var : vref) (pool : list vref) (σ : State) :
  var ∉ variables csp →
  curDomain (store σ var) ≠ [] →
  GAC Γ (S fuel) (var :: pool) csp σ = Raise AttributeError.
Proof.
  intros Hvar Hdom. simpl. unfold bind, mark_select, print, get_var. simpl.
  destruct (curDomain (store σ var)) as [|val vals] eqn:Hc; [done|].
  simpl. unfold GAC_attempt, bind.
  destruct (setValue_spec
              (mkState (store σ) (undoDict σ)
                 (events σ ++ [Select var (var :: pool)
                    (filter (fun v => isAssigned (store σ v) = false) (variables csp))]))
              var (Some val)) as (σ1 & Hset & _).
  rewrite Hset. rewrite constraintsOf_referencing.
  unfold referencing. apply index_None in Hvar. by rewrite Hvar.
Qed.

Lemma GAC_foreign_variable_raises_witness :
  GAC Ex2.neq 1 [Ex.C; Ex.A] Ex2.csp_neq Ex3.ABC = Raise AttributeError.
Proof.
  apply (GAC_foreign_variable_raises Ex2.neq Ex2.csp_neq 0 Ex.C [Ex.A] Ex3.ABC).
  - apply (bool_decide_unpack _). vm_compute. exact I.
  - vm_compute. discriminate.
Defined.
